(** * Sound-tab detector: audible-tab cache, popup channel and skip resolver

    A shallow embedding of the extension's background cache
    (src/background.js and the retaining background script,
    src/unnamed/part_002) and of the in-page skip resolver
    (src/unnamed/part_000 and src/unnamed/part_001), followed by the
    properties proved about them.

    Conventions.
    - A JavaScript [Map] is an association list in insertion order
      ([JsMap]): iteration order is observable through the snapshots.
    - [Date.now()] reads a clock [clk : nat -> Z]; the n-th read of a run
      returns [clk n].  The number of reads made so far is part of the
      state, so successive reads inside one handler may differ.
    - Host objects are records of the fields the code reads; a field that
      may be [undefined]/[null] is an [option]. *)

From Stdlib Require Import ZArith List String Bool Lia DecimalString.
Import ListNotations.
Open Scope string_scope.
Open Scope list_scope.
Open Scope Z_scope.

(* ================================================================= *)
(** ** JavaScript values used by the scripts *)

Module Js.

(** What [upsertFromTab] returns: [false] or a string. *)
Inductive Value :=
| VFalse
| VString (s : string).

(** [if (v)] on such a value: [false] and the empty string are falsy. *)
Definition truthy (v : Value) : bool :=
  match v with
  | VFalse => false
  | VString s => negb (s =? "")%string
  end.

(** [a || b] where [a] is a possibly missing string. *)
Definition or_string (a : option string) (b : string) : string :=
  match a with
  | Some s => if (s =? "")%string then b else s
  | None => b
  end.

(** The double-quote character, and a string between two of them. *)
Definition dquote : string := String (Ascii.ascii_of_nat 34) EmptyString.

Definition quoted (s : string) : string := (dquote ++ s ++ dquote)%string.

(** [prefix"s"suffix], as in the attribute selectors. *)
Definition attr (prefix s suffix : string) : string :=
  (prefix ++ quoted s ++ suffix)%string.

(** Template-literal rendering of an integer. *)
Definition string_of_Z (z : Z) : string :=
  NilEmpty.string_of_int (Z.to_int z).

End Js.

(* ================================================================= *)
(** ** [Map] keyed by tab id, in insertion order *)

Module JsMap.

Definition t (V : Type) := list (Z * V).

Definition empty {V} : t V := [].

Fixpoint get {V} (k : Z) (m : t V) : option V :=
  match m with
  | [] => None
  | (k', v) :: m' => if k' =? k then Some v else get k m'
  end.

Definition has {V} (k : Z) (m : t V) : bool :=
  match get k m with Some _ => true | None => false end.

(** [set] keeps the position of an existing key and appends a new one. *)
Fixpoint set {V} (k : Z) (v : V) (m : t V) : t V :=
  match m with
  | [] => [(k, v)]
  | (k', v') :: m' =>
      if k' =? k then (k', v) :: m' else (k', v') :: set k v m'
  end.

(** [delete] removes the entry of the key. *)
Fixpoint delete {V} (k : Z) (m : t V) : t V :=
  match m with
  | [] => []
  | (k', v') :: m' => if k' =? k then m' else (k', v') :: delete k m'
  end.

Definition keys {V} (m : t V) : list Z := map fst m.
Definition values {V} (m : t V) : list V := map snd m.
Definition entries {V} (m : t V) : list (Z * V) := m.

End JsMap.

(* ================================================================= *)
(** ** Host tab snapshots *)

Record MutedInfo := { mi_muted : bool }.

(** The tab object the host passes to the listeners.  [tab_id = None] is
    an id that is [null] or [undefined]; a missing [title]/[url] is
    [None]; a missing [audible] is [false]. *)
Record HostTab := {
  tab_id : option Z;
  tab_title : option string;
  tab_url : option string;
  tab_audible : bool;
  tab_mutedInfo : option MutedInfo
}.

(** [!!(tab.mutedInfo && tab.mutedInfo.muted)] *)
Definition muted_of (tab : HostTab) : bool :=
  match tab_mutedInfo tab with
  | Some mi => mi_muted mi
  | None => false
  end.

(** [tab.title || tab.url || `Tab ${tab.id}`] *)
Definition title_of (tab : HostTab) (tid : Z) : string :=
  Js.or_string (tab_title tab)
    (Js.or_string (tab_url tab) ("Tab " ++ Js.string_of_Z tid)%string).

(** [tab.url || ''] *)
Definition url_of (tab : HostTab) : string :=
  Js.or_string (tab_url tab) "".

(* ================================================================= *)
(** ** src/background.js: the cache without retention *)

Module Background.

Record TabRecord := {
  id : Z;
  title : string;
  url : string;
  audible : bool;
  muted : bool
}.

Definition Cache := JsMap.t TabRecord.

Definition getAudibleTabs (audibleTabsMap : Cache) : list TabRecord :=
  JsMap.values audibleTabsMap.

(** Returns the value returned and the map after the call.  The
    argument is [None] for a [null]/[undefined] tab. *)
Definition upsertFromTab (tab : option HostTab) (audibleTabsMap : Cache)
  : Js.Value * Cache :=
  match tab with
  | None => (Js.VFalse, audibleTabsMap)
  | Some tab =>
      match tab_id tab with
      | None => (Js.VFalse, audibleTabsMap)
      | Some tid =>
          let was := JsMap.has tid audibleTabsMap in
          if tab_audible tab then
            (Js.VString (if was then "updated" else "added"),
             JsMap.set tid
               {| id := tid;
                  title := title_of tab tid;
                  url := url_of tab;
                  audible := true;
                  muted := muted_of tab |}
               audibleTabsMap)
          else if was then
            (Js.VString "removed", JsMap.delete tid audibleTabsMap)
          else
            (Js.VFalse, audibleTabsMap)
      end
  end.

(** [tabs.forEach(t => upsertFromTab(t))] *)
Definition upsertAll (tabs : list (option HostTab)) (m : Cache) : Cache :=
  fold_left (fun acc t => snd (upsertFromTab t acc)) tabs m.

(** Keys are distinct and every record is stored under its own id. *)
Definition wf (m : Cache) : Prop :=
  NoDup (JsMap.keys m) /\ Forall (fun e => id (snd e) = fst e) m.

End Background.

(* ================================================================= *)
(** ** src/unnamed/part_002: the cache with retention and popup ports *)

Module Retaining.

Record TabRecord := {
  id : Z;
  title : string;
  url : string;
  audible : bool;
  muted : bool;
  lastActive : Z
}.

Definition TAB_RETENTION_MS : Z := 30 * 60 * 1000.

(** The mutation of an existing entry in the not-audible branch of
    [upsertFromTab]: [audible = false; lastActive = lastActive || now]. *)
Definition markInactive (now : Z) (existingTab : TabRecord) : TabRecord :=
  {| id := id existingTab;
     title := title existingTab;
     url := url existingTab;
     audible := false;
     muted := muted existingTab;
     lastActive :=
       if lastActive existingTab =? 0 then now else lastActive existingTab |}.

(** A connecting port: its identity and its [name]. *)
Record Port := { port_id : nat; port_name : string }.

(** An entry of a pushed tab list.  [isPlaying] is [None] where the
    message carries the cached objects as they are (on connection). *)
Record PushedTab := { pushed : TabRecord; isPlaying : option bool }.

Record Message := { command : string; tabs : list PushedTab }.

(** The state of the background page.  [reads] counts the calls of
    [Date.now()] made so far; [popupPorts] is the [Set] of ports in
    insertion order; [disconnectListeners] are the ports whose
    [onDisconnect] listener has been registered. *)
Record World := {
  reads : nat;
  audibleTabsMap : JsMap.t TabRecord;
  popupPorts : list nat;
  disconnectListeners : list nat
}.

Definition initial : World :=
  {| reads := 0; audibleTabsMap := JsMap.empty;
     popupPorts := []; disconnectListeners := [] |}.

(** *** State monad of the background page *)

Definition M (A : Type) : Type := World -> A * World.

Definition ret {A} (a : A) : M A := fun w => (a, w).

Definition bind {A B} (c : M A) (k : A -> M B) : M B :=
  fun w => let (a, w') := c w in k a w'.

Declare Scope bg_scope.
Delimit Scope bg_scope with bg.
Notation "x <- c ;; k" := (bind c (fun x => k))
  (at level 61, c at next level, right associativity) : bg_scope.
Notation "c ;; k" := (bind c (fun _ => k))
  (at level 61, right associativity) : bg_scope.
Local Open Scope bg_scope.

Definition getTabs : M (JsMap.t TabRecord) :=
  fun w => (audibleTabsMap w, w).

Definition putTabs (m : JsMap.t TabRecord) : M unit :=
  fun w => (tt, {| reads := reads w; audibleTabsMap := m;
                   popupPorts := popupPorts w;
                   disconnectListeners := disconnectListeners w |}).

Definition getPorts : M (list nat) := fun w => (popupPorts w, w).

Definition putPorts (ps : list nat) : M unit :=
  fun w => (tt, {| reads := reads w; audibleTabsMap := audibleTabsMap w;
                   popupPorts := ps;
                   disconnectListeners := disconnectListeners w |}).

Definition addDisconnectListener (p : nat) : M unit :=
  fun w => (tt, {| reads := reads w; audibleTabsMap := audibleTabsMap w;
                   popupPorts := popupPorts w;
                   disconnectListeners := p :: disconnectListeners w |}).

Definition exec {A} (c : M A) (w : World) : World := snd (c w).
Definition eval {A} (c : M A) (w : World) : A := fst (c w).

(** [Set.prototype.add] and [Set.prototype.delete] on port identities. *)
Definition set_add (p : nat) (s : list nat) : list nat :=
  if existsb (Nat.eqb p) s then s else s ++ [p].

Definition set_delete (p : nat) (s : list nat) : list nat :=
  filter (fun q => negb (Nat.eqb q p)) s.

Section Clock.

Variable clk : nat -> Z.

(** [Date.now()] *)
Definition Date_now : M Z :=
  fun w => (clk (reads w),
            {| reads := S (reads w); audibleTabsMap := audibleTabsMap w;
               popupPorts := popupPorts w;
               disconnectListeners := disconnectListeners w |}).

(** The test of [cleanupOldTabs] on one entry. *)
Definition isStale (now : Z) (tab : TabRecord) : bool :=
  negb (audible tab) && (TAB_RETENTION_MS <=? now - lastActive tab).

(** The loop over [audibleTabsMap.entries()]: every entry present
    when the loop starts is visited, and a stale one is deleted by
    its key. *)
Definition cleanupOldTabs : M unit :=
  now <- Date_now ;;
  m <- getTabs ;;
  putTabs
    (fold_left
       (fun acc e => if isStale now (snd e) then JsMap.delete (fst e) acc
                     else acc)
       (JsMap.entries m) m).

(** The [filter] callback of [getAudibleTabs]; [||] reads the clock
    only when the tab is not audible. *)
Definition keepTab (tab : TabRecord) : M bool :=
  if audible tab then ret true
  else now <- Date_now ;;
       ret (now - lastActive tab <? TAB_RETENTION_MS).

Fixpoint filterTabs (l : list TabRecord) : M (list TabRecord) :=
  match l with
  | [] => ret []
  | tab :: rest =>
      keep <- keepTab tab ;;
      rest' <- filterTabs rest ;;
      ret (if keep then tab :: rest' else rest')
  end.

Definition getAudibleTabs : M (list TabRecord) :=
  cleanupOldTabs ;;
  m <- getTabs ;;
  filterTabs (JsMap.values m).

Definition upsertFromTab (tab : option HostTab) : M Js.Value :=
  match tab with
  | None => ret Js.VFalse
  | Some tab =>
      match tab_id tab with
      | None => ret Js.VFalse
      | Some tid =>
          now <- Date_now ;;
          m <- getTabs ;;
          let was := JsMap.has tid m in
          if tab_audible tab then
            putTabs
              (JsMap.set tid
                 {| id := tid;
                    title := title_of tab tid;
                    url := url_of tab;
                    audible := true;
                    muted := muted_of tab;
                    lastActive := now |}
                 m) ;;
            ret (Js.VString (if was then "updated" else "added"))
          else if was then
            match JsMap.get tid m with
            | Some existingTab =>
                putTabs (JsMap.set tid (markInactive now existingTab) m)
            | None => ret tt
            end ;;
            ret (Js.VString "updated")
          else
            ret Js.VFalse
      end
  end.

(** The [onConnect] listener.  [post_ok = false] is a [postMessage]
    that throws: the listener is left before the [onDisconnect]
    listener is registered.  Returns the message handed to
    [postMessage], if the port is a popup. *)
Definition onConnect (port : Port) (post_ok : bool)
  : M (list (nat * Message)) :=
  if (port_name port =? "popup")%string then
    ps <- getPorts ;;
    putPorts (set_add (port_id port) ps) ;;
    m <- getTabs ;;
    let msg :=
      {| command := "update_media_tabs";
         tabs := map (fun tab => {| pushed := tab; isPlaying := None |})
                     (JsMap.values m) |} in
    (if post_ok then addDisconnectListener (port_id port) else ret tt) ;;
    ret [(port_id port, msg)]
  else ret [].

(** The listener registered on [port.onDisconnect]. *)
Definition onDisconnect (p : nat) : M unit :=
  fun w =>
    if existsb (Nat.eqb p) (disconnectListeners w)
    then putPorts (set_delete p (popupPorts w)) w
    else (tt, w).

(** [pushUpdateToPopup]; [post_ok p = false] is a [postMessage] on
    port [p] that throws.  Returns the attempted posts in order. *)
Definition pushUpdateToPopup (post_ok : nat -> bool)
  : M (list (nat * Message)) :=
  ps <- getPorts ;;
  if (List.length ps =? 0)%nat then ret []
  else
    m <- getTabs ;;
    let message :=
      {| command := "update_media_tabs";
         tabs := map (fun tab => {| pushed := tab;
                                    isPlaying := Some (audible tab) |})
                     (JsMap.values m) |} in
    putPorts
      (fold_left
         (fun acc port => if post_ok port then acc
                          else set_delete port acc)
         ps ps) ;;
    ret (map (fun port => (port, message)) ps).

(** The [then] callback of the [toggle_mute] command: reflect the new
    mute state in the cached entry and push. *)
Definition reflectMute (tabId : Z) (isMuted : bool) (post_ok : nat -> bool)
  : M (list (nat * Message)) :=
  m <- getTabs ;;
  match JsMap.get tabId m with
  | Some tabEntry =>
      putTabs
        (JsMap.set tabId
           {| id := id tabEntry; title := title tabEntry; url := url tabEntry;
              audible := audible tabEntry; muted := isMuted;
              lastActive := lastActive tabEntry |}
           m) ;;
      pushUpdateToPopup post_ok
  | None => ret []
  end.

(** [updateIconForMediaTabs]: the icon path and the title it sets. *)
Definition updateIconForMediaTabs : M (string * string) :=
  l <- getAudibleTabs ;;
  let count := Z.of_nat (List.length l) in
  ret (if count >? 0
       then ("icons/icon-sound-on-48.png",
             (Js.string_of_Z count ++ " tab(s) playing sound")%string)
       else ("icons/icon-sound-off-48.png", "No tabs with media")).

(** The [tabs.onCreated] listener. *)
Definition onCreated (tab : option HostTab) (post_ok : nat -> bool)
  : M (list (nat * Message)) :=
  changed <- upsertFromTab tab ;;
  if Js.truthy changed then
    updateIconForMediaTabs ;;
    pushUpdateToPopup post_ok
  else ret [].

(** The entries built by the [get_media_tabs] command. *)
Record MediaTabData := {
  d_id : Z; d_title : string; d_url : string; d_audible : bool;
  d_muted : bool; d_isPlaying : bool; d_isPaused : bool;
  d_mediaCount : Z
}.

Definition get_media_tabs : M (list MediaTabData) :=
  l <- getAudibleTabs ;;
  ret (map (fun tab =>
              {| d_id := id tab; d_title := title tab; d_url := url tab;
                 d_audible := true; d_muted := muted tab;
                 d_isPlaying := true; d_isPaused := false;
                 d_mediaCount := 1 |}) l).

(** [tabs.onRemoved]'s test: [audibleTabsMap.delete(tabId)]. *)
Definition removeTab (tabId : Z) : M bool :=
  m <- getTabs ;;
  putTabs (JsMap.delete tabId m) ;;
  ret (JsMap.has tabId m).

(** [tabs.forEach(t => upsertFromTab(t))] *)
Fixpoint upsertAll (tabs : list (option HostTab)) : M unit :=
  match tabs with
  | [] => ret tt
  | t :: rest => upsertFromTab t ;; upsertAll rest
  end.

(** *** Runs of the cache and port functions

    The events are calls of the functions above, as the handlers make
    them; the handlers themselves are the events of [Whole] below. *)

Inductive Event :=
| EUpsert (tab : option HostTab)
| ECleanup
| ESnapshot
| ERemove (tabId : Z)
| EConnect (port : Port) (post_ok : bool)
| EDisconnect (p : nat)
| EPush (post_ok : nat -> bool).

(** What an event lets the outside observe.  A snapshot comes with
    the number of clock reads made before and after it. *)
Inductive Output :=
| OValue (v : Js.Value)
| ODone
| OSnapshot (before after : nat) (l : list TabRecord)
| ORemoved (b : bool)
| OPosted (posts : list (nat * Message)).

Definition step (e : Event) : M Output :=
  match e with
  | EUpsert tab => v <- upsertFromTab tab ;; ret (OValue v)
  | ECleanup => cleanupOldTabs ;; ret ODone
  | ESnapshot =>
      fun w =>
        let (l, w') := getAudibleTabs w in
        (OSnapshot (reads w) (reads w') l, w')
  | ERemove tabId => b <- removeTab tabId ;; ret (ORemoved b)
  | EConnect port ok => ps <- onConnect port ok ;; ret (OPosted ps)
  | EDisconnect p => onDisconnect p ;; ret ODone
  | EPush ok => ps <- pushUpdateToPopup ok ;; ret (OPosted ps)
  end.

Fixpoint run (es : list Event) : M (list Output) :=
  match es with
  | [] => ret []
  | e :: es' =>
      o <- step e ;;
      os <- run es' ;;
      ret (o :: os)
  end.

End Clock.

(** Keys are distinct and every record is stored under its own id. *)
Definition wf (m : JsMap.t TabRecord) : Prop :=
  NoDup (JsMap.keys m) /\ Forall (fun e => id (snd e) = fst e) m.

End Retaining.

(* ================================================================= *)
(** ** The page seen by the skip resolver *)

Module Dom.

(** An element with the computed style and the properties the
    resolver reads.  The last three fields are the media-element
    properties read by the content script (falsy on other elements). *)
Record Element := {
  el_id : nat;
  display : string;
  visibility : string;
  opacity : string;
  offsetWidth : Z;
  offsetHeight : Z;
  el_nextTrack : bool;
  el_previousTrack : bool;
  audioTracks_length : option Z
}.

(** [navigator.mediaSession].  [ms_setActionHandler = None] is a falsy
    [setActionHandler]; otherwise the function tells, per action,
    whether the call returns ([true]) or throws ([false]).
    [ms_dispatch_ok] does the same for [dispatchEvent]. *)
Record MediaSession := {
  ms_setActionHandler : option (string -> bool);
  ms_dispatch_ok : string -> bool
}.

(** A player object: for each method, [None] when it is not a
    function, [Some ok] when it is, [ok] telling whether the call
    returns or throws. *)
Record Player := {
  pl_id : nat;
  nextTrack : option bool;
  previousTrack : option bool
}.

Inductive GetPlayers :=
| GPThrows
| GPPlayers (l : list Player).

Inductive Target := TDocument | TWindow | TActiveElement.

(** The page as it stands during one call of the resolver: the code
    the resolver calls into (handlers, players, listeners) is taken
    not to change what the queries below answer within that call, and
    [click()] does not throw. *)
Record Page := {
  querySelectorAll : string -> list Element;
  mediaSession : option MediaSession;
  videojs_getPlayers : option GetPlayers;
  window_global : string -> option Player;
  keyboardEvent_ok : bool;
  target_dispatch_ok : Target -> bool
}.

Definition querySelector (p : Page) (selector : string) : option Element :=
  hd_error (querySelectorAll p selector).

(** What the resolver does to the page, in order; a call that throws
    is recorded as well. *)
Inductive Effect :=
| Click (el : nat)
| SetActionHandler (action : string)
| SessionDispatch (action : string)
| CallGetPlayers
| CallNextTrack (pl : nat)
| CallPreviousTrack (pl : nat)
| KeyDispatch (target : Target) (key : string).

Inductive SkipResult :=
| Success (method : string)
| Failure (error : string) (methodsTried : list string).

(** A strategy either returns from [skipTrack] or falls through. *)
Definition Attempt : Type := option SkipResult * list Effect.

Definition orElse (a b : Attempt) : Attempt :=
  match a with
  | (Some r, t) => (Some r, t)
  | (None, t) => (fst b, t ++ snd b)
  end.

Definition exhausted : SkipResult :=
  Failure "No supported track skipping method found on this page"
          ["button-click"; "media-session"; "player-api"; "keyboard-events"].

(** The visibility test of the [find] callback. *)
Definition isVisible (btn : Element) : bool :=
  negb (display btn =? "none")%string
  && negb (visibility btn =? "hidden")%string
  && negb (opacity btn =? "0")%string
  && (offsetWidth btn >? 0)
  && (offsetHeight btn >? 0).

(** The first loop over the selectors: [querySelectorAll], [find] the
    first visible match, click it and return. *)
Fixpoint firstVisibleButton (p : Page) (selectors : list string)
  : option Element :=
  match selectors with
  | [] => None
  | selector :: rest =>
      match find isVisible (querySelectorAll p selector) with
      | Some visibleButton => Some visibleButton
      | None => firstVisibleButton p rest
      end
  end.

Definition buttonClick (p : Page) (selectors : list string) : Attempt :=
  match firstVisibleButton p selectors with
  | Some visibleButton =>
      (Some (Success "button-click"), [Click (el_id visibleButton)])
  | None => (None, [])
  end.

(** The body of one branch of the media-session block. *)
Definition sessionAttempt (ms : MediaSession) (set_ok : string -> bool)
           (action : string) : Attempt :=
  if set_ok action then
    if ms_dispatch_ok ms action
    then (Some (Success "media-session"),
          [SetActionHandler action; SessionDispatch action])
    else (None, [SetActionHandler action; SessionDispatch action])
  else (None, [SetActionHandler action]).

Definition mediaSessionProbe (p : Page) (isNext : bool) : Attempt :=
  match mediaSession p with
  | None => (None, [])
  | Some ms =>
      match isNext, ms_setActionHandler ms with
      | true, Some set_ok => sessionAttempt ms set_ok "nexttrack"
      | false, Some set_ok => sessionAttempt ms set_ok "previoustrack"
      | _, None => (None, [])
      end
  end.

Definition commonPlayers : list string :=
  ["player"; "videoPlayer"; "audioPlayer"; "mediaPlayer";
   "ytplayer"; "ytPlayer"; "netflix"; "spotifyPlayer"].

Definition is_function (m : option bool) : bool :=
  match m with Some _ => true | None => false end.

(** [commonPlayers.forEach]: a global is kept when it is truthy and
    its [nextTrack] is a function (in both directions). *)
Definition commonPlayerObjects (p : Page) : list Player :=
  flat_map
    (fun name =>
       match window_global p name with
       | Some pl => if is_function (nextTrack pl) then [pl] else []
       | None => []
       end)
    commonPlayers.

(** The loop over the collected players; a throwing call is caught
    and the loop goes on. *)
Fixpoint tryPlayers (isNext : bool) (players : list Player) : Attempt :=
  match players with
  | [] => (None, [])
  | player :: rest =>
      if isNext && is_function (nextTrack player) then
        match nextTrack player with
        | Some true =>
            (Some (Success "player-api-next"), [CallNextTrack (pl_id player)])
        | _ =>
            let r := tryPlayers isNext rest in
            (fst r, CallNextTrack (pl_id player) :: snd r)
        end
      else if negb isNext && is_function (previousTrack player) then
        match previousTrack player with
        | Some true =>
            (Some (Success "player-api-prev"),
             [CallPreviousTrack (pl_id player)])
        | _ =>
            let r := tryPlayers isNext rest in
            (fst r, CallPreviousTrack (pl_id player) :: snd r)
        end
      else tryPlayers isNext rest
  end.

Definition playerApiProbe (p : Page) (isNext : bool) : Attempt :=
  match videojs_getPlayers p with
  | None => tryPlayers isNext (commonPlayerObjects p)
  | Some GPThrows => (None, [CallGetPlayers])
  | Some (GPPlayers videoJsPlayers) =>
      let r := tryPlayers isNext (videoJsPlayers ++ commonPlayerObjects p) in
      (fst r, CallGetPlayers :: snd r)
  end.

Definition targets : list Target := [TDocument; TWindow; TActiveElement].

(** The keyboard block: build the event, dispatch it to each target in
    turn inside its own [try], and return when [success] was set. *)
Definition keyboardProbe (p : Page) (isNext : bool) : Attempt :=
  if keyboardEvent_ok p then
    let key := if isNext then "MediaTrackNext" else "MediaTrackPrevious" in
    let success :=
      fold_left
        (fun success target =>
           if target_dispatch_ok p target then true else success)
        targets false in
    (if success then Some (Success "keyboard-events") else None,
     map (fun target => KeyDispatch target key) targets)
  else (None, []).

Definition finish (a : Attempt) : SkipResult * list Effect :=
  match a with
  | (Some r, t) => (r, t)
  | (None, t) => (exhausted, t)
  end.

End Dom.

(* ================================================================= *)
(** ** src/unnamed/part_000: the injected [skipTrack] *)

Module SkipTrackJs.
Import Dom.

Definition buttonSelectors (isNext : bool) : list string :=
  List.concat
    [ (if isNext then
         [Js.attr "button[title*=" "next" " i]"; Js.attr "button[aria-label*=" "next" " i]"; ".next";
          ".next-button"; ".skip-button"; ".skip-forward"]
       else
         [Js.attr "button[title*=" "previous" " i]"; Js.attr "button[aria-label*=" "previous" " i]";
          ".prev"; ".previous"; ".previous-button"; ".skip-back"]);
      (if isNext then
         [".ytp-next-button"; ".ytp-next-arrow"; ".video-next-button"]
       else
         [".ytp-prev-button"; ".ytp-prev-arrow"; ".video-prev-button"]);
      (if isNext then
         [".spoticon-skip-forward"; ".skip-control__next";
          ".player-controls__next"]
       else
         [".spoticon-skip-back"; ".skip-control__previous";
          ".player-controls__previous"]);
      (if isNext then
         [Js.attr "[data-testid=" "control-button-skip-forward" "]"; Js.attr "[data-testid=" "next" "]"]
       else
         [Js.attr "[data-testid=" "control-button-skip-back" "]";
          Js.attr "[data-testid=" "previous" "]"]) ].

Definition attempts (p : Page) (isNext : bool) : Attempt :=
  orElse (buttonClick p (buttonSelectors isNext))
    (orElse (mediaSessionProbe p isNext)
       (orElse (playerApiProbe p isNext)
          (keyboardProbe p isNext))).

Definition skipTrack (p : Page) (direction : string)
  : SkipResult * list Effect :=
  let isNext := (direction =? "next")%string in
  finish (attempts p isNext).

End SkipTrackJs.

(* ================================================================= *)
(** ** src/unnamed/part_001: the content script's [skipTrack] *)

Module ContentScript.
Import Dom.

(** The module-level [cache] object. *)
Record MediaCache := {
  mediaElements : option (list Element);
  lastUpdate : Z
}.

Definition CACHE_DURATION : Z := 1000.

Definition initialCache : MediaCache :=
  {| mediaElements := None; lastUpdate := 0 |}.

(** [getMediaElements], with [now] the value read from the clock. *)
Definition getMediaElements (p : Page) (now : Z) (cache : MediaCache)
  : list Element * MediaCache :=
  match mediaElements cache with
  | Some els =>
      if now - lastUpdate cache >? CACHE_DURATION then
        let fresh := querySelectorAll p "audio, video" in
        (fresh, {| mediaElements := Some fresh; lastUpdate := now |})
      else (els, cache)
  | None =>
      let fresh := querySelectorAll p "audio, video" in
      (fresh, {| mediaElements := Some fresh; lastUpdate := now |})
  end.

(** The list [mediaWithTracks] built by the first loop.  It is not
    read again by [skipTrack]. *)
Definition mediaWithTracks (direction : string) (els : list Element)
  : list Element :=
  filter
    (fun media =>
       ((direction =? "next")%string && el_nextTrack media)
       || ((direction =? "prev")%string && el_previousTrack media)
       || match audioTracks_length media with
          | Some n => n >? 1
          | None => false
          end)
    els.

(** The result of the property access [commonButtonSelectors[direction]]:
    an own property, nothing, or a property inherited from
    [Object.prototype] (truthy, and not iterable). *)
Inductive Lookup :=
| Own (selectors : list string)
| Missing
| Inherited.

Definition objectPrototypeKeys : list string :=
  ["constructor"; "__proto__"; "hasOwnProperty"; "isPrototypeOf";
   "propertyIsEnumerable"; "toLocaleString"; "toString"; "valueOf";
   "__defineGetter__"; "__defineSetter__"; "__lookupGetter__";
   "__lookupSetter__"].

Definition commonButtonSelectors (direction : string) : Lookup :=
  if (direction =? "next")%string then
    Own [".ytp-next-button"; ".ytp-next-arrow";
         ".spoticon-skip-forward";
         Js.attr "[data-testid=" "control-button-skip-forward" "]";
         Js.attr "[data-testid=" "next" "]";
         Js.attr "button[title*=" "next" " i]";
         Js.attr "button[aria-label*=" "next" " i]";
         ".next"; ".next-button"; ".skip-forward"]
  else if (direction =? "prev")%string then
    Own [".ytp-prev-button"; ".ytp-prev-arrow";
         ".spoticon-skip-back";
         Js.attr "[data-testid=" "control-button-skip-back" "]";
         Js.attr "[data-testid=" "previous" "]";
         Js.attr "button[title*=" "previous" " i]";
         Js.attr "button[aria-label*=" "previous" " i]";
         ".prev"; ".previous"; ".previous-button"; ".skip-back"]
  else if existsb (String.eqb direction) objectPrototypeKeys then Inherited
  else Missing.

(** The second loop over the selectors (step 4): [querySelector], and a
    click when that first match is visible. *)
Fixpoint firstMatchVisible (p : Page) (selectors : list string)
  : option Element :=
  match selectors with
  | [] => None
  | selector :: rest =>
      match querySelector p selector with
      | Some button =>
          if isVisible button then Some button
          else firstMatchVisible p rest
      | None => firstMatchVisible p rest
      end
  end.

Definition buttonClickAgain (p : Page) (selectors : list string) : Attempt :=
  match firstMatchVisible p selectors with
  | Some button => (Some (Success "button-click"), [Click (el_id button)])
  | None => (None, [])
  end.

Definition attempts (p : Page) (isNext : bool) (buttonSelectors : list string)
  : Attempt :=
  orElse (buttonClick p buttonSelectors)
    (orElse (mediaSessionProbe p isNext)
       (orElse (playerApiProbe p isNext)
          (orElse (buttonClickAgain p buttonSelectors)
             (keyboardProbe p isNext)))).

(** How a call of [skipTrack] ends: with a result, or with the
    [TypeError] of iterating a value that is not iterable. *)
Inductive Outcome :=
| Returned (r : SkipResult)
| Threw.

Definition skipTrack (p : Page) (now : Z) (cache : MediaCache)
           (direction : string)
  : Outcome * list Effect * MediaCache :=
  let isNext := (direction =? "next")%string in
  let (els, cache') := getMediaElements p now cache in
  let _ := mediaWithTracks direction els in
  match commonButtonSelectors direction with
  | Inherited => (Threw, [], cache')
  | Own buttonSelectors =>
      let r := finish (attempts p isNext buttonSelectors) in
      (Returned (fst r), snd r, cache')
  | Missing =>
      let r := finish (attempts p isNext []) in
      (Returned (fst r), snd r, cache')
  end.

End ContentScript.

(* ================================================================= *)
(** ** Abbreviations and sample data used in the statements *)

Module R := Retaining.
Module B := Background.

(** The world after one clock read. *)
Definition ticked (w : R.World) (m : JsMap.t R.TabRecord) : R.World :=
  {| R.reads := S (R.reads w); R.audibleTabsMap := m;
     R.popupPorts := R.popupPorts w;
     R.disconnectListeners := R.disconnectListeners w |}.

(** The record [upsertFromTab] stores for an audible tab. *)
Definition freshRecord (t : HostTab) (tid now : Z) : R.TabRecord :=
  {| R.id := tid; R.title := title_of t tid; R.url := url_of t;
     R.audible := true; R.muted := muted_of t; R.lastActive := now |}.

Definition freshRecordB (t : HostTab) (tid : Z) : B.TabRecord :=
  {| B.id := tid; B.title := title_of t tid; B.url := url_of t;
     B.audible := true; B.muted := muted_of t |}.

Definition tabWithoutId : HostTab :=
  {| tab_id := None; tab_title := Some "Song A"; tab_url := None;
     tab_audible := true; tab_mutedInfo := None |}.

(** A tab that stopped playing, and a legacy cache that holds it. *)
Definition silentTab7 : HostTab :=
  {| tab_id := Some 7; tab_title := Some "Song A"; tab_url := Some "u";
     tab_audible := false; tab_mutedInfo := None |}.

Definition legacyCache7 : B.Cache :=
  [(7, {| B.id := 7; B.title := "Song A"; B.url := "u";
          B.audible := true; B.muted := false |})].

Definition sampleClock (n : nat) : Z := 1000 + Z.of_nat n.

(** A retaining cache that holds tab 7, audible since time 100. *)
Definition world7 : R.World :=
  {| R.reads := 0;
     R.audibleTabsMap :=
       [(7, {| R.id := 7; R.title := "Song A"; R.url := "u";
               R.audible := true; R.muted := false; R.lastActive := 100 |})];
     R.popupPorts := []; R.disconnectListeners := [] |}.

(** What [cleanupOldTabs] leaves of a map at clock value [now]. *)
Definition evicted (now : Z) (m : JsMap.t R.TabRecord) : JsMap.t R.TabRecord :=
  filter (fun e => negb (R.isStale now (snd e))) m.

(** The tab is inside its retention window at the [j]-th clock read. *)
Definition within (clk : nat -> Z) (tab : R.TabRecord) (j : nat) : Prop :=
  clk j - R.lastActive tab < R.TAB_RETENTION_MS.

(** Tab 7 while it plays. *)
Definition loudTab7 : HostTab :=
  {| tab_id := Some 7; tab_title := Some "Song A"; tab_url := Some "u";
     tab_audible := true; tab_mutedInfo := None |}.

(** A clock that advances by 500 seconds per read. *)
Definition slowClock (n : nat) : Z := 1 + 500000 * Z.of_nat n.

(** A clock whose third read is the timer tick at the end of the
    retention window and whose later reads are 200 ms after it. *)
Definition staleClock (n : nat) : Z :=
  match n with
  | O => 100
  | S O => 200
  | S (S O) => 1800000
  | _ => 1800200
  end.

Definition popupPort1 : R.Port := {| R.port_id := 1; R.port_name := "popup" |}.

(** The record of tab 7 after [loudTab7] at time [t] and then
    [silentTab7]. *)
Definition silentRecord7 (t : Z) : R.TabRecord :=
  {| R.id := 7; R.title := "Song A"; R.url := "u"; R.audible := false;
     R.muted := false; R.lastActive := t |}.

(** The background page after tab 7 played at 100, went silent at 200,
    and the timer ran at 1800000. *)
Definition staleWorld : R.World :=
  R.exec (R.run staleClock
            [R.EUpsert (Some loudTab7); R.EUpsert (Some silentTab7);
             R.ECleanup])
         R.initial.

(** An event that is not a connection of the port with identity [p]. *)
Definition no_reconnect (p : nat) (e : R.Event) : bool :=
  match e with
  | R.EConnect port _ => negb (Nat.eqb (R.port_id port) p)
  | _ => true
  end.

(** The ports an output was posted to. *)
Definition targets_of (o : R.Output) : list nat :=
  match o with
  | R.OPosted posts => map fst posts
  | _ => []
  end.

Definition popupPort2 : R.Port := {| R.port_id := 2; R.port_name := "popup" |}.


Module S0 := SkipTrackJs.
Module S1 := ContentScript.

(** Some selector of the list has a visible match on the page. *)
Definition has_visible_match (p : Dom.Page) (selectors : list string) : Prop :=
  exists selector e,
    In selector selectors
    /\ In e (Dom.querySelectorAll p selector)
    /\ Dom.isVisible e = true.

(** [e] is the element the first loop clicks: the first visible match of
    the first selector, in list order, that has a visible match. *)
Definition first_visible_match (p : Dom.Page) (selectors : list string)
           (e : Dom.Element) : Prop :=
  exists before selector after,
    selectors = before ++ selector :: after
    /\ (forall s, In s before ->
          forall x, In x (Dom.querySelectorAll p s) -> Dom.isVisible x = false)
    /\ find Dom.isVisible (Dom.querySelectorAll p selector) = Some e.

(** A button hidden by [display: none], and a visible one. *)
Definition hiddenButton : Dom.Element :=
  {| Dom.el_id := 1; Dom.display := "none"; Dom.visibility := "visible";
     Dom.opacity := "1"; Dom.offsetWidth := 32; Dom.offsetHeight := 32;
     Dom.el_nextTrack := false; Dom.el_previousTrack := false;
     Dom.audioTracks_length := None |}.

Definition visibleButton : Dom.Element :=
  {| Dom.el_id := 2; Dom.display := "block"; Dom.visibility := "visible";
     Dom.opacity := "1"; Dom.offsetWidth := 32; Dom.offsetHeight := 32;
     Dom.el_nextTrack := false; Dom.el_previousTrack := false;
     Dom.audioTracks_length := None |}.

(** A page on which [selector] matches the elements [els] and on which
    nothing else is available. *)
Definition pageWith (selector : string) (els : list Dom.Element)
           (dispatch_ok : Dom.Target -> bool) : Dom.Page :=
  {| Dom.querySelectorAll :=
       fun s => if (s =? selector)%string then els else [];
     Dom.mediaSession := None;
     Dom.videojs_getPlayers := None;
     Dom.window_global := fun _ => None;
     Dom.keyboardEvent_ok := true;
     Dom.target_dispatch_ok := dispatch_ok |}.

(** A page with a visible YouTube previous button. *)
Definition prevButtonPage : Dom.Page :=
  pageWith ".ytp-prev-button" [visibleButton] (fun _ => true).

(** A page with nothing to click on which only the focused element takes
    the key event. *)
Definition onlyActiveElementPage : Dom.Page :=
  pageWith ".next" []
    (fun t => match t with Dom.TActiveElement => true | _ => false end).

(** A page on which nothing works. *)
Definition deadPage : Dom.Page := pageWith ".next" [] (fun _ => false).

(** The three dispatches of the keyboard block. *)
Definition keyDispatches (isNext : bool) : list Dom.Effect :=
  let key := if isNext then "MediaTrackNext" else "MediaTrackPrevious" in
  [Dom.KeyDispatch Dom.TDocument key; Dom.KeyDispatch Dom.TWindow key;
   Dom.KeyDispatch Dom.TActiveElement key].

(** The selector list the content script ends up iterating. *)
Definition selectors_for (direction : string) (selectors : list string) : Prop :=
  S1.commonButtonSelectors direction = S1.Own selectors
  \/ (S1.commonButtonSelectors direction = S1.Missing /\ selectors = []).

(* ================================================================= *)
(** ** src/unnamed/part_002: the remaining listeners of the cache *)

Module Listeners.
Import Retaining.
Local Open Scope bg_scope.

(** The [changeInfo] argument of [tabs.onUpdated]: each property is
    present ([Some]) or [undefined] ([None]). *)
Record ChangeInfo := {
  ch_audible : option bool;
  ch_title : option string;
  ch_url : option string;
  ch_mutedInfo : option MutedInfo
}.

Definition defined {A} (x : option A) : bool :=
  match x with Some _ => true | None => false end.

(** The three conditional assignments to the cached entry. *)
Definition applyMetadata (changeInfo : ChangeInfo) (tab : HostTab)
           (entry : TabRecord) : TabRecord :=
  {| id := id entry;
     title := if defined (ch_title changeInfo)
              then Js.or_string (tab_title tab) (title entry)
              else title entry;
     url := if defined (ch_url changeInfo)
            then Js.or_string (tab_url tab) (url entry)
            else url entry;
     audible := audible entry;
     muted := if defined (ch_mutedInfo changeInfo)
              then muted_of tab
              else muted entry;
     lastActive := lastActive entry |}.

(** [JSON.stringify(a) === JSON.stringify(b)] for two states of one
    cached entry: the serialisations list the same six properties in
    the same order, so they are equal when the six values are. *)
Definition sameJson (a b : TabRecord) : bool :=
  (id a =? id b) && (title a =? title b)%string && (url a =? url b)%string
  && Bool.eqb (audible a) (audible b) && Bool.eqb (muted a) (muted b)
  && (lastActive a =? lastActive b).

(** [v !== false] *)
Definition notFalse (v : Js.Value) : bool :=
  match v with Js.VFalse => false | Js.VString _ => true end.

Section Clock.

Variable clk : nat -> Z.

(** The [tabs.onUpdated] listener. *)
Definition onUpdated (tabId : Z) (changeInfo : ChangeInfo) (tab : HostTab)
           (post_ok : nat -> bool) : M (list (nat * Message)) :=
  changed <-
    (if defined (ch_audible changeInfo) then
       v <- upsertFromTab clk (Some tab) ;;
       ret (notFalse v)
     else
       m <- getTabs ;;
       if JsMap.has tabId m then
         match JsMap.get tabId m with
         | Some entry =>
             let after := applyMetadata changeInfo tab entry in
             putTabs (JsMap.set tabId after m) ;;
             ret (negb (sameJson entry after))
         | None => ret false
         end
       else ret false) ;;
  if changed then
    updateIconForMediaTabs clk ;;
    pushUpdateToPopup post_ok
  else ret [].

(** The [tabs.onRemoved] listener. *)
Definition onRemoved (tabId : Z) (post_ok : nat -> bool)
  : M (list (nat * Message)) :=
  existed <- removeTab tabId ;;
  if existed then
    updateIconForMediaTabs clk ;;
    pushUpdateToPopup post_ok
  else ret [].

(** The start of the [toggle_play_pause] command: stamp the cached
    entry, if there is one. *)
Definition stampBeforeToggle (tabId : Z) : M unit :=
  m <- getTabs ;;
  match JsMap.get tabId m with
  | Some tab =>
      now <- Date_now clk ;;
      putTabs
        (JsMap.set tabId
           {| id := id tab; title := title tab; url := url tab;
              audible := audible tab; muted := muted tab;
              lastActive := now |}
           m)
  | None => ret tt
  end.

(** Its [then] callback, with [isPlaying] the value the page script
    returned. *)
Definition reflectPlayState (tabId : Z) (isPlaying : bool)
           (post_ok : nat -> bool) : M (list (nat * Message)) :=
  m <- getTabs ;;
  match JsMap.get tabId m with
  | Some tab =>
      now <- Date_now clk ;;
      putTabs
        (JsMap.set tabId
           {| id := id tab; title := title tab; url := url tab;
              audible := isPlaying; muted := muted tab;
              lastActive := now |}
           m) ;;
      pushUpdateToPopup post_ok
  | None => ret []
  end.

(** The start-up listener and [init]:
    [tabs.forEach(t => upsertFromTab(t)); updateIconForMediaTabs()]. *)
Definition init (tabs : list (option HostTab)) : M (string * string) :=
  upsertAll clk tabs ;;
  updateIconForMediaTabs clk.

End Clock.

End Listeners.

Module L := Listeners.

(** The audible flag last reported for tab [tid] in a sequence of tab
    snapshots, if the tab was reported at all. *)
Fixpoint lastReport (tid : Z) (tabs : list (option HostTab)) : option bool :=
  match tabs with
  | [] => None
  | t :: rest =>
      match lastReport tid rest with
      | Some a => Some a
      | None =>
          match t with
          | Some tab =>
              match tab_id tab with
              | Some k => if k =? tid then Some (tab_audible tab) else None
              | None => None
              end
          | None => None
          end
      end
  end.

(** Every cached record carries a [lastActive] that some earlier clock
    read returned. *)
Definition stamped (clk : nat -> Z) (w : R.World) : Prop :=
  Forall (fun e => exists j, (j < R.reads w)%nat
                             /\ R.lastActive (snd e) = clk j)
         (R.audibleTabsMap w).

(** [l] is [l'] with some elements left out, order kept. *)
Inductive Subseq {A : Type} : list A -> list A -> Prop :=
| Subseq_nil : Subseq [] []
| Subseq_skip x l l' : Subseq l l' -> Subseq l (x :: l')
| Subseq_keep x l l' : Subseq l l' -> Subseq (x :: l) (x :: l').

(** A connection that does not register port [p]: another port, or a
    port that is not named ['popup']. *)
Definition not_popup_connect (p : nat) (e : R.Event) : bool :=
  match e with
  | R.EConnect port _ =>
      negb (Nat.eqb (R.port_id port) p)
      || negb (R.port_name port =? "popup")%string
  | _ => true
  end.

(** A port that is not a popup. *)
Definition devtoolsPort1 : R.Port :=
  {| R.port_id := 1; R.port_name := "devtools" |}.

(** Tab 8, reported audible, with an empty title. *)
Definition loudTab8 : HostTab :=
  {| tab_id := Some 8; tab_title := Some ""; tab_url := Some "v";
     tab_audible := true; tab_mutedInfo := Some {| mi_muted := true |} |}.

(** A title change reported for tab 7 (the tab object carries it). *)
Definition titleChange : L.ChangeInfo :=
  {| L.ch_audible := None; L.ch_title := Some "Song B"; L.ch_url := None;
     L.ch_mutedInfo := None |}.

Definition retitledTab7 : HostTab :=
  {| tab_id := Some 7; tab_title := Some "Song B"; tab_url := Some "u";
     tab_audible := true; tab_mutedInfo := None |}.

Definition untitledTab7 : HostTab :=
  {| tab_id := Some 7; tab_title := Some ""; tab_url := Some "u";
     tab_audible := true; tab_mutedInfo := None |}.

(** [world7] with a popup connected. *)
Definition world7popup : R.World :=
  {| R.reads := 1;
     R.audibleTabsMap := R.audibleTabsMap world7;
     R.popupPorts := [1%nat]; R.disconnectListeners := [1%nat] |}.

(** A cache with an audible tab (5, old), a silent tab past its window
    (6) and a silent tab inside it (7), looked at when the clock says
    2000000. *)
Definition mixedWorld : R.World :=
  {| R.reads := 0;
     R.audibleTabsMap :=
       [(5, {| R.id := 5; R.title := "a"; R.url := "a"; R.audible := true;
               R.muted := false; R.lastActive := 1 |});
        (6, {| R.id := 6; R.title := "b"; R.url := "b"; R.audible := false;
               R.muted := false; R.lastActive := 100000 |});
        (7, silentRecord7 1500000)];
     R.popupPorts := [1%nat]; R.disconnectListeners := [1%nat] |}.

Definition lateClock (n : nat) : Z := 2000000 + Z.of_nat n.

(** What one tab snapshot reports about tab [tid], if anything. *)
Definition reportOf (tid : Z) (t : option HostTab) : option bool :=
  match t with
  | Some tab =>
      match tab_id tab with
      | Some k => if k =? tid then Some (tab_audible tab) else None
      | None => None
      end
  | None => None
  end.

(** The cached record of [tid] says [a]. *)
Definition cachedFlag (tid : Z) (a : bool) (m : JsMap.t R.TabRecord) : Prop :=
  if a then exists r, JsMap.get tid m = Some r /\ R.audible r = true
  else forall r, JsMap.get tid m = Some r -> R.audible r = false.

(* ================================================================= *)
(** ** Vocabulary for the further properties of the skip resolver *)

(** The results [skipTrack] can return for a direction. *)
Definition possibleResults (isNext : bool) : list Dom.SkipResult :=
  [Dom.Success "button-click"; Dom.Success "media-session";
   Dom.Success (if isNext then "player-api-next" else "player-api-prev");
   Dom.Success "keyboard-events"; Dom.exhausted].

Definition isKeyDispatch (e : Dom.Effect) : bool :=
  match e with Dom.KeyDispatch _ _ => true | _ => false end.

Definition isClick (e : Dom.Effect) : bool :=
  match e with Dom.Click _ => true | _ => false end.

(** The method of a player the loop looks at in a direction. *)
Definition trackMethod (isNext : bool) (pl : Dom.Player) : option bool :=
  if isNext then Dom.nextTrack pl else Dom.previousTrack pl.

(** The call the loop makes on a player in a direction. *)
Definition trackCall (isNext : bool) (pl : Dom.Player) : Dom.Effect :=
  if isNext then Dom.CallNextTrack (Dom.pl_id pl)
  else Dom.CallPreviousTrack (Dom.pl_id pl).

(** A global [window.player] that can only go back. *)
Definition backOnlyPlayer : Dom.Player :=
  {| Dom.pl_id := 1; Dom.nextTrack := None; Dom.previousTrack := Some true |}.

Definition backOnlyPage : Dom.Page :=
  {| Dom.querySelectorAll := fun _ => [];
     Dom.mediaSession := None;
     Dom.videojs_getPlayers := None;
     Dom.window_global :=
       fun name => if (name =? "player")%string then Some backOnlyPlayer
                   else None;
     Dom.keyboardEvent_ok := true;
     Dom.target_dispatch_ok := fun _ => true |}.

(** The four strategies in order, on a list of button selectors. *)
Definition fourStrategies (p : Dom.Page) (isNext : bool)
           (selectors : list string) : Dom.Attempt :=
  Dom.orElse (Dom.buttonClick p selectors)
    (Dom.orElse (Dom.mediaSessionProbe p isNext)
       (Dom.orElse (Dom.playerApiProbe p isNext)
          (Dom.keyboardProbe p isNext))).

(** A page with one audio element, and the same page with a second one
    added. *)
Definition audioElement (n : nat) : Dom.Element :=
  {| Dom.el_id := n; Dom.display := "inline"; Dom.visibility := "visible";
     Dom.opacity := "1"; Dom.offsetWidth := 300; Dom.offsetHeight := 40;
     Dom.el_nextTrack := false; Dom.el_previousTrack := false;
     Dom.audioTracks_length := None |}.

Definition oneAudioPage : Dom.Page :=
  pageWith "audio, video" [audioElement 1] (fun _ => true).

Definition twoAudioPage : Dom.Page :=
  pageWith "audio, video" [audioElement 1; audioElement 2] (fun _ => true).

(* ================================================================= *)
(** ** The play/pause scripts run in the page *)

Module PlayPause.

(** A media element as the scripts read it: [progress] is the test
    [media.currentTime > 0]. *)
Record Media := {
  media_id : nat;
  paused : bool;
  progress : bool
}.

Inductive Call :=
| Pause (media : Media)
| Play (media : Media).

(** The [forEach] callback of the script in src/unnamed/part_002, lines
    181-201: the flag [foundPlaying] and the calls made so far. *)
Definition toggleOne (acc : bool * list Call) (media : Media)
  : bool * list Call :=
  if negb (paused media) then (true, snd acc ++ [Pause media])
  else if progress media then (true, snd acc ++ [Play media])
  else acc.

Record Answer := { success : bool; isPlaying : bool }.

(** That script: the object it returns and the calls it makes. *)
Definition toggleScript (mediaElements : list Media) : Answer * list Call :=
  let r := fold_left toggleOne mediaElements (false, []) in
  match fst r, mediaElements with
  | false, first :: _ =>
      ({| success := true; isPlaying := negb true |}, snd r ++ [Play first])
  | foundPlaying, _ =>
      ({| success := true; isPlaying := negb foundPlaying |}, snd r)
  end.

(** The [forEach] callback of the older script (src/background.js, lines
    161-173): resuming does not set [foundPlaying]. *)
Definition toggleOneOld (acc : bool * list Call) (media : Media)
  : bool * list Call :=
  if negb (paused media) then (true, snd acc ++ [Pause media])
  else if progress media then (fst acc, snd acc ++ [Play media])
  else acc.

(** The older script: the string it returns and the calls it makes. *)
Definition toggleScriptOld (mediaElements : list Media) : string * list Call :=
  let r := fold_left toggleOneOld mediaElements (false, []) in
  (if fst r then "paused" else "playing", snd r).

(** The [then] callback of the older command handler, given the array
    of results of [executeScript] ([None] for a falsy value). *)
Definition answerOld (results : option (list string)) : Answer + string :=
  match results with
  | Some (newState :: _) =>
      inl {| success := true; isPlaying := (newState =? "playing")%string |}
  | _ => inr "No media elements found"
  end.

End PlayPause.

Module PP := PlayPause.

(* ================================================================= *)
(** ** src/unnamed/part_001, lines 260-400: the scanning background
    script *)

Module Scanner.

Record MediaInfo := {
  hasMedia : bool;
  isPlaying : bool;
  isPaused : bool;
  mediaCount : Z
}.

(** [{...tab, mediaInfo}] *)
Record MediaTab := { tab : HostTab; mediaInfo : MediaInfo }.

Definition SCAN_COOLDOWN : Z := 10000.
Definition batchSize : nat := 5.

(** The module-level variables. *)
Record ScanState := {
  globalMediaTabs : list MediaTab;
  lastScanTime : Z
}.

Definition initialState : ScanState :=
  {| globalMediaTabs := []; lastScanTime := 0 |}.

(** How the race between [executeScript] and the 5 s timer ends for a
    tab: a rejection (an error or the timeout), or the array of results
    ([None] for a falsy value). *)
Inductive Probe :=
| Rejected
| Results (results : option (list MediaInfo)).

(** The [filter] callback that keeps the http and https tabs. *)
Definition isWebTab (t : HostTab) : bool :=
  match tab_url t with
  | Some u =>
      if (u =? "")%string then false
      else String.prefix "http://" u || String.prefix "https://" u
  | None => false
  end.

Definition audibleFallback : MediaInfo :=
  {| hasMedia := true; isPlaying := true; isPaused := false; mediaCount := 1 |}.

(** The value one promise of a batch is fulfilled with ([None] for
    [null]). *)
Definition checkTab (probe : HostTab -> Probe) (t : HostTab) : option MediaTab :=
  if tab_audible t then Some {| tab := t; mediaInfo := audibleFallback |}
  else
    match probe t with
    | Results (Some (first :: _)) =>
        if hasMedia first then Some {| tab := t; mediaInfo := first |}
        else None
    | Results _ => None
    | Rejected =>
        if tab_audible t
        then Some {| tab := t; mediaInfo := audibleFallback |}
        else None
    end.

(** [validResults] of one batch. *)
Definition validResults (probe : HostTab -> Probe) (batch : list HostTab)
  : list MediaTab :=
  flat_map (fun t => match checkTab probe t with
                     | Some v => [v]
                     | None => []
                     end) batch.

(** The [for] loop over the batches, from index [i]; [fuel] bounds the
    number of iterations. *)
Fixpoint scanFrom (fuel : nat) (probe : HostTab -> Probe)
         (webTabs : list HostTab) (i : nat) (mediaTabs : list MediaTab)
  : list MediaTab :=
  match fuel with
  | O => mediaTabs
  | S fuel' =>
      if (i <? List.length webTabs)%nat then
        let batch := firstn batchSize (skipn i webTabs) in
        scanFrom fuel' probe webTabs (i + batchSize)
                 (mediaTabs ++ validResults probe batch)
      else mediaTabs
  end.

(** [getAllMediaTabs], run without another call in between: [now] and
    [later] are the two clock values it reads, [query] is the answer of
    [tabs.query] ([None] when it rejects). *)
Definition getAllMediaTabs (now later : Z) (query : option (list HostTab))
           (probe : HostTab -> Probe) (st : ScanState)
  : list MediaTab * ScanState :=
  if (0 <? List.length (globalMediaTabs st))%nat
     && (now - lastScanTime st <? SCAN_COOLDOWN)
  then (globalMediaTabs st, st)
  else
    match query with
    | None => ([], st)
    | Some allTabs =>
        let webTabs := filter isWebTab allTabs in
        let mediaTabs :=
          scanFrom (List.length webTabs) probe webTabs 0 [] in
        (mediaTabs, {| globalMediaTabs := mediaTabs; lastScanTime := later |})
    end.

(** [updateIconForMediaTabs] of the scanning script: the icon path and
    the title it sets, and the state [getAllMediaTabs] leaves. *)
Definition updateIconForMediaTabs (now later : Z)
           (query : option (list HostTab)) (probe : HostTab -> Probe)
           (st : ScanState) : (string * string) * ScanState :=
  let r := getAllMediaTabs now later query probe st in
  let mediaTabs := fst r in
  let playingTabs := filter (fun t => isPlaying (mediaInfo t)) mediaTabs in
  (if (0 <? List.length playingTabs)%nat then
     ("icons/icon-sound-on-48.png",
      (Js.string_of_Z (Z.of_nat (List.length playingTabs))
       ++ " tab(s) playing sound")%string)
   else if (0 <? List.length mediaTabs)%nat then
     ("icons/icon-sound-off-48.png",
      (Js.string_of_Z (Z.of_nat (List.length mediaTabs))
       ++ " tab(s) with media (paused)")%string)
   else ("icons/icon-sound-off-48.png", "No tabs with media"),
   snd r).

End Scanner.

Module Sc := Scanner.

(** A privileged page that plays sound, and seven web tabs of which the
    last is audible. *)
Definition aboutTab : HostTab :=
  {| tab_id := Some 100; tab_title := Some "about"; tab_url := Some "about:blank";
     tab_audible := true; tab_mutedInfo := None |}.

Definition webTab (n : Z) (a : bool) : HostTab :=
  {| tab_id := Some n; tab_title := Some "t"; tab_url := Some "https://x";
     tab_audible := a; tab_mutedInfo := None |}.

Definition sevenTabs : list HostTab :=
  [webTab 1 false; aboutTab; webTab 2 false; webTab 3 false; webTab 4 false;
   webTab 5 false; webTab 6 false; webTab 7 true].

(** A probe that always times out. *)
Definition deadProbe (t : HostTab) : Sc.Probe := Sc.Rejected.

(** A tab whose probe found a paused element, and the cache of a scan
    that found only that tab at time 60. *)
Definition pausedInfo : Sc.MediaInfo :=
  {| Sc.hasMedia := true; Sc.isPlaying := false; Sc.isPaused := true;
     Sc.mediaCount := 1 |}.

Definition pausedCache : Sc.ScanState :=
  {| Sc.globalMediaTabs :=
       [{| Sc.tab := webTab 3 false; Sc.mediaInfo := pausedInfo |}];
     Sc.lastScanTime := 60 |}.

(* ================================================================= *)
(** ** src/unnamed/part_002, lines 385-406: the [toggle_mute] command *)

(** [!(tab.mutedInfo && tab.mutedInfo.muted)] *)
Definition newMuteState (tab : HostTab) : bool := negb (muted_of tab).

(** A clock that stands still. *)
Definition stillClock (n : nat) : Z := 2000000.

(* ================================================================= *)
(** ** A visible element, in the words of the specification *)

(** A rendered size that is not zero (the two sizes are never
    negative) and a computed style that is not [display: none],
    [visibility: hidden] or [opacity: 0]. *)
Definition rendered_visible (e : Dom.Element) : Prop :=
  0 < Dom.offsetWidth e /\ 0 < Dom.offsetHeight e
  /\ Dom.display e <> "none"
  /\ Dom.visibility e <> "hidden"
  /\ Dom.opacity e <> "0".

(** [e] is the first visible match in selector-priority order: no
    selector before [selector] matches a visible element, and among the
    matches of [selector], in document order, [e] is the first visible
    one. *)
Definition first_rendered_match (p : Dom.Page) (selectors : list string)
           (e : Dom.Element) : Prop :=
  exists before selector after hidden rest,
    selectors = before ++ selector :: after
    /\ (forall s x, In s before -> In x (Dom.querySelectorAll p s) ->
                    ~ rendered_visible x)
    /\ Dom.querySelectorAll p selector = hidden ++ e :: rest
    /\ (forall x, In x hidden -> ~ rendered_visible x)
    /\ rendered_visible e.

(** A button that is laid out but transparent, and a page on which the
    first selector of the list matches only a hidden and a transparent
    element while a later selector matches a visible one after a
    zero-sized one. *)
Definition transparentButton : Dom.Element :=
  {| Dom.el_id := 3; Dom.display := "block"; Dom.visibility := "visible";
     Dom.opacity := "0"; Dom.offsetWidth := 32; Dom.offsetHeight := 32;
     Dom.el_nextTrack := false; Dom.el_previousTrack := false;
     Dom.audioTracks_length := None |}.

Definition collapsedButton : Dom.Element :=
  {| Dom.el_id := 4; Dom.display := "block"; Dom.visibility := "visible";
     Dom.opacity := "1"; Dom.offsetWidth := 0; Dom.offsetHeight := 32;
     Dom.el_nextTrack := false; Dom.el_previousTrack := false;
     Dom.audioTracks_length := None |}.

Definition layeredPage : Dom.Page :=
  {| Dom.querySelectorAll :=
       fun s => if (s =? ".ytp-next-button")%string
                then [hiddenButton; transparentButton]
                else if (s =? ".next")%string
                then [collapsedButton; visibleButton; audioElement 9]
                else [];
     Dom.mediaSession := None;
     Dom.videojs_getPlayers := None;
     Dom.window_global := fun _ => None;
     Dom.keyboardEvent_ok := true;
     Dom.target_dispatch_ok := fun _ => true |}.

(* ================================================================= *)
(** ** Samples for the popup channel *)



(* ================================================================= *)
(** ** src/unnamed/part_002, every handler: the background page as a
    whole

    [Retaining] above holds the cache functions on the records that
    [upsertFromTab] builds.  The [skip_track] handler (lines 261-265)
    can store an object that has a [title] and a [url] and nothing
    else, and the later handlers then add properties to it.  Here the
    cached objects are modelled with every property optional, and every
    listener, timer and command handler of the file is an event. *)

Module Whole.

(** An object of [audibleTabsMap]; [None] is a property that is
    missing or [undefined]. *)
Record Entry := {
  id : option Z;
  title : option string;
  url : option string;
  audible : option bool;
  muted : option bool;
  lastActive : option Z
}.

(** The [isPlaying] property of a pushed tab: not set (the message of
    [onConnect]), or the value of [tab.audible]. *)
Inductive IsPlaying :=
| NoKey
| Key (v : option bool).

Record PushedTab := { pushed : Entry; isPlaying : IsPlaying }.

Record Message := { command : string; tabs : list PushedTab }.

(** An entry of the answer to [get_media_tabs]. *)
Record MediaTabData := {
  d_id : option Z; d_title : option string; d_url : option string;
  d_audible : bool; d_muted : option bool;
  d_isPlaying : bool; d_isPaused : bool; d_mediaCount : Z
}.

(** What the page does that can be seen from outside, in order: a call
    of [getAudibleTabs] with the number of clock reads made before and
    after it and its result, a [postMessage] (whether it throws or
    not), the icon and title set, the answer to [get_media_tabs]. *)
Inductive Obs :=
| Snapshot (before after : nat) (l : list Entry)
| Posted (port : nat) (msg : Message)
| Icon (path title : string)
| Answered (tabsData : list MediaTabData).

Record World := {
  reads : nat;
  audibleTabsMap : JsMap.t Entry;
  popupPorts : list nat;
  disconnectListeners : list nat
}.

Definition initial : World :=
  {| reads := 0; audibleTabsMap := JsMap.empty;
     popupPorts := []; disconnectListeners := [] |}.

(** *** State and output monad *)

Definition M (A : Type) : Type := World -> A * World * list Obs.

Definition value {A} (r : A * World * list Obs) : A := fst (fst r).
Definition state {A} (r : A * World * list Obs) : World := snd (fst r).
Definition trace {A} (r : A * World * list Obs) : list Obs := snd r.

Definition ret {A} (a : A) : M A := fun w => (a, w, []).

Definition bind {A B} (c : M A) (k : A -> M B) : M B :=
  fun w =>
    let r1 := c w in
    let r2 := k (value r1) (state r1) in
    (value r2, state r2, trace r1 ++ trace r2).

Declare Scope page_scope.
Delimit Scope page_scope with page.
Notation "x <- c ;; k" := (bind c (fun x => k))
  (at level 61, c at next level, right associativity) : page_scope.
Notation "c ;; k" := (bind c (fun _ => k))
  (at level 61, right associativity) : page_scope.
Local Open Scope page_scope.

Definition emit (o : Obs) : M unit := fun w => (tt, w, [o]).

Definition emitAll (os : list Obs) : M unit := fun w => (tt, w, os).

Definition getReads : M nat := fun w => (reads w, w, []).

Definition getTabs : M (JsMap.t Entry) := fun w => (audibleTabsMap w, w, []).

Definition putTabs (m : JsMap.t Entry) : M unit :=
  fun w => (tt, {| reads := reads w; audibleTabsMap := m;
                   popupPorts := popupPorts w;
                   disconnectListeners := disconnectListeners w |}, []).

Definition getPorts : M (list nat) := fun w => (popupPorts w, w, []).

Definition putPorts (ps : list nat) : M unit :=
  fun w => (tt, {| reads := reads w; audibleTabsMap := audibleTabsMap w;
                   popupPorts := ps;
                   disconnectListeners := disconnectListeners w |}, []).

Definition addDisconnectListener (p : nat) : M unit :=
  fun w => (tt, {| reads := reads w; audibleTabsMap := audibleTabsMap w;
                   popupPorts := popupPorts w;
                   disconnectListeners := p :: disconnectListeners w |}, []).

(** [if (b)] on a property that holds a boolean or is missing. *)
Definition truthy (b : option bool) : bool :=
  match b with Some true => true | _ => false end.

(** [a || b] on two possibly missing strings. *)
Definition or_opt (a b : option string) : option string :=
  match a with
  | Some s => if (s =? "")%string then b else Some s
  | None => b
  end.

(** The not-audible branch of [upsertFromTab] on the cached object:
    [audible = false; lastActive = lastActive || now]. *)
Definition markInactive (now : Z) (existingTab : Entry) : Entry :=
  {| id := id existingTab;
     title := title existingTab;
     url := url existingTab;
     audible := Some false;
     muted := muted existingTab;
     lastActive :=
       match lastActive existingTab with
       | Some t => if t =? 0 then Some now else Some t
       | None => Some now
       end |}.

(** The object [upsertFromTab] stores for an audible tab. *)
Definition freshEntry (tab : HostTab) (tid now : Z) : Entry :=
  {| id := Some tid;
     title := Some (title_of tab tid);
     url := Some (url_of tab);
     audible := Some true;
     muted := Some (muted_of tab);
     lastActive := Some now |}.

(** [tab.lastActive = now] *)
Definition setLastActive (now : Z) (tab : Entry) : Entry :=
  {| id := id tab; title := title tab; url := url tab;
     audible := audible tab; muted := muted tab;
     lastActive := Some now |}.

(** [tab.audible = isPlaying] *)
Definition setAudible (isPlaying : bool) (tab : Entry) : Entry :=
  {| id := id tab; title := title tab; url := url tab;
     audible := Some isPlaying; muted := muted tab;
     lastActive := lastActive tab |}.

(** [tabEntry.muted = isMuted] *)
Definition setMuted (isMuted : bool) (tabEntry : Entry) : Entry :=
  {| id := id tabEntry; title := title tabEntry; url := url tabEntry;
     audible := audible tabEntry; muted := Some isMuted;
     lastActive := lastActive tabEntry |}.

(** [{...(existing || {}), title: newTitle, url: newUrl}] *)
Definition withTitle (existing : option Entry) (newTitle newUrl : option string)
  : Entry :=
  match existing with
  | Some e =>
      {| id := id e; title := newTitle; url := newUrl;
         audible := audible e; muted := muted e;
         lastActive := lastActive e |}
  | None =>
      {| id := None; title := newTitle; url := newUrl;
         audible := None; muted := None; lastActive := None |}
  end.

Section Clock.

Variable clk : nat -> Z.

(** [Date.now()] *)
Definition Date_now : M Z :=
  fun w => (clk (reads w),
            {| reads := S (reads w); audibleTabsMap := audibleTabsMap w;
               popupPorts := popupPorts w;
               disconnectListeners := disconnectListeners w |}, []).

(** The test of [cleanupOldTabs] on one entry; with [lastActive]
    missing the difference is [NaN] and [>=] is false. *)
Definition isStale (now : Z) (tab : Entry) : bool :=
  negb (truthy (audible tab))
  && match lastActive tab with
     | Some t => R.TAB_RETENTION_MS <=? now - t
     | None => false
     end.

Definition cleanupOldTabs : M unit :=
  now <- Date_now ;;
  m <- getTabs ;;
  putTabs
    (fold_left
       (fun acc e => if isStale now (snd e) then JsMap.delete (fst e) acc
                     else acc)
       (JsMap.entries m) m).

(** The [filter] callback of [getAudibleTabs]; [||] reads the clock
    only when [tab.audible] is falsy, and [NaN < n] is false. *)
Definition keepTab (tab : Entry) : M bool :=
  if truthy (audible tab) then ret true
  else now <- Date_now ;;
       ret (match lastActive tab with
            | Some t => now - t <? R.TAB_RETENTION_MS
            | None => false
            end).

Fixpoint filterTabs (l : list Entry) : M (list Entry) :=
  match l with
  | [] => ret []
  | tab :: rest =>
      keep <- keepTab tab ;;
      rest' <- filterTabs rest ;;
      ret (if keep then tab :: rest' else rest')
  end.

Definition getAudibleTabs : M (list Entry) :=
  before <- getReads ;;
  cleanupOldTabs ;;
  m <- getTabs ;;
  l <- filterTabs (JsMap.values m) ;;
  after <- getReads ;;
  emit (Snapshot before after l) ;;
  ret l.

Definition upsertFromTab (tab : option HostTab) : M Js.Value :=
  match tab with
  | None => ret Js.VFalse
  | Some tab =>
      match tab_id tab with
      | None => ret Js.VFalse
      | Some tid =>
          now <- Date_now ;;
          m <- getTabs ;;
          let was := JsMap.has tid m in
          if tab_audible tab then
            putTabs (JsMap.set tid (freshEntry tab tid now) m) ;;
            ret (Js.VString (if was then "updated" else "added"))
          else if was then
            match JsMap.get tid m with
            | Some existingTab =>
                putTabs (JsMap.set tid (markInactive now existingTab) m)
            | None => ret tt
            end ;;
            ret (Js.VString "updated")
          else
            ret Js.VFalse
      end
  end.

(** *** The popup channel *)

(** The [onConnect] listener; [post_ok = false] is a [postMessage]
    that throws, which leaves the listener before [onDisconnect] is
    registered. *)
Definition onConnect (port : R.Port) (post_ok : bool) : M unit :=
  if (R.port_name port =? "popup")%string then
    ps <- getPorts ;;
    putPorts (R.set_add (R.port_id port) ps) ;;
    m <- getTabs ;;
    emit (Posted (R.port_id port)
            {| command := "update_media_tabs";
               tabs := map (fun tab => {| pushed := tab; isPlaying := NoKey |})
                           (JsMap.values m) |}) ;;
    if post_ok then addDisconnectListener (R.port_id port) else ret tt
  else ret tt.

(** The listener registered on [port.onDisconnect]. *)
Definition onDisconnect (p : nat) : M unit :=
  fun w =>
    if existsb (Nat.eqb p) (disconnectListeners w)
    then putPorts (R.set_delete p (popupPorts w)) w
    else (tt, w, []).

(** [pushUpdateToPopup]; [post_ok p = false] is a [postMessage] on
    port [p] that throws. *)
Definition pushUpdateToPopup (post_ok : nat -> bool) : M unit :=
  ps <- getPorts ;;
  if (List.length ps =? 0)%nat then ret tt
  else
    m <- getTabs ;;
    let message :=
      {| command := "update_media_tabs";
         tabs := map (fun tab => {| pushed := tab;
                                    isPlaying := Key (audible tab) |})
                     (JsMap.values m) |} in
    emitAll (map (fun port => Posted port message) ps) ;;
    putPorts
      (fold_left
         (fun acc port => if post_ok port then acc
                          else R.set_delete port acc)
         ps ps).

Definition updateIconForMediaTabs : M unit :=
  l <- getAudibleTabs ;;
  let count := Z.of_nat (List.length l) in
  if count >? 0
  then emit (Icon "icons/icon-sound-on-48.png"
                  (Js.string_of_Z count ++ " tab(s) playing sound")%string)
  else emit (Icon "icons/icon-sound-off-48.png" "No tabs with media").

(** *** The listeners *)

(** [tabs.forEach(t => upsertFromTab(t))] *)
Fixpoint upsertAll (tabs : list (option HostTab)) : M unit :=
  match tabs with
  | [] => ret tt
  | t :: rest => upsertFromTab t ;; upsertAll rest
  end.

(** The [runtime.onStartup] listener and [init], given the answer of
    [tabs.query]. *)
Definition onStartup (tabs : list (option HostTab)) : M unit :=
  upsertAll tabs ;;
  updateIconForMediaTabs.

(** The [tabs.onCreated] listener. *)
Definition onCreated (tab : option HostTab) (post_ok : nat -> bool) : M unit :=
  changed <- upsertFromTab tab ;;
  if Js.truthy changed then
    updateIconForMediaTabs ;;
    pushUpdateToPopup post_ok
  else ret tt.

(** The three conditional assignments of [tabs.onUpdated] to the
    cached object. *)
Definition applyMetadata (changeInfo : L.ChangeInfo) (tab : HostTab)
           (entry : Entry) : Entry :=
  {| id := id entry;
     title := if L.defined (L.ch_title changeInfo)
              then or_opt (tab_title tab) (title entry)
              else title entry;
     url := if L.defined (L.ch_url changeInfo)
            then or_opt (tab_url tab) (url entry)
            else url entry;
     audible := audible entry;
     muted := if L.defined (L.ch_mutedInfo changeInfo)
              then Some (muted_of tab)
              else muted entry;
     lastActive := lastActive entry |}.

Definition same {A} (eqb : A -> A -> bool) (a b : option A) : bool :=
  match a, b with
  | Some x, Some y => eqb x y
  | None, None => true
  | _, _ => false
  end.

(** [JSON.stringify(a) === JSON.stringify(b)] for two states of one
    cached object: a property that is missing or [undefined] is left
    out of the serialisation, and the others come in the same order. *)
Definition sameJson (a b : Entry) : bool :=
  same Z.eqb (id a) (id b)
  && same String.eqb (title a) (title b)
  && same String.eqb (url a) (url b)
  && same Bool.eqb (audible a) (audible b)
  && same Bool.eqb (muted a) (muted b)
  && same Z.eqb (lastActive a) (lastActive b).

(** The [else if] block of [tabs.onUpdated]; the value is
    [before !== after]. *)
Definition reflectMetadata (tabId : Z) (changeInfo : L.ChangeInfo)
           (tab : HostTab) : M bool :=
  m <- getTabs ;;
  match JsMap.get tabId m with
  | Some entry =>
      let after := applyMetadata changeInfo tab entry in
      putTabs (JsMap.set tabId after m) ;;
      ret (negb (sameJson entry after))
  | None => ret false
  end.

(** The [tabs.onUpdated] listener. *)
Definition onUpdated (tabId : Z) (changeInfo : L.ChangeInfo) (tab : HostTab)
           (post_ok : nat -> bool) : M unit :=
  changed <-
    (if L.defined (L.ch_audible changeInfo) then
       v <- upsertFromTab (Some tab) ;;
       ret (L.notFalse v)
     else reflectMetadata tabId changeInfo tab) ;;
  if changed then
    updateIconForMediaTabs ;;
    pushUpdateToPopup post_ok
  else ret tt.

(** [audibleTabsMap.delete(tabId)] *)
Definition removeTab (tabId : Z) : M bool :=
  m <- getTabs ;;
  putTabs (JsMap.delete tabId m) ;;
  ret (JsMap.has tabId m).

(** The [tabs.onRemoved] listener. *)
Definition onRemoved (tabId : Z) (post_ok : nat -> bool) : M unit :=
  existed <- removeTab tabId ;;
  if existed then
    updateIconForMediaTabs ;;
    pushUpdateToPopup post_ok
  else ret tt.

(** *** The command handlers *)

(** The start of [toggle_play_pause]: stamp the cached object, if
    there is one. *)
Definition stampBeforeToggle (tabId : Z) : M unit :=
  m <- getTabs ;;
  match JsMap.get tabId m with
  | Some tab =>
      now <- Date_now ;;
      putTabs (JsMap.set tabId (setLastActive now tab) m)
  | None => ret tt
  end.

(** Its [then] callback, with [isPlaying] the value the page script
    returned. *)
Definition reflectPlayState (tabId : Z) (isPlaying : bool)
           (post_ok : nat -> bool) : M unit :=
  m <- getTabs ;;
  match JsMap.get tabId m with
  | Some tab =>
      now <- Date_now ;;
      putTabs (JsMap.set tabId (setLastActive now (setAudible isPlaying tab)) m) ;;
      pushUpdateToPopup post_ok
  | None => ret tt
  end.

(** [skip_track], after a skip that succeeded and [tabs.get] has
    answered with [tab]: [if (tab) upsertFromTab(tab)]. *)
Definition upsertAfterSkip (tab : option HostTab) : M unit :=
  match tab with
  | Some t => upsertFromTab (Some t) ;; ret tt
  | None => ret tt
  end.

(** Then, after the second [tabs.get] has answered with a tab of id
    [tabId], title [newTitle] and url [newUrl]:
    [audibleTabsMap.set(id, {...(audibleTabsMap.get(id) || {}), title, url})]
    and the push. *)
Definition storeTitleAfterSkip (tabId : Z) (newTitle newUrl : option string)
           (post_ok : nat -> bool) : M unit :=
  m <- getTabs ;;
  putTabs (JsMap.set tabId (withTitle (JsMap.get tabId m) newTitle newUrl) m) ;;
  pushUpdateToPopup post_ok.

(** [get_media_tabs] *)
Definition get_media_tabs : M unit :=
  l <- getAudibleTabs ;;
  emit (Answered
          (map (fun tab =>
                  {| d_id := id tab; d_title := title tab; d_url := url tab;
                     d_audible := true; d_muted := muted tab;
                     d_isPlaying := true; d_isPaused := false;
                     d_mediaCount := 1 |}) l)).

(** The last [then] callback of [toggle_mute]. *)
Definition reflectMute (tabId : Z) (isMuted : bool) (post_ok : nat -> bool)
  : M unit :=
  m <- getTabs ;;
  match JsMap.get tabId m with
  | Some tabEntry =>
      putTabs (JsMap.set tabId (setMuted isMuted tabEntry) m) ;;
      pushUpdateToPopup post_ok
  | None => ret tt
  end.

(** *** Runs of the background page *)

(** One run of a listener, of the timer or of a callback of a command
    handler.  The handlers of [toggle_play_pause] and of [skip_track]
    run in two parts, between which other events can come. *)
Inductive Event :=
| EConnect (port : R.Port) (post_ok : bool)
| EDisconnect (p : nat)
| ETimer
| EStartup (tabs : list (option HostTab))
| EWindowCreated
| ECreated (tab : option HostTab) (post_ok : nat -> bool)
| EUpdated (tabId : Z) (changeInfo : L.ChangeInfo) (tab : HostTab)
           (post_ok : nat -> bool)
| ERemoved (tabId : Z) (post_ok : nat -> bool)
| ETogglePlayPause (tabId : Z)
| EToggled (tabId : Z) (isPlaying : bool) (post_ok : nat -> bool)
| ESkipped (tab : option HostTab)
| ESkippedTitle (tabId : Z) (newTitle newUrl : option string)
                (post_ok : nat -> bool)
| EGetMediaTabs
| EMuted (tabId : Z) (isMuted : bool) (post_ok : nat -> bool).

Definition step (e : Event) : M unit :=
  match e with
  | EConnect port ok => onConnect port ok
  | EDisconnect p => onDisconnect p
  | ETimer => cleanupOldTabs
  | EStartup tabs => onStartup tabs
  | EWindowCreated => updateIconForMediaTabs
  | ECreated tab ok => onCreated tab ok
  | EUpdated tabId changeInfo tab ok => onUpdated tabId changeInfo tab ok
  | ERemoved tabId ok => onRemoved tabId ok
  | ETogglePlayPause tabId => stampBeforeToggle tabId
  | EToggled tabId isPlaying ok => reflectPlayState tabId isPlaying ok
  | ESkipped tab => upsertAfterSkip tab
  | ESkippedTitle tabId newTitle newUrl ok =>
      storeTitleAfterSkip tabId newTitle newUrl ok
  | EGetMediaTabs => get_media_tabs
  | EMuted tabId isMuted ok => reflectMute tabId isMuted ok
  end.

Fixpoint run (es : list Event) : M unit :=
  match es with
  | [] => ret tt
  | e :: es' => step e ;; run es'
  end.

End Clock.

(** A tab snapshot that reports tab [tid] audible. *)
Definition reports_audible (tid : Z) (tab : option HostTab) : bool :=
  match tab with
  | Some t =>
      match tab_id t with
      | Some k => (k =? tid) && tab_audible t
      | None => false
      end
  | None => false
  end.

(** A tab snapshot that reports tab [tid] not audible. *)
Definition reports_silent (tid : Z) (tab : option HostTab) : bool :=
  match tab with
  | Some t =>
      match tab_id t with
      | Some k => (k =? tid) && negb (tab_audible t)
      | None => false
      end
  | None => false
  end.

(** An event that passes to [upsertFromTab] a snapshot of tab [tid]
    that is not audible, and no snapshot of it that is. *)
Definition silences (tid : Z) (e : Event) : bool :=
  match e with
  | EStartup tabs =>
      forallb (fun t => negb (reports_audible tid t)) tabs
      && existsb (reports_silent tid) tabs
  | ECreated tab _ => reports_silent tid tab
  | EUpdated _ changeInfo tab _ =>
      L.defined (L.ch_audible changeInfo) && reports_silent tid (Some tab)
  | ESkipped tab => reports_silent tid tab
  | _ => false
  end.

(** An event all of whose tab snapshots passed to [upsertFromTab] are
    accepted by [okTab], and whose tab, if it closes one or belongs to
    a [toggle_play_pause] command, is accepted by [okKey]. *)
Definition allowed (okTab : option HostTab -> bool) (okKey : Z -> bool)
           (e : Event) : bool :=
  match e with
  | EStartup tabs => forallb okTab tabs
  | ECreated tab _ => okTab tab
  | EUpdated _ changeInfo tab _ =>
      negb (L.defined (L.ch_audible changeInfo)) || okTab (Some tab)
  | ESkipped tab => okTab tab
  | ERemoved k _ => okKey k
  | ETogglePlayPause k => okKey k
  | EToggled k _ _ => okKey k
  | _ => true
  end.

(** An event that neither reports tab [tid] audible, nor closes it,
    nor belongs to a [toggle_play_pause] command for it. *)
Definition quiet (tid : Z) (e : Event) : bool :=
  allowed (fun tab => negb (reports_audible tid tab))
          (fun k => negb (k =? tid)) e.

(** The world after one clock read, with the cache [m]. *)
Definition ticked (w : World) (m : JsMap.t Entry) : World :=
  {| reads := S (reads w); audibleTabsMap := m;
     popupPorts := popupPorts w;
     disconnectListeners := disconnectListeners w |}.

(** What [cleanupOldTabs] leaves of a map at clock value [now]. *)
Definition evicted (now : Z) (m : JsMap.t Entry) : JsMap.t Entry :=
  filter (fun e => negb (isStale now (snd e))) m.

(** Keys are distinct, and an object that has an [id] is stored under
    it. *)
Definition wf (m : JsMap.t Entry) : Prop :=
  NoDup (JsMap.keys m)
  /\ Forall (fun e => forall k, id (snd e) = Some k -> k = fst e) m.

(** Every [lastActive] in the cache is a value that one of the first
    [n] clock reads returned. *)
Definition stamped (clk : nat -> Z) (n : nat) (m : JsMap.t Entry) : Prop :=
  Forall (fun e => forall t, lastActive (snd e) = Some t ->
                             exists j, (j < n)%nat /\ t = clk j) m.

(** The two together: what holds of the cache after any run. *)
Definition sound (clk : nat -> Z) (n : nat) (m : JsMap.t Entry) : Prop :=
  wf m /\ stamped clk n m.

(** A property of the calls of [getAudibleTabs], as a property of an
    observation. *)
Definition snapshots (Qs : nat -> nat -> list Entry -> Prop) (o : Obs)
  : Prop :=
  match o with
  | Snapshot before after l => Qs before after l
  | _ => True
  end.

(** The property [Inv] of the number of clock reads and of the cache
    holds of a state. *)
Definition holds (Inv : nat -> JsMap.t Entry -> Prop) (w : World) : Prop :=
  Inv (reads w) (audibleTabsMap w).

(** From a state in [P], the computation ends in a state in [P'] and
    every call of [getAudibleTabs] it makes satisfies [Qs]. *)
Definition triple {A} (Qs : nat -> nat -> list Entry -> Prop)
           (P : World -> Prop) (c : M A) (P' : World -> Prop) : Prop :=
  forall w, P w -> P' (state (c w)) /\ Forall (snapshots Qs) (trace (c w)).

(** The state of tab [tid] once it went silent with
    [lastActive = la]: its object is cached, not audible and stamped
    [la]; or some clock read was already [TAB_RETENTION_MS] past [la]
    and what is cached under [tid], if anything, has no [id]. *)
Definition retained (clk : nat -> Z) (tid la : Z) (n : nat)
           (m : JsMap.t Entry) : Prop :=
  (exists e, JsMap.get tid m = Some e
             /\ id e = Some tid /\ audible e = Some false
             /\ lastActive e = Some la)
  \/ ((exists j, (j < n)%nat /\ R.TAB_RETENTION_MS <= clk j - la)
      /\ forall e, JsMap.get tid m = Some e -> id e = None).

(** What is asked of a call of [getAudibleTabs] about that tab: its
    object is listed when the last clock value the call read is inside
    the window, and no object with its id is listed when the first one
    is outside. *)
Definition listed (clk : nat -> Z) (tid la : Z) (before after : nat)
           (l : list Entry) : Prop :=
  (clk (pred after) - la < R.TAB_RETENTION_MS ->
   exists x, In x l /\ id x = Some tid /\ audible x = Some false
             /\ lastActive x = Some la)
  /\ (R.TAB_RETENTION_MS <= clk before - la ->
      forall x, In x l -> id x <> Some tid).

End Whole.

Module W := Whole.

(* ================================================================= *)
(** ** Sample runs of the whole page *)

(** The change reported when a tab stops playing. *)
Definition wentSilent : L.ChangeInfo :=
  {| L.ch_audible := Some false; L.ch_title := None; L.ch_url := None;
     L.ch_mutedInfo := None |}.

(** The cached object of tab 7 once it went silent, stamped [t]. *)
Definition silentEntry7 (t : Z) : W.Entry :=
  {| W.id := Some 7; W.title := Some "Song A"; W.url := Some "u";
     W.audible := Some false; W.muted := Some false;
     W.lastActive := Some t |}.

(** A clock that advances by 400 seconds per read. *)
Definition stepClock (n : nat) : Z := 1 + 400000 * Z.of_nat n.

(** Tab 7 is created playing; it goes silent; tab 9 is skipped while
    it is not cached and then muted; the popup asks for the tabs. *)
Definition playingRun : list W.Event :=
  [W.ECreated (Some loudTab7) (fun _ => true)].

Definition silentRun : list W.Event :=
  [W.ESkippedTitle 9 (Some "Other") (Some "o") (fun _ => true);
   W.EMuted 9 true (fun _ => true);
   W.EGetMediaTabs].

(** A clock for a play/pause command sent long after the tab went
    silent: the tab plays at 100 and is silent at 200, the command is
    received at 1000000 and answered at 1000500, and the popup asks
    for the tabs at 1900000. *)
Definition toggleClock (n : nat) : Z :=
  match n with
  | 0%nat => 100
  | 1%nat => 150
  | 2%nat => 200
  | 3%nat => 250
  | 4%nat => 300
  | 5%nat => 1000000
  | 6%nat => 1000500
  | 7%nat => 1900000
  | _ => 1900004
  end.

Definition toggleRun : list W.Event :=
  [W.ECreated (Some loudTab7) (fun _ => true);
   W.EUpdated 7 wentSilent silentTab7 (fun _ => true);
   W.ETogglePlayPause 7;
   W.EToggled 7 false (fun _ => true);
   W.EGetMediaTabs].

(* ================================================================= *)
(** ** The records of [Retaining] among the objects of [Whole] *)

(** A record built by [upsertFromTab], as a cached object with all its
    properties set. *)
Definition fullEntry (r : R.TabRecord) : W.Entry :=
  {| W.id := Some (R.id r); W.title := Some (R.title r);
     W.url := Some (R.url r); W.audible := Some (R.audible r);
     W.muted := Some (R.muted r); W.lastActive := Some (R.lastActive r) |}.

Definition fullCache (m : JsMap.t R.TabRecord) : JsMap.t W.Entry :=
  map (fun e => (fst e, fullEntry (snd e))) m.

Definition fullWorld (w : R.World) : W.World :=
  {| W.reads := R.reads w;
     W.audibleTabsMap := fullCache (R.audibleTabsMap w);
     W.popupPorts := R.popupPorts w;
     W.disconnectListeners := R.disconnectListeners w |}.

(** The same tab, closed while it is retained. *)
Definition closeRun : list W.Event :=
  [W.ECreated (Some loudTab7) (fun _ => true);
   W.EUpdated 7 wentSilent silentTab7 (fun _ => true);
   W.ERemoved 7 (fun _ => true);
   W.EGetMediaTabs].
(* ================================================================= *)
(** * Properties *)

(** ** Facts about [JsMap] *)

Section JsMapFacts.

Context {V : Type}.
Implicit Types (m : JsMap.t V) (k : Z) (v : V).

Lemma has_true_iff k m : JsMap.has k m = true <-> In k (JsMap.keys m).
Proof.
  unfold JsMap.has. induction m as [|[k' v'] m IH]; simpl.
  - split; [discriminate | tauto].
  - destruct (Z.eqb_spec k' k) as [->|Hne].
    + split; auto.
    + rewrite IH. split; [auto | intros [H|H]; [congruence | exact H]].
Qed.

Lemma has_false_iff k m : JsMap.has k m = false <-> ~ In k (JsMap.keys m).
Proof.
  rewrite <- has_true_iff. destruct (JsMap.has k m); split;
    congruence || (intros H; exfalso; apply H; reflexivity) || auto.
Qed.

Lemma get_set_same k v m : JsMap.get k (JsMap.set k v m) = Some v.
Proof.
  induction m as [|[k' v'] m IH]; simpl.
  - now rewrite Z.eqb_refl.
  - destruct (Z.eqb_spec k' k) as [->|Hne]; simpl.
    + now rewrite Z.eqb_refl.
    + destruct (Z.eqb_spec k' k); [contradiction | exact IH].
Qed.

Lemma get_set_other k k' v m :
  k <> k' -> JsMap.get k' (JsMap.set k v m) = JsMap.get k' m.
Proof.
  intros Hne. induction m as [|[k0 v0] m IH]; simpl.
  - destruct (Z.eqb_spec k k'); [contradiction | reflexivity].
  - destruct (Z.eqb_spec k0 k) as [->|Hk]; simpl.
    + destruct (Z.eqb_spec k k'); [contradiction | reflexivity].
    + destruct (Z.eqb_spec k0 k'); [reflexivity | exact IH].
Qed.

Lemma keys_set_present k v m :
  JsMap.has k m = true -> JsMap.keys (JsMap.set k v m) = JsMap.keys m.
Proof.
  unfold JsMap.has. induction m as [|[k' v'] m IH]; simpl.
  - discriminate.
  - destruct (Z.eqb_spec k' k) as [->|Hne]; simpl; intros H.
    + reflexivity.
    + f_equal. exact (IH H).
Qed.

Lemma keys_set_absent k v m :
  JsMap.has k m = false -> JsMap.keys (JsMap.set k v m) = JsMap.keys m ++ [k].
Proof.
  unfold JsMap.has. induction m as [|[k' v'] m IH]; simpl.
  - reflexivity.
  - destruct (Z.eqb_spec k' k) as [->|Hne]; simpl; intros H.
    + discriminate.
    + f_equal. exact (IH H).
Qed.

Lemma NoDup_keys_set k v m :
  NoDup (JsMap.keys m) -> NoDup (JsMap.keys (JsMap.set k v m)).
Proof.
  intros Hnd. destruct (JsMap.has k m) eqn:Hhas.
  - now rewrite keys_set_present.
  - rewrite keys_set_absent by exact Hhas.
    apply NoDup_app; [exact Hnd | repeat constructor; simpl; tauto |].
    intros a Ha [<-|[]]. now apply has_false_iff in Hhas.
Qed.

Lemma delete_as_filter k m :
  NoDup (JsMap.keys m) ->
  JsMap.delete k m = filter (fun e => negb (fst e =? k)) m.
Proof.
  induction m as [|[k' v'] m IH]; simpl; intros Hnd; [reflexivity |].
  inversion Hnd as [|? ? Hnotin Hnd']; subst.
  destruct (Z.eqb_spec k' k) as [->|Hne]; simpl.
  - symmetry. apply forallb_filter_id. apply forallb_forall.
    intros [k1 v1] Hin. simpl. destruct (Z.eqb_spec k1 k) as [->|]; [|reflexivity].
    exfalso. apply Hnotin. change k with (fst (k, v1)). now apply in_map.
  - f_equal. exact (IH Hnd').
Qed.

Lemma NoDup_keys_filter (f : Z * V -> bool) m :
  NoDup (JsMap.keys m) -> NoDup (JsMap.keys (filter f m)).
Proof.
  induction m as [|e m IH]; simpl; intros Hnd; [constructor |].
  inversion Hnd as [|? ? Hnotin Hnd']; subst.
  destruct (f e); simpl; [|exact (IH Hnd')].
  constructor; [|exact (IH Hnd')].
  intros Hin. apply Hnotin. unfold JsMap.keys in *.
  apply in_map_iff in Hin. destruct Hin as [e' [He' Hin']].
  apply filter_In in Hin'. rewrite <- He'. now apply in_map.
Qed.

Lemma NoDup_keys_delete k m :
  NoDup (JsMap.keys m) -> NoDup (JsMap.keys (JsMap.delete k m)).
Proof.
  intros Hnd. rewrite delete_as_filter by exact Hnd.
  now apply NoDup_keys_filter.
Qed.

Lemma get_in k v m : JsMap.get k m = Some v -> In (k, v) m.
Proof.
  induction m as [|[k' v'] m IH]; simpl; [discriminate |].
  destruct (Z.eqb_spec k' k) as [->|Hne].
  - intros [= ->]. now left.
  - intros H. right. exact (IH H).
Qed.

Lemma in_get k v m :
  NoDup (JsMap.keys m) -> In (k, v) m -> JsMap.get k m = Some v.
Proof.
  induction m as [|[k' v'] m IH]; simpl; intros Hnd; [tauto |].
  inversion Hnd as [|? ? Hnotin Hnd']; subst.
  intros [[= -> ->]|Hin].
  - now rewrite Z.eqb_refl.
  - destruct (Z.eqb_spec k' k) as [->|Hne]; [|exact (IH Hnd' Hin)].
    exfalso. apply Hnotin. change k with (fst (k, v)). now apply in_map.
Qed.

Lemma get_filter_none (f : Z * V -> bool) k m :
  JsMap.get k m = None -> JsMap.get k (filter f m) = None.
Proof.
  induction m as [|[k' v'] m IH]; simpl; [reflexivity |].
  destruct (Z.eqb_spec k' k) as [->|Hne]; [discriminate |].
  intros H. destruct (f (k', v')); simpl; [|exact (IH H)].
  destruct (Z.eqb_spec k' k); [contradiction | exact (IH H)].
Qed.

Lemma get_delete_other k k' m :
  k <> k' -> JsMap.get k' (JsMap.delete k m) = JsMap.get k' m.
Proof.
  intros Hne. induction m as [|[k0 v0] m IH]; simpl; [reflexivity |].
  destruct (Z.eqb_spec k0 k) as [->|Hk]; simpl.
  - destruct (Z.eqb_spec k k'); [contradiction | reflexivity].
  - destruct (Z.eqb_spec k0 k'); [reflexivity | exact IH].
Qed.

End JsMapFacts.

(* ================================================================= *)
(** ** The audible-tab cache: [upsertFromTab] *)

Lemma upsert_unfold (clk : nat -> Z) (w : R.World) (t : HostTab) (tid : Z) :
  tab_id t = Some tid ->
  R.upsertFromTab clk (Some t) w =
  let now := clk (R.reads w) in
  let m := R.audibleTabsMap w in
  if tab_audible t then
    (Js.VString (if JsMap.has tid m then "updated" else "added"),
     ticked w (JsMap.set tid (freshRecord t tid now) m))
  else
    match JsMap.get tid m with
    | Some existingTab =>
        (Js.VString "updated",
         ticked w (JsMap.set tid (R.markInactive now existingTab) m))
    | None => (Js.VFalse, ticked w m)
    end.
Proof.
  intros Hid. unfold R.upsertFromTab. rewrite Hid.
  unfold R.bind, R.Date_now, R.getTabs, R.putTabs, R.ret, ticked,
    freshRecord, JsMap.has; simpl.
  destruct (tab_audible t); [reflexivity |].
  destruct (JsMap.get tid (R.audibleTabsMap w)); reflexivity.
Qed.

Lemma upsertB_unfold (m : B.Cache) (t : HostTab) (tid : Z) :
  tab_id t = Some tid ->
  B.upsertFromTab (Some t) m =
  if tab_audible t then
    (Js.VString (if JsMap.has tid m then "updated" else "added"),
     JsMap.set tid (freshRecordB t tid) m)
  else if JsMap.has tid m then (Js.VString "removed", JsMap.delete tid m)
  else (Js.VFalse, m).
Proof. intros Hid. unfold B.upsertFromTab. now rewrite Hid. Qed.

(** C10.  A call of [upsertFromTab] with a [null]/[undefined] tab, or with
    a tab whose id is [null]/[undefined], returns [false] and changes
    nothing: in the retaining script the whole state is left as it was
    (the clock is not even read), and in src/background.js the map is
    returned as it was. *)
Theorem upsert_nullish_is_noop
  (clk : nat -> Z) (w : R.World) (m : B.Cache) (tab : option HostTab) :
  (tab = None \/ exists t, tab = Some t /\ tab_id t = None) ->
  R.upsertFromTab clk tab w = (Js.VFalse, w)
  /\ B.upsertFromTab tab m = (Js.VFalse, m).
Proof.
  intros [->|[t [-> Hid]]]; simpl.
  - split; reflexivity.
  - rewrite Hid. split; reflexivity.
Qed.

Lemma upsert_nullish_is_noop_witness :
  (Some tabWithoutId = None
   \/ exists t, Some tabWithoutId = Some t /\ tab_id t = None)
  /\ R.upsertFromTab (fun n => Z.of_nat n) (Some tabWithoutId) R.initial
     = (Js.VFalse, R.initial)
  /\ B.upsertFromTab (Some tabWithoutId) JsMap.empty
     = (Js.VFalse, JsMap.empty).
Proof.
  assert (H : Some tabWithoutId = None
              \/ exists t, Some tabWithoutId = Some t /\ tab_id t = None).
  { right. exists tabWithoutId. split; reflexivity. }
  split; [exact H |].
  exact (upsert_nullish_is_noop (fun n => Z.of_nat n) R.initial JsMap.empty
           (Some tabWithoutId) H).
Defined.

(** C1, counterexample.  In src/background.js a not-audible snapshot of
    a cached tab does not keep the record with its flag cleared and
    answer ['updated']: the record is deleted and ['removed'] is
    returned. *)
Lemma upsert_silent_legacy_removes :
  JsMap.has 7 legacyCache7 = true
  /\ ~ (fst (B.upsertFromTab (Some silentTab7) legacyCache7)
          = Js.VString "updated"
        /\ JsMap.has 7 (snd (B.upsertFromTab (Some silentTab7) legacyCache7))
          = true)
  /\ B.upsertFromTab (Some silentTab7) legacyCache7
     = (Js.VString "removed", JsMap.empty).
Proof.
  split; [reflexivity |]. split; [|reflexivity].
  intros [H _]. vm_compute in H. discriminate H.
Qed.

(** C1 (amended).  For a tab snapshot with id [tid]:
    - in the retaining script, an audible tab stores a record with the
      current metadata and [lastActive] set to the clock value just read,
      in place when the id is cached (['updated']) and appended otherwise
      (['added']); a not-audible tab whose id is cached keeps the record
      in place with [audible] cleared (and [lastActive] kept unless it is
      0) and answers ['updated']; a not-audible tab whose id is not cached
      leaves the map as it is and answers [false];
    - in src/background.js the audible case is the same without
      [lastActive]; a not-audible tab whose id is cached has its record
      deleted and the answer is ['removed']; otherwise the map is left as
      it is and the answer is [false].
    No other key is touched. *)
Theorem upsert_cases
  (clk : nat -> Z) (w : R.World) (m0 : B.Cache) (t : HostTab) (tid : Z) :
  tab_id t = Some tid ->
  let now := clk (R.reads w) in
  let m := R.audibleTabsMap w in
  let v := R.eval (R.upsertFromTab clk (Some t)) w in
  let m' := R.audibleTabsMap (R.exec (R.upsertFromTab clk (Some t)) w) in
  let u := fst (B.upsertFromTab (Some t) m0) in
  let m0' := snd (B.upsertFromTab (Some t) m0) in
  (* the retaining script *)
  (tab_audible t = true ->
     v = Js.VString (if JsMap.has tid m then "updated" else "added")
     /\ JsMap.get tid m' = Some (freshRecord t tid now)
     /\ JsMap.keys m'
        = (if JsMap.has tid m then JsMap.keys m else JsMap.keys m ++ [tid]))
  /\ (tab_audible t = false ->
      forall existingTab, JsMap.get tid m = Some existingTab ->
        v = Js.VString "updated"
        /\ JsMap.get tid m' = Some (R.markInactive now existingTab)
        /\ R.audible (R.markInactive now existingTab) = false
        /\ JsMap.keys m' = JsMap.keys m)
  /\ (tab_audible t = false -> JsMap.get tid m = None ->
      v = Js.VFalse /\ m' = m)
  /\ (forall k, k <> tid -> JsMap.get k m' = JsMap.get k m)
  (* src/background.js *)
  /\ (tab_audible t = true ->
      u = Js.VString (if JsMap.has tid m0 then "updated" else "added")
      /\ JsMap.get tid m0' = Some (freshRecordB t tid))
  /\ (tab_audible t = false -> JsMap.has tid m0 = true ->
      u = Js.VString "removed" /\ m0' = JsMap.delete tid m0)
  /\ (tab_audible t = false -> JsMap.has tid m0 = false ->
      u = Js.VFalse /\ m0' = m0)
  /\ (forall k, k <> tid -> JsMap.get k m0' = JsMap.get k m0).
Proof.
  intros Hid now m v m' u m0'.
  subst v m' u m0'. unfold R.eval, R.exec.
  rewrite (upsert_unfold clk w t tid Hid), (upsertB_unfold m0 t tid Hid).
  fold now m. cbv zeta.
  assert (Hother : forall k, k <> tid ->
            JsMap.get k
              (R.audibleTabsMap
                 (snd (if tab_audible t
                       then (Js.VString (if JsMap.has tid m then "updated"
                                         else "added"),
                             ticked w (JsMap.set tid (freshRecord t tid now) m))
                       else match JsMap.get tid m with
                            | Some existingTab =>
                                (Js.VString "updated",
                                 ticked w (JsMap.set tid
                                   (R.markInactive now existingTab) m))
                            | None => (Js.VFalse, ticked w m)
                            end)))
            = JsMap.get k m).
  { intros k Hk. destruct (tab_audible t); simpl.
    - now apply get_set_other.
    - destruct (JsMap.get tid m); simpl;
        [now apply get_set_other | reflexivity]. }
  assert (HotherB : forall k, k <> tid ->
            JsMap.get k
              (snd (if tab_audible t
                    then (Js.VString (if JsMap.has tid m0 then "updated"
                                      else "added"),
                          JsMap.set tid (freshRecordB t tid) m0)
                    else if JsMap.has tid m0
                         then (Js.VString "removed", JsMap.delete tid m0)
                         else (Js.VFalse, m0)))
            = JsMap.get k m0).
  { intros k Hk. destruct (tab_audible t); simpl.
    - now apply get_set_other.
    - destruct (JsMap.has tid m0); simpl;
        [now apply get_delete_other | reflexivity]. }
  split; [intros Ha; rewrite Ha; simpl; split; [reflexivity |]; split |].
  { apply get_set_same. }
  { destruct (JsMap.has tid m) eqn:Hhas;
      [now apply keys_set_present | now apply keys_set_absent]. }
  split.
  { intros Ha existingTab Hget. rewrite Ha, Hget. simpl.
    split; [reflexivity |]. split; [apply get_set_same |].
    split; [reflexivity |].
    apply keys_set_present. unfold JsMap.has. now rewrite Hget. }
  split.
  { intros Ha Hget. rewrite Ha, Hget. split; reflexivity. }
  split; [exact Hother |].
  split.
  { intros Ha. rewrite Ha. simpl. split; [reflexivity | apply get_set_same]. }
  split.
  { intros Ha Hhas. rewrite Ha, Hhas. split; reflexivity. }
  split; [|exact HotherB].
  intros Ha Hhas. rewrite Ha, Hhas. split; reflexivity.
Qed.

Lemma upsert_cases_witness :
  tab_id silentTab7 = Some 7
  /\ R.eval (R.upsertFromTab sampleClock (Some silentTab7)) world7
     = Js.VString "updated"
  /\ JsMap.get 7
       (R.audibleTabsMap
          (R.exec (R.upsertFromTab sampleClock (Some silentTab7)) world7))
     = Some {| R.id := 7; R.title := "Song A"; R.url := "u";
               R.audible := false; R.muted := false; R.lastActive := 100 |}.
Proof.
  split; [reflexivity |].
  destruct (upsert_cases sampleClock world7 legacyCache7 silentTab7 7 eq_refl)
    as (_ & H & _).
  destruct (H eq_refl _ eq_refl) as (Hv & Hg & _).
  split; [exact Hv | exact Hg].
Defined.

(** ** At most one record per tab id *)

Section WellFormed.

Context {V : Type}.
Variable P : Z * V -> Prop.

Lemma Forall_delete k (m : JsMap.t V) :
  Forall P m -> Forall P (JsMap.delete k m).
Proof.
  intros Hm. induction Hm as [|[k' v'] m Hp Hm IH]; simpl.
  - constructor.
  - destruct (k' =? k); [exact Hm | constructor; auto].
Qed.

Lemma Forall_filter (f : Z * V -> bool) (m : JsMap.t V) :
  Forall P m -> Forall P (filter f m).
Proof.
  intros Hm. induction Hm as [|e m Hp Hm IH]; simpl.
  - constructor.
  - destruct (f e); [constructor; auto | exact IH].
Qed.

End WellFormed.

Lemma ids_are_keys (m : JsMap.t R.TabRecord) :
  Forall (fun e => R.id (snd e) = fst e) m ->
  map R.id (JsMap.values m) = JsMap.keys m.
Proof.
  induction 1 as [|[k v] m Hp Hm IH]; simpl; [reflexivity |].
  simpl in Hp. now rewrite Hp, IH.
Qed.

Lemma ids_are_keysB (m : B.Cache) :
  Forall (fun e => B.id (snd e) = fst e) m ->
  map B.id (JsMap.values m) = JsMap.keys m.
Proof.
  induction 1 as [|[k v] m Hp Hm IH]; simpl; [reflexivity |].
  simpl in Hp. now rewrite Hp, IH.
Qed.

Lemma wf_get_id (m : JsMap.t R.TabRecord) k r :
  R.wf m -> JsMap.get k m = Some r -> R.id r = k.
Proof.
  intros [_ Hall] Hget. apply get_in in Hget.
  rewrite Forall_forall in Hall. exact (Hall _ Hget).
Qed.

Lemma wf_set (m : JsMap.t R.TabRecord) k r :
  R.wf m -> R.id r = k -> R.wf (JsMap.set k r m).
Proof.
  intros [Hnd Hall] Hid. split; [now apply NoDup_keys_set |].
  (* the stored entry sits under [k] itself *)
  clear Hnd. induction Hall as [|[k' v'] m Hp Hm IH]; simpl.
  - constructor; [exact Hid | constructor].
  - destruct (Z.eqb_spec k' k) as [->|Hne]; constructor; auto.
Qed.

Lemma wf_filter (f : Z * R.TabRecord -> bool) (m : JsMap.t R.TabRecord) :
  R.wf m -> R.wf (filter f m).
Proof.
  intros [Hnd Hall]. split;
    [now apply NoDup_keys_filter | now apply Forall_filter].
Qed.

Lemma wf_delete (m : JsMap.t R.TabRecord) k :
  R.wf m -> R.wf (JsMap.delete k m).
Proof.
  intros [Hnd Hall]. split;
    [now apply NoDup_keys_delete | now apply Forall_delete].
Qed.

Lemma wf_upsert (clk : nat -> Z) (tab : option HostTab) (w : R.World) :
  R.wf (R.audibleTabsMap w) ->
  R.wf (R.audibleTabsMap (R.exec (R.upsertFromTab clk tab) w)).
Proof.
  intros Hwf. unfold R.exec.
  destruct tab as [t|]; [|exact Hwf].
  destruct (tab_id t) as [tid|] eqn:Hid.
  - rewrite (upsert_unfold clk w t tid Hid). cbv zeta.
    destruct (tab_audible t); simpl.
    + now apply wf_set.
    + destruct (JsMap.get tid (R.audibleTabsMap w)) as [e|] eqn:Hget; simpl.
      * apply wf_set; [exact Hwf |]. simpl. exact (wf_get_id _ _ _ Hwf Hget).
      * exact Hwf.
  - simpl. rewrite Hid. exact Hwf.
Qed.

Lemma wf_upsertAll (clk : nat -> Z) (tabs : list (option HostTab)) :
  forall w, R.wf (R.audibleTabsMap w) ->
            R.wf (R.audibleTabsMap (R.exec (R.upsertAll clk tabs) w)).
Proof.
  induction tabs as [|t rest IH]; intros w Hwf; [exact Hwf |].
  unfold R.exec. simpl. unfold R.bind.
  pose proof (wf_upsert clk t w Hwf) as Hstep. unfold R.exec in Hstep.
  destruct (R.upsertFromTab clk t w) as [v w1]. simpl in Hstep.
  exact (IH w1 Hstep).
Qed.

Lemma wfB_upsert (tab : option HostTab) (m : B.Cache) :
  B.wf m -> B.wf (snd (B.upsertFromTab tab m)).
Proof.
  intros [Hnd Hall].
  destruct tab as [t|]; [|split; assumption].
  destruct (tab_id t) as [tid|] eqn:Hid.
  - rewrite (upsertB_unfold m t tid Hid).
    destruct (tab_audible t); simpl.
    + split; [now apply NoDup_keys_set |].
      clear Hnd. induction Hall as [|[k' v'] m Hp Hm IH]; simpl.
      * constructor; [reflexivity | constructor].
      * destruct (Z.eqb_spec k' tid) as [->|Hne]; constructor; auto.
    + destruct (JsMap.has tid m); simpl.
      * split; [now apply NoDup_keys_delete | now apply Forall_delete].
      * split; assumption.
  - simpl. rewrite Hid. split; assumption.
Qed.

Lemma wfB_upsertAll (tabs : list (option HostTab)) :
  forall m, B.wf m -> B.wf (B.upsertAll tabs m).
Proof.
  unfold B.upsertAll.
  induction tabs as [|t rest IH]; intros m Hwf; [exact Hwf |].
  simpl. apply IH. now apply wfB_upsert.
Qed.

(** C8.  Whatever sequence of tab snapshots is passed to [upsertFromTab]
    from the empty cache, in either background script, the ids of the
    cached records are pairwise distinct (and so are the keys they are
    stored under). *)
Theorem one_record_per_id (clk : nat -> Z) (tabs : list (option HostTab)) :
  NoDup (map R.id
           (JsMap.values
              (R.audibleTabsMap (R.exec (R.upsertAll clk tabs) R.initial))))
  /\ NoDup (map B.id (JsMap.values (B.upsertAll tabs JsMap.empty))).
Proof.
  split.
  - assert (Hwf : R.wf (R.audibleTabsMap
                          (R.exec (R.upsertAll clk tabs) R.initial))).
    { apply wf_upsertAll. split; constructor. }
    destruct Hwf as [Hnd Hall]. now rewrite ids_are_keys.
  - assert (Hwf : B.wf (B.upsertAll tabs JsMap.empty)).
    { apply wfB_upsertAll. split; constructor. }
    destruct Hwf as [Hnd Hall]. now rewrite ids_are_keysB.
Qed.

(** ** Eviction and snapshots *)

Lemma filter_filter {A} (f g : A -> bool) (l : list A) :
  filter f (filter g l) = filter (fun x => g x && f x) l.
Proof.
  induction l as [|x l IH]; simpl; [reflexivity |].
  destruct (g x); simpl; [destruct (f x) |]; now rewrite IH.
Qed.

Lemma same_key_same_entry {V} (m : JsMap.t V) (e e' : Z * V) :
  NoDup (JsMap.keys m) -> In e m -> In e' m -> fst e = fst e' -> e = e'.
Proof.
  intros Hnd He He' Hk. destruct e as [k v], e' as [k' v']. simpl in Hk. subst k'.
  pose proof (in_get k v m Hnd He) as H1.
  pose proof (in_get k v' m Hnd He') as H2.
  congruence.
Qed.

(** The loop of [cleanupOldTabs], started on a list of entries [l] while
    the map is [acc]. *)
Lemma cleanup_loop (now : Z) (l : list (Z * R.TabRecord)) :
  forall acc : JsMap.t R.TabRecord,
    NoDup (JsMap.keys acc) ->
    fold_left
      (fun acc e => if R.isStale now (snd e) then JsMap.delete (fst e) acc
                    else acc) l acc
    = filter
        (fun e => negb (existsb (fun e' => R.isStale now (snd e')
                                           && (fst e' =? fst e)) l))
        acc.
Proof.
  induction l as [|e' l IH]; intros acc Hnd; simpl.
  - symmetry. apply forallb_filter_id. now apply forallb_forall.
  - destruct (R.isStale now (snd e')) eqn:Hst; simpl.
    + rewrite IH by now apply NoDup_keys_delete.
      rewrite delete_as_filter by exact Hnd.
      rewrite filter_filter. apply filter_ext. intros e.
      rewrite negb_orb. f_equal. now rewrite Z.eqb_sym.
    + now apply IH.
Qed.

Lemma cleanup_as_filter (now : Z) (m : JsMap.t R.TabRecord) :
  NoDup (JsMap.keys m) ->
  fold_left
    (fun acc e => if R.isStale now (snd e) then JsMap.delete (fst e) acc
                  else acc) (JsMap.entries m) m
  = filter (fun e => negb (R.isStale now (snd e))) m.
Proof.
  intros Hnd. unfold JsMap.entries. rewrite cleanup_loop by exact Hnd.
  apply filter_ext_in. intros e He. f_equal.
  destruct (R.isStale now (snd e)) eqn:Hst.
  - apply existsb_exists. exists e. split; [exact He |].
    now rewrite Hst, Z.eqb_refl.
  - destruct (existsb _ m) eqn:Hex; [|reflexivity].
    apply existsb_exists in Hex. destruct Hex as [e' [He' Hc]].
    apply andb_prop in Hc. destruct Hc as [Hst' Hk].
    apply Z.eqb_eq in Hk.
    rewrite (same_key_same_entry m e' e Hnd He' He Hk) in Hst'. congruence.
Qed.

Lemma cleanup_unfold (clk : nat -> Z) (w : R.World) :
  NoDup (JsMap.keys (R.audibleTabsMap w)) ->
  R.cleanupOldTabs clk w
  = (tt, ticked w (evicted (clk (R.reads w)) (R.audibleTabsMap w))).
Proof.
  intros Hnd. unfold R.cleanupOldTabs, R.bind, R.Date_now, R.getTabs, R.putTabs.
  simpl. now rewrite cleanup_as_filter.
Qed.

Section FilterTabs.

Variable clk : nat -> Z.

Lemma filterTabs_cons (tab : R.TabRecord) (rest : list R.TabRecord) w :
  R.filterTabs clk (tab :: rest) w =
  if R.audible tab then
    (tab :: fst (R.filterTabs clk rest w), snd (R.filterTabs clk rest w))
  else
    let r := R.filterTabs clk rest (ticked w (R.audibleTabsMap w)) in
    (if clk (R.reads w) - R.lastActive tab <? R.TAB_RETENTION_MS
     then tab :: fst r else fst r, snd r).
Proof.
  simpl. unfold R.bind, R.keepTab.
  destruct (R.audible tab).
  - unfold R.ret. destruct (R.filterTabs clk rest w); reflexivity.
  - unfold R.Date_now, R.ret, R.bind, ticked. simpl.
    destruct (R.filterTabs clk rest _); reflexivity.
Qed.

(** The [filter] of [getAudibleTabs] changes nothing but the number of
    clock reads; it keeps the audible tabs, and a tab that is not
    audible according to a clock value read during the call. *)
Lemma filterTabs_spec (l : list R.TabRecord) :
  forall w,
    let l' := fst (R.filterTabs clk l w) in
    let w' := snd (R.filterTabs clk l w) in
    R.audibleTabsMap w' = R.audibleTabsMap w
    /\ R.popupPorts w' = R.popupPorts w
    /\ R.disconnectListeners w' = R.disconnectListeners w
    /\ (R.reads w <= R.reads w')%nat
    /\ (forall tab, In tab l' ->
          In tab l
          /\ (R.audible tab = true
              \/ exists j, (R.reads w <= j < R.reads w')%nat
                           /\ within clk tab j))
    /\ (forall tab, In tab l ->
          (R.audible tab = true
           \/ forall j, (R.reads w <= j < R.reads w')%nat -> within clk tab j) ->
          In tab l').
Proof.
  induction l as [|tab rest IH]; intros w.
  - simpl. repeat split; auto; intros tab [].
  - cbv zeta. rewrite filterTabs_cons.
    destruct (R.audible tab) eqn:Ha.
    + specialize (IH w). cbv zeta in IH.
      destruct (R.filterTabs clk rest w) as [rest' w1]. simpl in *.
      destruct IH as (Hm & Hp & Hd & Hle & Hsound & Hcomplete).
      split; [exact Hm |]. split; [exact Hp |]. split; [exact Hd |].
      split; [exact Hle |]. split.
      * intros x [<-|Hx].
        -- split; [now left | now left].
        -- destruct (Hsound x Hx) as [Hin Hc]. split; [now right | exact Hc].
      * intros x [<-|Hx] Hc; [now left | right; now apply Hcomplete].
    + specialize (IH (ticked w (R.audibleTabsMap w))). cbv zeta in IH.
      cbv zeta.
      destruct (R.filterTabs clk rest (ticked w (R.audibleTabsMap w)))
        as [rest' w1]. simpl in *.
      destruct IH as (Hm & Hp & Hd & Hle & Hsound & Hcomplete).
      split; [exact Hm |]. split; [exact Hp |]. split; [exact Hd |].
      split; [lia |]. split.
      * intros x Hx.
        destruct (clk (R.reads w) - R.lastActive tab <? R.TAB_RETENTION_MS)
          eqn:Hk.
        -- destruct Hx as [<-|Hx].
           ++ split; [now left |]. right. exists (R.reads w).
              split; [lia |]. apply Z.ltb_lt in Hk. exact Hk.
           ++ destruct (Hsound x Hx) as [Hin [Hax|[j [Hj Hw]]]].
              ** split; [now right | now left].
              ** split; [now right |]. right. exists j. split; [lia | exact Hw].
        -- destruct (Hsound x Hx) as [Hin [Hax|[j [Hj Hw]]]].
           ++ split; [now right | now left].
           ++ split; [now right |]. right. exists j. split; [lia | exact Hw].
      * intros x [<-|Hx] Hc.
        -- destruct Hc as [Hc|Hc]; [congruence |].
           assert (Hw : within clk tab (R.reads w)) by (apply Hc; lia).
           unfold within in Hw. apply Z.ltb_lt in Hw. rewrite Hw. now left.
        -- assert (Hin : In x rest').
           { apply Hcomplete; [exact Hx |].
             destruct Hc as [Hc|Hc]; [now left |].
             right. intros j Hj. apply Hc. lia. }
           destruct (_ <? _); [now right | exact Hin].
Qed.

End FilterTabs.

Lemma get_filter_kept {V} (f : Z * V -> bool) k v (m : JsMap.t V) :
  JsMap.get k m = Some v -> f (k, v) = true ->
  JsMap.get k (filter f m) = Some v.
Proof.
  induction m as [|[k' v'] m IH]; simpl; [discriminate |].
  destruct (Z.eqb_spec k' k) as [->|Hne].
  - intros [= ->] Hf. rewrite Hf. simpl. now rewrite Z.eqb_refl.
  - intros Hg Hf. destruct (f (k', v')); simpl; [|now apply IH].
    destruct (Z.eqb_spec k' k); [contradiction | now apply IH].
Qed.

Lemma get_filter_removed {V} (f : Z * V -> bool) k v (m : JsMap.t V) :
  NoDup (JsMap.keys m) -> JsMap.get k m = Some v -> f (k, v) = false ->
  JsMap.get k (filter f m) = None.
Proof.
  intros Hnd Hg Hf.
  destruct (JsMap.get k (filter f m)) as [v'|] eqn:Hg'; [|reflexivity].
  apply get_in in Hg'. apply filter_In in Hg'. destruct Hg' as [Hin Hf'].
  apply get_in in Hg.
  assert (Heq : (k, v') = (k, v))
    by (apply (same_key_same_entry m); auto).
  congruence.
Qed.

Lemma getAudibleTabs_unfold (clk : nat -> Z) (w : R.World) :
  NoDup (JsMap.keys (R.audibleTabsMap w)) ->
  R.getAudibleTabs clk w
  = R.filterTabs clk
      (JsMap.values (evicted (clk (R.reads w)) (R.audibleTabsMap w)))
      (ticked w (evicted (clk (R.reads w)) (R.audibleTabsMap w))).
Proof.
  intros Hnd. unfold R.getAudibleTabs, R.bind.
  rewrite cleanup_unfold by exact Hnd. reflexivity.
Qed.

(** Port events leave the cache and the clock alone. *)
Lemma port_events_frame (clk : nat -> Z) (e : R.Event) (w : R.World) :
  match e with
  | R.EConnect _ _ | R.EDisconnect _ | R.EPush _ =>
      R.audibleTabsMap (snd (R.step clk e w)) = R.audibleTabsMap w
      /\ R.reads (snd (R.step clk e w)) = R.reads w
  | _ => True
  end.
Proof.
  destruct e as [tab| | |k|port ok|p|ok]; try exact I.
  - cbv [R.step R.onConnect R.bind R.getPorts R.putPorts R.getTabs R.ret
         R.addDisconnectListener].
    destruct (R.port_name port =? "popup")%string; [|split; reflexivity].
    destruct ok; split; reflexivity.
  - cbv [R.step R.onDisconnect R.bind R.putPorts R.ret].
    destruct (existsb _ _); split; reflexivity.
  - cbv [R.step R.pushUpdateToPopup R.bind R.getPorts R.putPorts R.getTabs
         R.ret].
    destruct (List.length (R.popupPorts w) =? 0)%nat; split; reflexivity.
Qed.

Lemma wf_step (clk : nat -> Z) (e : R.Event) (w : R.World) :
  R.wf (R.audibleTabsMap w) ->
  R.wf (R.audibleTabsMap (snd (R.step clk e w))).
Proof.
  intros Hwf.
  pose proof (port_events_frame clk e w) as Hframe.
  destruct e as [tab| | |k|port ok|p|ok].
  - cbv [R.step R.bind].
    pose proof (wf_upsert clk tab w Hwf) as H. unfold R.exec in H.
    destruct (R.upsertFromTab clk tab w); exact H.
  - cbv [R.step R.bind]. rewrite cleanup_unfold by apply Hwf. simpl.
    now apply wf_filter.
  - cbv [R.step]. rewrite getAudibleTabs_unfold by apply Hwf.
    pose proof (filterTabs_spec clk
                  (JsMap.values (evicted (clk (R.reads w)) (R.audibleTabsMap w)))
                  (ticked w (evicted (clk (R.reads w)) (R.audibleTabsMap w))))
      as H. cbv zeta in H.
    destruct (R.filterTabs clk _ _) as [l w']. simpl in *.
    destruct H as (Hm & _). rewrite Hm. now apply wf_filter.
  - simpl. now apply wf_delete.
  - destruct Hframe as [Hm _]. rewrite Hm. exact Hwf.
  - destruct Hframe as [Hm _]. rewrite Hm. exact Hwf.
  - destruct Hframe as [Hm _]. rewrite Hm. exact Hwf.
Qed.

Lemma wf_run (clk : nat -> Z) (es : list R.Event) :
  forall w, R.wf (R.audibleTabsMap w) ->
            R.wf (R.audibleTabsMap (R.exec (R.run clk es) w)).
Proof.
  induction es as [|e es IH]; intros w Hwf; [exact Hwf |].
  unfold R.exec. simpl. unfold R.bind.
  pose proof (wf_step clk e w Hwf) as Hs.
  destruct (R.step clk e w) as [o w1]. simpl in Hs.
  specialize (IH w1 Hs). unfold R.exec in IH.
  destruct (R.run clk es w1) as [os w2]. exact IH.
Qed.

(** No record of a well-formed cache has the id of a key that is not
    in it. *)
Lemma no_key_no_id (tid : Z) (m : JsMap.t R.TabRecord) x :
  R.wf m -> JsMap.get tid m = None -> In x (JsMap.values m) ->
  R.id x <> tid.
Proof.
  intros [Hnd Hall] Hnone Hin Hid.
  apply in_map_iff in Hin. destruct Hin as [[k v] [Hv Hin]]. simpl in Hv.
  subst v. rewrite Forall_forall in Hall.
  pose proof (Hall _ Hin) as Hk. simpl in Hk.
  assert (Hkt : k = tid) by congruence. rewrite Hkt in Hin.
  rewrite (in_get tid x m Hnd Hin) in Hnone. discriminate.
Qed.

Lemma run_cons (clk : nat -> Z) (e : R.Event) (es : list R.Event) (w : R.World) :
  R.run clk (e :: es) w
  = (fst (R.step clk e w) :: fst (R.run clk es (snd (R.step clk e w))),
     snd (R.run clk es (snd (R.step clk e w)))).
Proof.
  simpl. unfold R.bind. destruct (R.step clk e w) as [o w1]. simpl.
  destruct (R.run clk es w1) as [os w2]. reflexivity.
Qed.

Lemma step_upsert (clk : nat -> Z) (tab : option HostTab) (w : R.World) :
  R.step clk (R.EUpsert tab) w
  = (R.OValue (fst (R.upsertFromTab clk tab w)),
     snd (R.upsertFromTab clk tab w)).
Proof.
  cbv [R.step R.bind R.ret]. destruct (R.upsertFromTab clk tab w); reflexivity.
Qed.

Lemma slowClock_mono : forall i j, (i <= j)%nat -> slowClock i <= slowClock j.
Proof. intros i j Hij. unfold slowClock. lia. Defined.

(** ** Popup ports *)

Lemma push_unfold (ok : nat -> bool) (w : R.World) :
  R.pushUpdateToPopup ok w =
  if (List.length (R.popupPorts w) =? 0)%nat then ([], w)
  else
    (map (fun port =>
            (port,
             {| R.command := "update_media_tabs";
                R.tabs := map (fun tab => {| R.pushed := tab;
                                             R.isPlaying := Some (R.audible tab) |})
                              (JsMap.values (R.audibleTabsMap w)) |}))
         (R.popupPorts w),
     {| R.reads := R.reads w; R.audibleTabsMap := R.audibleTabsMap w;
        R.popupPorts :=
          fold_left (fun acc port => if ok port then acc
                                     else R.set_delete port acc)
                    (R.popupPorts w) (R.popupPorts w);
        R.disconnectListeners := R.disconnectListeners w |}).
Proof.
  cbv [R.pushUpdateToPopup R.bind R.getPorts R.putPorts R.getTabs R.ret].
  destruct (List.length (R.popupPorts w) =? 0)%nat; reflexivity.
Qed.

(** The loop of [pushUpdateToPopup] leaves exactly the ports whose
    [postMessage] returned. *)
Lemma push_loop (ok : nat -> bool) (l : list nat) :
  forall acc,
    fold_left (fun acc port => if ok port then acc else R.set_delete port acc)
              l acc
    = filter (fun q => negb (existsb (fun p => negb (ok p) && Nat.eqb q p) l))
             acc.
Proof.
  induction l as [|p l IH]; intros acc; simpl.
  - symmetry. apply forallb_filter_id. now apply forallb_forall.
  - rewrite IH. destruct (ok p); simpl; [reflexivity |].
    unfold R.set_delete. rewrite filter_filter. apply filter_ext.
    intros q. now rewrite negb_orb.
Qed.

Lemma push_survivors (ok : nat -> bool) (ps : list nat) :
  fold_left (fun acc port => if ok port then acc else R.set_delete port acc)
            ps ps
  = filter ok ps.
Proof.
  rewrite push_loop. apply filter_ext_in. intros q Hq.
  destruct (ok q) eqn:Hok.
  - apply negb_true_iff.
    destruct (existsb _ ps) eqn:Hex; [|reflexivity].
    apply existsb_exists in Hex. destruct Hex as [p [_ Hp]].
    apply andb_prop in Hp. destruct Hp as [Hnok Heq].
    apply Nat.eqb_eq in Heq. subst p. rewrite Hok in Hnok. discriminate.
  - apply negb_false_iff. apply existsb_exists. exists q.
    split; [exact Hq |]. now rewrite Hok, Nat.eqb_refl.
Qed.

Lemma push_targets (ok : nat -> bool) (w : R.World) :
  map fst (fst (R.pushUpdateToPopup ok w)) = R.popupPorts w.
Proof.
  rewrite push_unfold.
  destruct (R.popupPorts w) as [|p ps] eqn:Hps; [reflexivity |].
  simpl. f_equal. rewrite map_map. simpl. apply map_id.
Qed.

Lemma push_ports_after (ok : nat -> bool) (w : R.World) :
  R.popupPorts (snd (R.pushUpdateToPopup ok w)) = filter ok (R.popupPorts w).
Proof.
  rewrite push_unfold.
  destruct (List.length (R.popupPorts w) =? 0)%nat eqn:Hlen; simpl.
  - apply Nat.eqb_eq in Hlen. apply length_zero_iff_nil in Hlen.
    now rewrite Hlen.
  - apply push_survivors.
Qed.

(** Cache events leave the ports and their listeners alone. *)
Lemma cache_events_frame (clk : nat -> Z) (e : R.Event) (w : R.World) :
  match e with
  | R.EUpsert _ | R.ECleanup | R.ESnapshot | R.ERemove _ =>
      R.popupPorts (snd (R.step clk e w)) = R.popupPorts w
      /\ R.disconnectListeners (snd (R.step clk e w)) = R.disconnectListeners w
      /\ targets_of (fst (R.step clk e w)) = []
  | _ => True
  end.
Proof.
  destruct e as [tab| | |k|port ok|p|ok]; try exact I.
  - rewrite step_upsert. simpl.
    destruct tab as [t|]; [|repeat split].
    destruct (tab_id t) as [tid|] eqn:Hid.
    + rewrite (upsert_unfold clk w t tid Hid). cbv zeta.
      destruct (tab_audible t); [repeat split |].
      destruct (JsMap.get tid (R.audibleTabsMap w)); repeat split.
    + simpl. rewrite Hid. repeat split.
  - cbv [R.step R.cleanupOldTabs R.bind R.Date_now R.getTabs R.putTabs R.ret].
    repeat split.
  - cbv [R.step R.getAudibleTabs R.cleanupOldTabs R.bind R.Date_now R.getTabs
         R.putTabs R.ret].
    match goal with
    | |- context [R.filterTabs clk ?l ?w0] =>
        pose proof (filterTabs_spec clk l w0) as H; cbv zeta in H;
        destruct (R.filterTabs clk l w0) as [l' w']
    end.
    simpl in *. destruct H as (_ & Hp & Hd & _). repeat split; assumption.
  - cbv [R.step R.removeTab R.bind R.getTabs R.putTabs R.ret]. repeat split.
Qed.




(** While a port stays out of [popupPorts] and does not connect again,
    nothing is posted to it. *)
Lemma absent_port_step (clk : nat -> Z) (p : nat) (e : R.Event) (w : R.World) :
  no_reconnect p e = true ->
  ~ In p (R.popupPorts w) ->
  ~ In p (R.popupPorts (snd (R.step clk e w)))
  /\ ~ In p (targets_of (fst (R.step clk e w))).
Proof.
  intros Hq Hout. pose proof (cache_events_frame clk e w) as Hframe.
  destruct e as [tab| | |k|port ok|q|ok];
    try (destruct Hframe as (Hp & _ & Ht); rewrite Hp, Ht; split;
         [exact Hout | intros []]).
  - simpl in Hq. apply negb_true_iff in Hq. apply Nat.eqb_neq in Hq.
    cbv [R.step R.onConnect R.bind R.getPorts R.putPorts R.getTabs R.ret
         R.addDisconnectListener].
    destruct (R.port_name port =? "popup")%string;
      [|split; [exact Hout | intros []]].
    assert (Hadd : ~ In p (R.set_add (R.port_id port) (R.popupPorts w))).
    { unfold R.set_add. destruct (existsb _ _); [exact Hout |].
      intros Hin. apply in_app_or in Hin.
      destruct Hin as [Hin|[Heq|[]]]; [now apply Hout | now apply Hq]. }
    destruct ok; simpl; (split; [exact Hadd | intros [Heq|[]]; now apply Hq]).
  - cbv [R.step R.onDisconnect R.bind R.putPorts R.ret].
    destruct (existsb _ _); simpl; (split; [|intros []]); [|exact Hout].
    unfold R.set_delete. intros Hin. apply filter_In in Hin. now apply Hout.
  - cbv [R.step R.bind R.ret].
    pose proof (push_targets ok w) as Ht.
    pose proof (push_ports_after ok w) as Hp.
    destruct (R.pushUpdateToPopup ok w) as [posts w1]. simpl in *.
    rewrite Ht, Hp. split; [|exact Hout].
    intros Hin. apply filter_In in Hin. now apply Hout.
Qed.





(** ** Which reads evict first *)

(** [getAudibleTabs] (and so the [get_media_tabs] command) never returns
    a record that is not audible and was outside its window at every
    clock value the call read. *)
Lemma getAudibleTabs_fresh (clk : nat -> Z) (w : R.World) (x : R.TabRecord) :
  R.wf (R.audibleTabsMap w) ->
  In x (R.eval (R.getAudibleTabs clk) w) ->
  R.audible x = true
  \/ exists j, (R.reads w < j < R.reads (R.exec (R.getAudibleTabs clk) w))%nat
               /\ within clk x j.
Proof.
  intros Hwf Hin. unfold R.eval, R.exec in *.
  rewrite getAudibleTabs_unfold in * by apply Hwf.
  pose proof (filterTabs_spec clk
                (JsMap.values (evicted (clk (R.reads w)) (R.audibleTabsMap w)))
                (ticked w (evicted (clk (R.reads w)) (R.audibleTabsMap w))))
    as H. cbv zeta in H.
  destruct (R.filterTabs clk _ _) as [l w']. simpl in *.
  destruct H as (_ & _ & _ & _ & Hsound & _).
  destruct (Hsound x Hin) as [_ [Ha|[j [Hj Hw]]]]; [now left |].
  right. exists j. split; [lia | exact Hw].
Qed.

(** The [get_media_tabs] command answers with the tabs of
    [getAudibleTabs], in the same order, each marked audible. *)
Lemma get_media_tabs_of_snapshot (clk : nat -> Z) (w : R.World) :
  map R.d_id (R.eval (R.get_media_tabs clk) w)
  = map R.id (R.eval (R.getAudibleTabs clk) w)
  /\ Forall (fun d => R.d_audible d = true) (R.eval (R.get_media_tabs clk) w)
  /\ R.exec (R.get_media_tabs clk) w = R.exec (R.getAudibleTabs clk) w.
Proof.
  unfold R.eval, R.exec, R.get_media_tabs, R.bind, R.ret.
  destruct (R.getAudibleTabs clk w) as [l w']. simpl.
  split; [now rewrite map_map |]. split; [|reflexivity].
  apply Forall_forall. intros d Hd. apply in_map_iff in Hd.
  destruct Hd as [x [<- _]]. reflexivity.
Qed.

(** The push made by the [tabs.onCreated] listener comes after the
    eviction run by [updateIconForMediaTabs]: no pushed record was stale
    at the clock value that eviction read. *)
Lemma onCreated_pushes_after_eviction
  (clk : nat -> Z) (tab : option HostTab) (ok : nat -> bool) (w : R.World)
  (port : nat) (msg : R.Message) (x : R.PushedTab) :
  R.wf (R.audibleTabsMap w) ->
  In (port, msg) (R.eval (R.onCreated clk tab ok) w) ->
  In x (R.tabs msg) ->
  R.isStale
    (clk (R.reads (R.exec (R.upsertFromTab clk tab) w))) (R.pushed x) = false.
Proof.
  intros Hwf Hin Hx. unfold R.eval, R.exec in *.
  pose proof (wf_upsert clk tab w Hwf) as Hwf1. unfold R.exec in Hwf1.
  unfold R.onCreated, R.bind in Hin.
  destruct (R.upsertFromTab clk tab w) as [changed w1]. simpl in Hwf1 |- *.
  destruct (Js.truthy changed); [|destruct Hin].
  unfold R.updateIconForMediaTabs, R.bind in Hin.
  rewrite getAudibleTabs_unfold in Hin by apply Hwf1.
  pose proof (filterTabs_spec clk
                (JsMap.values (evicted (clk (R.reads w1)) (R.audibleTabsMap w1)))
                (ticked w1 (evicted (clk (R.reads w1)) (R.audibleTabsMap w1))))
    as H. cbv zeta in H.
  destruct (R.filterTabs clk _ _) as [l w2]. simpl in H, Hin.
  destruct H as (Hm & _).
  unfold R.ret in Hin. rewrite push_unfold in Hin.
  destruct (List.length (R.popupPorts w2) =? 0)%nat; [destruct Hin |].
  simpl in Hin. apply in_map_iff in Hin. destruct Hin as [q [[= _ <-] _]].
  simpl in Hx. apply in_map_iff in Hx. destruct Hx as [r [<- Hr]]. simpl.
  rewrite Hm in Hr. simpl in Hr.
  apply in_map_iff in Hr. destruct Hr as [[k v] [<- Hr]].
  apply filter_In in Hr. destruct Hr as [_ Hfresh]. simpl in *.
  now apply negb_true_iff in Hfresh.
Qed.

(** C2, evaluated where it fails.  Tab 7 played at time 100 and went
    silent at 200; the timer ran at 1800000, when the record was still
    inside its window.  At 1800200 the record is outside the window (the
    snapshot of [getAudibleTabs] is empty), yet the message posted to a
    popup that connects then, and the message pushed to it when the tab
    is muted from that popup, both carry the record: neither path runs
    [cleanupOldTabs]. *)
Theorem connect_and_push_skip_eviction :
  R.TAB_RETENTION_MS <= staleClock (R.reads staleWorld) - 100
  /\ R.eval (R.getAudibleTabs staleClock) staleWorld = []
  /\ R.eval (R.onConnect popupPort1 true) staleWorld
     = [(1%nat, {| R.command := "update_media_tabs";
                   R.tabs := [{| R.pushed := silentRecord7 100;
                                 R.isPlaying := None |}] |})]
  /\ R.eval (R.reflectMute 7 true (fun _ => true))
            (R.exec (R.onConnect popupPort1 true) staleWorld)
     = [(1%nat, {| R.command := "update_media_tabs";
                   R.tabs := [{| R.pushed :=
                                   {| R.id := 7; R.title := "Song A";
                                      R.url := "u"; R.audible := false;
                                      R.muted := true; R.lastActive := 100 |};
                                 R.isPlaying := Some false |}] |})].
Proof.
  split; [vm_compute; discriminate |].
  split; [vm_compute; reflexivity |].
  split; vm_compute; reflexivity.
Qed.

(* ================================================================= *)
(** ** The skip resolver *)

Lemma firstVisibleButton_spec (p : Dom.Page) (selectors : list string) :
  match Dom.firstVisibleButton p selectors with
  | Some e => first_visible_match p selectors e
  | None =>
      forall s, In s selectors ->
        forall x, In x (Dom.querySelectorAll p s) -> Dom.isVisible x = false
  end.
Proof.
  induction selectors as [|sel rest IH]; simpl.
  - intros s [].
  - destruct (find Dom.isVisible (Dom.querySelectorAll p sel)) as [e|] eqn:Hf.
    + exists [], sel, rest. split; [reflexivity |]. split; [intros s [] | exact Hf].
    + destruct (Dom.firstVisibleButton p rest) as [e|].
      * destruct IH as (before & selector & after & Heq & Hnone & Hfind).
        exists (sel :: before), selector, after.
        split; [simpl; now rewrite Heq |]. split; [|exact Hfind].
        intros s [<-|Hs]; [exact (find_none _ _ Hf) | now apply Hnone].
      * intros s [<-|Hs]; [exact (find_none _ _ Hf) | now apply IH].
Qed.

Lemma visible_match_found (p : Dom.Page) (selectors : list string) :
  has_visible_match p selectors ->
  exists e, Dom.firstVisibleButton p selectors = Some e
            /\ first_visible_match p selectors e.
Proof.
  intros (sel & x & Hsel & Hx & Hvis).
  pose proof (firstVisibleButton_spec p selectors) as H.
  destruct (Dom.firstVisibleButton p selectors) as [e|].
  - exists e. split; [reflexivity | exact H].
  - rewrite (H sel Hsel x Hx) in Hvis. discriminate.
Qed.

(** When the first loop clicks nothing, neither does the second: every
    match of every selector is invisible. *)
Lemma buttonClickAgain_none (p : Dom.Page) (selectors : list string) :
  fst (Dom.buttonClick p selectors) = None ->
  Dom.buttonClick p selectors = (None, [])
  /\ S1.buttonClickAgain p selectors = (None, []).
Proof.
  unfold Dom.buttonClick, S1.buttonClickAgain.
  pose proof (firstVisibleButton_spec p selectors) as H.
  destruct (Dom.firstVisibleButton p selectors) as [e|]; [discriminate |].
  intros _. split; [reflexivity |].
  assert (Hnone : S1.firstMatchVisible p selectors = None).
  { induction selectors as [|sel rest IH]; [reflexivity |].
    simpl. unfold Dom.querySelector.
    assert (Hrest : forall s, In s rest ->
              forall x, In x (Dom.querySelectorAll p s) ->
                        Dom.isVisible x = false)
      by (intros s Hs; apply H; now right).
    pose proof (H sel (or_introl eq_refl)) as Hsel.
    destruct (Dom.querySelectorAll p sel) as [|button more]; simpl;
      [now apply IH |].
    rewrite (Hsel button (or_introl eq_refl)). now apply IH. }
  now rewrite Hnone.
Qed.

(** The [find] callback answers [true] exactly for the elements that
    are visible in the specification's sense. *)
Lemma isVisible_iff (e : Dom.Element) :
  Dom.isVisible e = true <-> rendered_visible e.
Proof.
  unfold Dom.isVisible, rendered_visible.
  rewrite !andb_true_iff, !negb_true_iff, !String.eqb_neq.
  rewrite <- !Zgt_is_gt_bool. split.
  - intros ((((Hd & Hv) & Ho) & Hw) & Hh). repeat split; (lia || assumption).
  - intros (Hw & Hh & Hd & Hv & Ho). repeat split; (lia || assumption).
Qed.

Lemma find_split {A} (f : A -> bool) (l : list A) (e : A) :
  find f l = Some e ->
  exists hidden rest,
    l = hidden ++ e :: rest
    /\ (forall x, In x hidden -> f x = false)
    /\ f e = true.
Proof.
  induction l as [|a l IH]; simpl; [discriminate |].
  destruct (f a) eqn:Ha.
  - intros [= <-]. exists [], l. split; [reflexivity |].
    split; [intros x [] | exact Ha].
  - intros Hfind. destruct (IH Hfind) as (hidden & rest & -> & Hh & He).
    exists (a :: hidden), rest. split; [reflexivity |].
    split; [|exact He]. intros x [<-|Hx]; [exact Ha | now apply Hh].
Qed.

(** What the first loop finds, said without the callback. *)
Lemma first_visible_is_rendered (p : Dom.Page) (selectors : list string)
      (e : Dom.Element) :
  first_visible_match p selectors e -> first_rendered_match p selectors e.
Proof.
  intros (before & selector & after & Hsel & Hbefore & Hfind).
  destruct (find_split _ _ _ Hfind) as (hidden & rest & Hl & Hh & He).
  exists before, selector, after, hidden, rest.
  split; [exact Hsel |]. split.
  - intros s x Hs Hx Hvis. apply isVisible_iff in Hvis.
    rewrite (Hbefore s Hs x Hx) in Hvis. discriminate.
  - split; [exact Hl |]. split; [|now apply isVisible_iff].
    intros x Hx Hvis. apply isVisible_iff in Hvis.
    rewrite (Hh x Hx) in Hvis. discriminate.
Qed.

(** C4.  When some selector of the resolver's list matches an element
    that is visible (a rendered size that is not zero, no
    [display: none], [visibility: hidden] or [opacity: 0]),
    [skipTrack] clicks the first visible match in selector-priority
    order (no earlier selector has a visible match, and no earlier
    match of the same selector is visible), does nothing else to the
    page, so that the media-session, player and keyboard strategies are
    not attempted, and returns
    [{success: true, method: 'button-click'}].  This holds for the
    injected script with the selector list of the direction, and for the
    content script whenever the direction has a selector list of its
    own. *)
Theorem visible_button_is_clicked
  (p : Dom.Page) (now : Z) (cache : S1.MediaCache) (direction : string) :
  (forall selector x,
      In selector (S0.buttonSelectors (direction =? "next")%string) ->
      In x (Dom.querySelectorAll p selector) ->
      0 < Dom.offsetWidth x -> 0 < Dom.offsetHeight x ->
      Dom.display x <> "none" -> Dom.visibility x <> "hidden" ->
      Dom.opacity x <> "0" ->
      exists e,
        first_rendered_match p
          (S0.buttonSelectors (direction =? "next")%string) e
        /\ S0.skipTrack p direction
           = (Dom.Success "button-click", [Dom.Click (Dom.el_id e)]))
  /\ (forall selectors selector x,
        S1.commonButtonSelectors direction = S1.Own selectors ->
        In selector selectors ->
        In x (Dom.querySelectorAll p selector) ->
        0 < Dom.offsetWidth x -> 0 < Dom.offsetHeight x ->
        Dom.display x <> "none" -> Dom.visibility x <> "hidden" ->
        Dom.opacity x <> "0" ->
        exists e,
          first_rendered_match p selectors e
          /\ fst (S1.skipTrack p now cache direction)
             = (S1.Returned (Dom.Success "button-click"),
                [Dom.Click (Dom.el_id e)])).
Proof.
  assert (Hfound : forall selectors selector x,
            In selector selectors ->
            In x (Dom.querySelectorAll p selector) ->
            0 < Dom.offsetWidth x -> 0 < Dom.offsetHeight x ->
            Dom.display x <> "none" -> Dom.visibility x <> "hidden" ->
            Dom.opacity x <> "0" ->
            exists e, Dom.firstVisibleButton p selectors = Some e
                      /\ first_rendered_match p selectors e).
  { intros selectors selector x Hsel Hx Hw Hh Hd Hv Ho.
    assert (Hvis : has_visible_match p selectors).
    { exists selector, x. split; [exact Hsel |]. split; [exact Hx |].
      apply isVisible_iff. unfold rendered_visible. tauto. }
    destruct (visible_match_found p _ Hvis) as (e & Hfind & Hfirst).
    exists e. split; [exact Hfind |]. now apply first_visible_is_rendered. }
  split.
  - intros selector x Hsel Hx Hw Hh Hd Hv Ho.
    destruct (Hfound _ selector x Hsel Hx Hw Hh Hd Hv Ho) as (e & Hfind & Hfirst).
    exists e. split; [exact Hfirst |].
    unfold S0.skipTrack, S0.attempts, Dom.buttonClick. now rewrite Hfind.
  - intros selectors selector x Hown Hsel Hx Hw Hh Hd Hv Ho.
    destruct (Hfound _ selector x Hsel Hx Hw Hh Hd Hv Ho) as (e & Hfind & Hfirst).
    exists e. split; [exact Hfirst |].
    unfold S1.skipTrack. rewrite Hown.
    destruct (S1.getMediaElements p now cache) as [els cache'].
    unfold S1.attempts, Dom.buttonClick. now rewrite Hfind.
Qed.

Lemma visible_button_is_clicked_witness :
  In ".next" (S0.buttonSelectors ("next" =? "next")%string)
  /\ Dom.querySelectorAll layeredPage ".ytp-next-button"
     = [hiddenButton; transparentButton]
  /\ Dom.querySelectorAll layeredPage ".next"
     = [collapsedButton; visibleButton; audioElement 9]
  /\ ~ rendered_visible hiddenButton
  /\ ~ rendered_visible transparentButton
  /\ ~ rendered_visible collapsedButton
  /\ rendered_visible visibleButton
  /\ S0.skipTrack layeredPage "next"
     = (Dom.Success "button-click", [Dom.Click 2%nat])
  /\ fst (S1.skipTrack layeredPage 0 S1.initialCache "next")
     = (S1.Returned (Dom.Success "button-click"), [Dom.Click 2%nat]).
Proof.
  assert (Hin0 : In ".next" (S0.buttonSelectors ("next" =? "next")%string))
    by (vm_compute; tauto).
  assert (Hx : In visibleButton (Dom.querySelectorAll layeredPage ".next"))
    by (vm_compute; tauto).
  assert (Hw : 0 < Dom.offsetWidth visibleButton) by reflexivity.
  assert (Hh : 0 < Dom.offsetHeight visibleButton) by reflexivity.
  assert (Hd : Dom.display visibleButton <> "none") by discriminate.
  assert (Hv : Dom.visibility visibleButton <> "hidden") by discriminate.
  assert (Ho : Dom.opacity visibleButton <> "0") by discriminate.
  destruct (visible_button_is_clicked layeredPage 0 S1.initialCache "next")
    as [H0 H1].
  destruct (H0 ".next" visibleButton Hin0 Hx Hw Hh Hd Hv Ho) as (e0 & _ & He0).
  destruct (H1 _ ".next" visibleButton eq_refl ltac:(vm_compute; tauto)
               Hx Hw Hh Hd Hv Ho) as (e1 & _ & He1).
  split; [exact Hin0 |]. split; [reflexivity |]. split; [reflexivity |].
  split; [intros (_ & _ & Hc & _); now apply Hc |].
  split; [intros (_ & _ & _ & _ & Hc); now apply Hc |].
  split; [intros (Hc & _); discriminate Hc |].
  split; [unfold rendered_visible; tauto |].
  split.
  - rewrite He0. f_equal. f_equal. f_equal.
    assert (Hc : snd (S0.skipTrack layeredPage "next") = [Dom.Click 2%nat])
      by reflexivity.
    rewrite He0 in Hc. now injection Hc.
  - rewrite He1. f_equal. f_equal. f_equal.
    assert (Hc : snd (fst (S1.skipTrack layeredPage 0 S1.initialCache "next"))
                 = [Dom.Click 2%nat]) by reflexivity.
    rewrite He1 in Hc. now injection Hc.
Defined.

(** *** Falling through the strategies *)

Lemma orElse_none (a b : Dom.Attempt) :
  fst a = None -> Dom.orElse a b = (fst b, snd a ++ snd b).
Proof. destruct a as [[r|] t]; simpl; [discriminate | reflexivity]. Qed.

Lemma keyboard_success_iff (p : Dom.Page) :
  fold_left (fun success target =>
               if Dom.target_dispatch_ok p target then true else success)
            Dom.targets false
  = existsb (Dom.target_dispatch_ok p) Dom.targets.
Proof.
  unfold Dom.targets. simpl.
  destruct (Dom.target_dispatch_ok p Dom.TDocument),
           (Dom.target_dispatch_ok p Dom.TWindow),
           (Dom.target_dispatch_ok p Dom.TActiveElement); reflexivity.
Qed.

Lemma keyboardProbe_unfold (p : Dom.Page) (isNext : bool) :
  Dom.keyboardEvent_ok p = true ->
  Dom.keyboardProbe p isNext
  = (if existsb (Dom.target_dispatch_ok p) Dom.targets
     then Some (Dom.Success "keyboard-events") else None,
     keyDispatches isNext).
Proof.
  intros Hok. unfold Dom.keyboardProbe. rewrite Hok, keyboard_success_iff.
  reflexivity.
Qed.

Lemma some_target_ok (p : Dom.Page) :
  existsb (Dom.target_dispatch_ok p) Dom.targets = true
  <-> exists t, Dom.target_dispatch_ok p t = true.
Proof.
  rewrite existsb_exists. split.
  - intros [t [_ Ht]]. now exists t.
  - intros [t Ht]. exists t. split; [|exact Ht].
    destruct t; simpl; tauto.
Qed.

(** C5.  When every strategy falls through, [skipTrack] returns
    [{success: false, error: 'No supported track skipping method found on
    this page', methodsTried: ['button-click', 'media-session',
    'player-api', 'keyboard-events']}]: in the injected script after its
    four strategies, and in the content script after the same four (its
    second button loop finds nothing the first one did not), for every
    direction whose selector list can be iterated. *)
Theorem exhausted_reports_all_methods
  (p : Dom.Page) (now : Z) (cache : S1.MediaCache) (direction : string) :
  let isNext := (direction =? "next")%string in
  let failure :=
    Dom.Failure "No supported track skipping method found on this page"
      ["button-click"; "media-session"; "player-api"; "keyboard-events"] in
  fst (Dom.mediaSessionProbe p isNext) = None ->
  fst (Dom.playerApiProbe p isNext) = None ->
  fst (Dom.keyboardProbe p isNext) = None ->
  (fst (Dom.buttonClick p (S0.buttonSelectors isNext)) = None ->
   fst (S0.skipTrack p direction) = failure)
  /\ (forall selectors,
        selectors_for direction selectors ->
        fst (Dom.buttonClick p selectors) = None ->
        fst (fst (S1.skipTrack p now cache direction)) = S1.Returned failure).
Proof.
  intros isNext failure Hms Hpl Hkb. split.
  - intros Hbc. unfold S0.skipTrack, S0.attempts. fold isNext.
    rewrite (orElse_none _ _ Hbc), (orElse_none _ _ Hms),
      (orElse_none _ _ Hpl). simpl. rewrite Hkb. reflexivity.
  - intros selectors Hsel Hbc.
    assert (Hbc2 : fst (S1.buttonClickAgain p selectors) = None)
      by (now rewrite (proj2 (buttonClickAgain_none p selectors Hbc))).
    assert (Hrun : Dom.finish (S1.attempts p isNext selectors)
                   = (failure,
                      snd (Dom.buttonClick p selectors)
                      ++ snd (Dom.mediaSessionProbe p isNext)
                      ++ snd (Dom.playerApiProbe p isNext)
                      ++ snd (S1.buttonClickAgain p selectors)
                      ++ snd (Dom.keyboardProbe p isNext))).
    { unfold S1.attempts.
      rewrite (orElse_none _ _ Hbc), (orElse_none _ _ Hms),
        (orElse_none _ _ Hpl), (orElse_none _ _ Hbc2). simpl.
      rewrite Hkb. reflexivity. }
    unfold S1.skipTrack. fold isNext.
    destruct (S1.getMediaElements p now cache) as [els cache'].
    destruct Hsel as [Hown|[Hmiss ->]].
    + rewrite Hown, Hrun. reflexivity.
    + rewrite Hmiss, Hrun. reflexivity.
Qed.

Lemma exhausted_reports_all_methods_witness :
  fst (Dom.mediaSessionProbe deadPage false) = None
  /\ fst (Dom.playerApiProbe deadPage false) = None
  /\ fst (Dom.keyboardProbe deadPage false) = None
  /\ fst (Dom.buttonClick deadPage (S0.buttonSelectors false)) = None
  /\ fst (S0.skipTrack deadPage "prev")
     = Dom.Failure "No supported track skipping method found on this page"
         ["button-click"; "media-session"; "player-api"; "keyboard-events"]
  /\ selectors_for "sideways" []
  /\ fst (fst (S1.skipTrack deadPage 0 S1.initialCache "sideways"))
     = S1.Returned
         (Dom.Failure "No supported track skipping method found on this page"
            ["button-click"; "media-session"; "player-api"; "keyboard-events"]).
Proof.
  assert (Hsel : selectors_for "sideways" []).
  { right. split; reflexivity. }
  destruct (exhausted_reports_all_methods deadPage 0 S1.initialCache "prev"
              eq_refl eq_refl eq_refl) as [H0 _].
  destruct (exhausted_reports_all_methods deadPage 0 S1.initialCache "sideways"
              eq_refl eq_refl eq_refl) as [_ H1].
  split; [reflexivity |]. split; [reflexivity |]. split; [reflexivity |].
  split; [reflexivity |]. split; [exact (H0 eq_refl) |].
  split; [exact Hsel |].
  exact (H1 [] Hsel eq_refl).
Defined.

(** C6.  Once the key event has been built, the keyboard block
    dispatches it to the document, to the window and to the focused
    element, in this order and whichever of the dispatches throw, and it
    reports [{success: true, method: 'keyboard-events'}] exactly when
    some dispatch returned.  When the earlier strategies fall through,
    this is how [skipTrack] ends in both scripts: its effects end with
    the three dispatches and its result is the keyboard success exactly
    when some dispatch returned. *)
Theorem keyboard_tries_every_target
  (p : Dom.Page) (now : Z) (cache : S1.MediaCache) (direction : string) :
  let isNext := (direction =? "next")%string in
  Dom.keyboardEvent_ok p = true ->
  fst (Dom.mediaSessionProbe p isNext) = None ->
  fst (Dom.playerApiProbe p isNext) = None ->
  (snd (Dom.keyboardProbe p isNext) = keyDispatches isNext
   /\ (fst (Dom.keyboardProbe p isNext) = Some (Dom.Success "keyboard-events")
       <-> exists t, Dom.target_dispatch_ok p t = true))
  /\ (fst (Dom.buttonClick p (S0.buttonSelectors isNext)) = None ->
      (exists earlier,
          snd (S0.skipTrack p direction) = earlier ++ keyDispatches isNext)
      /\ (fst (S0.skipTrack p direction) = Dom.Success "keyboard-events"
          <-> exists t, Dom.target_dispatch_ok p t = true))
  /\ (forall selectors,
        selectors_for direction selectors ->
        fst (Dom.buttonClick p selectors) = None ->
        (exists earlier,
            snd (fst (S1.skipTrack p now cache direction))
            = earlier ++ keyDispatches isNext)
        /\ (fst (fst (S1.skipTrack p now cache direction))
            = S1.Returned (Dom.Success "keyboard-events")
            <-> exists t, Dom.target_dispatch_ok p t = true)).
Proof.
  intros isNext Hok Hms Hpl.
  pose proof (keyboardProbe_unfold p isNext Hok) as Hkb.
  pose proof (some_target_ok p) as Hsome.
  split; [|split].
  - rewrite Hkb. cbn [fst snd]. split; [reflexivity |].
    rewrite <- Hsome.
    destruct (existsb (Dom.target_dispatch_ok p) Dom.targets);
      split; congruence.
  - intros Hbc. unfold S0.skipTrack, S0.attempts. fold isNext.
    rewrite (orElse_none _ _ Hbc), (orElse_none _ _ Hms),
      (orElse_none _ _ Hpl), Hkb. cbn [fst snd].
    rewrite <- Hsome.
    destruct (existsb (Dom.target_dispatch_ok p) Dom.targets); cbn [Dom.finish fst snd].
    + split; [|split; reflexivity].
      exists (snd (Dom.buttonClick p (S0.buttonSelectors isNext))
              ++ snd (Dom.mediaSessionProbe p isNext)
              ++ snd (Dom.playerApiProbe p isNext)).
      now rewrite <- !app_assoc.
    + split; [|split; [discriminate | discriminate]].
      exists (snd (Dom.buttonClick p (S0.buttonSelectors isNext))
              ++ snd (Dom.mediaSessionProbe p isNext)
              ++ snd (Dom.playerApiProbe p isNext)).
      now rewrite <- !app_assoc.
  - intros selectors Hsel Hbc.
    assert (Hbc2 : fst (S1.buttonClickAgain p selectors) = None)
      by (now rewrite (proj2 (buttonClickAgain_none p selectors Hbc))).
    assert (Hrun : S1.attempts p isNext selectors
                   = (if existsb (Dom.target_dispatch_ok p) Dom.targets
                      then Some (Dom.Success "keyboard-events") else None,
                      (snd (Dom.buttonClick p selectors)
                       ++ snd (Dom.mediaSessionProbe p isNext)
                       ++ snd (Dom.playerApiProbe p isNext)
                       ++ snd (S1.buttonClickAgain p selectors))
                      ++ keyDispatches isNext)).
    { unfold S1.attempts.
      rewrite (orElse_none _ _ Hbc), (orElse_none _ _ Hms),
        (orElse_none _ _ Hpl), (orElse_none _ _ Hbc2), Hkb. cbn [fst snd].
      now rewrite <- !app_assoc. }
    assert (Hend :
              fst (S1.skipTrack p now cache direction)
              = (S1.Returned
                   (fst (Dom.finish (S1.attempts p isNext selectors))),
                 snd (Dom.finish (S1.attempts p isNext selectors)))).
    { unfold S1.skipTrack. fold isNext.
      destruct (S1.getMediaElements p now cache) as [els cache'].
      destruct Hsel as [Hown|[Hmiss ->]].
      - now rewrite Hown.
      - now rewrite Hmiss. }
    rewrite Hend, Hrun. rewrite <- Hsome.
    destruct (existsb (Dom.target_dispatch_ok p) Dom.targets);
      cbn [Dom.finish fst snd].
    + split; [eexists; reflexivity | split; reflexivity].
    + split; [eexists; reflexivity | split; discriminate].
Qed.

Lemma keyboard_tries_every_target_witness :
  Dom.keyboardEvent_ok onlyActiveElementPage = true
  /\ fst (Dom.mediaSessionProbe onlyActiveElementPage true) = None
  /\ fst (Dom.playerApiProbe onlyActiveElementPage true) = None
  /\ fst (Dom.buttonClick onlyActiveElementPage (S0.buttonSelectors true)) = None
  /\ (exists earlier,
         snd (S0.skipTrack onlyActiveElementPage "next")
         = earlier ++ keyDispatches true)
  /\ fst (S0.skipTrack onlyActiveElementPage "next")
     = Dom.Success "keyboard-events".
Proof.
  destruct (keyboard_tries_every_target onlyActiveElementPage 0
              S1.initialCache "next" eq_refl eq_refl eq_refl)
    as (_ & H0 & _).
  destruct (H0 eq_refl) as [Htrace Hiff].
  split; [reflexivity |]. split; [reflexivity |]. split; [reflexivity |].
  split; [reflexivity |]. split; [exact Htrace |].
  apply Hiff. exists Dom.TActiveElement. reflexivity.
Defined.

(** *** Directions other than ['next'] *)

Lemma no_visible_match_buttonClick (p : Dom.Page) (selectors : list string) :
  ~ has_visible_match p selectors ->
  Dom.buttonClick p selectors = (None, [])
  /\ S1.buttonClickAgain p selectors = (None, []).
Proof.
  intros Hno. apply buttonClickAgain_none. unfold Dom.buttonClick.
  pose proof (firstVisibleButton_spec p selectors) as H.
  destruct (Dom.firstVisibleButton p selectors) as [e|]; [|reflexivity].
  exfalso. apply Hno.
  destruct H as (before & sel & after & Heq & _ & Hfind).
  apply find_some in Hfind. destruct Hfind as [Hin Hvis].
  exists sel, e. split; [|split; assumption].
  rewrite Heq. apply in_or_app. right. now left.
Qed.

(** C9, counterexample.  In the content script, on a page with a visible
    [.ytp-prev-button], ['prev'] clicks the button while ['previous'],
    which is not ['next'] either, finds no selector to try and ends with
    the key events. *)
Lemma content_script_previous_differs_from_prev :
  "previous" <> "next"
  /\ fst (S1.skipTrack prevButtonPage 0 S1.initialCache "prev")
     = (S1.Returned (Dom.Success "button-click"), [Dom.Click 2])
  /\ fst (S1.skipTrack prevButtonPage 0 S1.initialCache "previous")
     = (S1.Returned (Dom.Success "keyboard-events"), keyDispatches false)
  /\ fst (S1.skipTrack prevButtonPage 0 S1.initialCache "previous")
     <> fst (S1.skipTrack prevButtonPage 0 S1.initialCache "prev").
Proof.
  split; [discriminate |]. split; [reflexivity |]. split; [reflexivity |].
  vm_compute. discriminate.
Qed.

(** C9 (amended).  In the injected script every direction other than
    ['next'] behaves alike: it runs the previous-direction branch of the
    four strategies, as ['prev'] and ['previous'] do.  In the content
    script a direction other than ['next'] and ['prev'] that is not the
    name of a property inherited from [Object.prototype] runs the
    previous-direction branch of the media-session, player and keyboard
    strategies with an empty list of button selectors; it therefore
    agrees with ['prev'] on every page that has no visible match for the
    previous-button selectors. *)
Theorem non_next_directions
  (p : Dom.Page) (now : Z) (cache : S1.MediaCache) (d : string) :
  d <> "next" ->
  (S0.skipTrack p d = Dom.finish (S0.attempts p false)
   /\ S0.skipTrack p d = S0.skipTrack p "prev"
   /\ S0.skipTrack p d = S0.skipTrack p "previous")
  /\ (d <> "prev" ->
      existsb (String.eqb d) S1.objectPrototypeKeys = false ->
      fst (S1.skipTrack p now cache d)
      = (S1.Returned (fst (Dom.finish (S1.attempts p false []))),
         snd (Dom.finish (S1.attempts p false [])))
      /\ forall prevSelectors,
          S1.commonButtonSelectors "prev" = S1.Own prevSelectors ->
          ~ has_visible_match p prevSelectors ->
          fst (S1.skipTrack p now cache d)
          = fst (S1.skipTrack p now cache "prev")).
Proof.
  intros Hnext.
  assert (Hn : (d =? "next")%string = false) by now apply String.eqb_neq.
  split.
  - unfold S0.skipTrack. rewrite Hn. repeat split.
  - intros Hprev Hproto.
    assert (Hp : (d =? "prev")%string = false) by now apply String.eqb_neq.
    assert (Hmiss : S1.commonButtonSelectors d = S1.Missing).
    { unfold S1.commonButtonSelectors. now rewrite Hn, Hp, Hproto. }
    assert (Hd : fst (S1.skipTrack p now cache d)
                 = (S1.Returned (fst (Dom.finish (S1.attempts p false []))),
                    snd (Dom.finish (S1.attempts p false [])))).
    { unfold S1.skipTrack. rewrite Hn, Hmiss.
      destruct (S1.getMediaElements p now cache); reflexivity. }
    split; [exact Hd |].
    intros prevSelectors Hown Hno. rewrite Hd.
    unfold S1.skipTrack. rewrite Hown.
    change ("prev" =? "next")%string with false.
    destruct (S1.getMediaElements p now cache) as [els cache'].
    cbn [fst].
    destruct (no_visible_match_buttonClick p prevSelectors Hno) as [H1 H2].
    unfold S1.attempts. rewrite H1, H2. reflexivity.
Qed.

Lemma non_next_directions_witness :
  "previous" <> "next"
  /\ "previous" <> "prev"
  /\ existsb (String.eqb "previous") S1.objectPrototypeKeys = false
  /\ S0.skipTrack prevButtonPage "previous" = S0.skipTrack prevButtonPage "prev"
  /\ fst (S1.skipTrack prevButtonPage 0 S1.initialCache "previous")
     = (S1.Returned (fst (Dom.finish (S1.attempts prevButtonPage false []))),
        snd (Dom.finish (S1.attempts prevButtonPage false []))).
Proof.
  assert (H1 : "previous" <> "next") by discriminate.
  assert (H2 : "previous" <> "prev") by discriminate.
  destruct (non_next_directions prevButtonPage 0 S1.initialCache "previous" H1)
    as [(_ & Hsame & _) Hcs].
  destruct (Hcs H2 eq_refl) as [Hd _].
  split; [exact H1 |]. split; [exact H2 |]. split; [reflexivity |].
  split; [exact Hsame | exact Hd].
Defined.

(* ================================================================= *)
(** * Further properties of the background cache *)

(** ** More facts about [JsMap] *)

Lemma set_same {V} (k : Z) (v : V) (m : JsMap.t V) :
  JsMap.get k m = Some v -> JsMap.set k v m = m.
Proof.
  induction m as [|[k' v'] m IH]; simpl; [discriminate |].
  destruct (Z.eqb_spec k' k) as [->|Hne].
  - now intros [= ->].
  - intros H. now rewrite IH.
Qed.

Lemma delete_absent {V} (k : Z) (m : JsMap.t V) :
  JsMap.get k m = None -> JsMap.delete k m = m.
Proof.
  induction m as [|[k' v'] m IH]; simpl; [reflexivity |].
  destruct (Z.eqb_spec k' k) as [->|Hne]; [discriminate |].
  intros H. now rewrite IH.
Qed.

Lemma get_delete_same {V} (k : Z) (m : JsMap.t V) :
  NoDup (JsMap.keys m) -> JsMap.get k (JsMap.delete k m) = None.
Proof.
  intros Hnd. rewrite delete_as_filter by exact Hnd.
  destruct (JsMap.get k (filter _ m)) as [v|] eqn:Hg; [|reflexivity].
  apply get_in in Hg. apply filter_In in Hg. destruct Hg as [_ Hf].
  simpl in Hf. rewrite Z.eqb_refl in Hf. discriminate.
Qed.

Lemma get_filter_some {V} (f : Z * V -> bool) (k : Z) (v : V) (m : JsMap.t V) :
  NoDup (JsMap.keys m) ->
  JsMap.get k (filter f m) = Some v ->
  JsMap.get k m = Some v /\ f (k, v) = true.
Proof.
  intros Hnd Hg. apply get_in in Hg. apply filter_In in Hg.
  destruct Hg as [Hin Hf]. split; [now apply in_get | exact Hf].
Qed.

Lemma values_filter {V} (f : V -> bool) (m : JsMap.t V) :
  JsMap.values (filter (fun e => f (snd e)) m) = filter f (JsMap.values m).
Proof.
  induction m as [|[k v] m IH]; simpl; [reflexivity |].
  destruct (f v); simpl; now rewrite IH.
Qed.

Lemma world_eta (w : R.World) :
  {| R.reads := R.reads w; R.audibleTabsMap := R.audibleTabsMap w;
     R.popupPorts := R.popupPorts w;
     R.disconnectListeners := R.disconnectListeners w |} = w.
Proof. now destruct w. Qed.

(** ** Subsequences *)

Lemma Subseq_refl {A} (l : list A) : Subseq l l.
Proof. induction l; constructor; assumption. Qed.

Lemma Subseq_trans {A} (l1 l2 l3 : list A) :
  Subseq l1 l2 -> Subseq l2 l3 -> Subseq l1 l3.
Proof.
  intros H12 H23. revert l1 H12.
  induction H23 as [|x l2 l3 H23 IH|x l2 l3 H23 IH]; intros l1 H12.
  - exact H12.
  - constructor. now apply IH.
  - inversion H12; subst; constructor; now apply IH.
Qed.

Lemma Subseq_filter {A} (f : A -> bool) (l : list A) : Subseq (filter f l) l.
Proof.
  induction l as [|x l IH]; simpl; [constructor |].
  destruct (f x); constructor; exact IH.
Qed.

Lemma Subseq_map {A B} (f : A -> B) (l l' : list A) :
  Subseq l l' -> Subseq (map f l) (map f l').
Proof. induction 1; simpl; constructor; assumption. Qed.

Lemma Subseq_In {A} (l l' : list A) x : Subseq l l' -> In x l -> In x l'.
Proof.
  induction 1 as [|y l l' H IH|y l l' H IH]; simpl; [tauto | auto |].
  intros [->|Hin]; auto.
Qed.

Lemma Subseq_NoDup {A} (l l' : list A) : Subseq l l' -> NoDup l' -> NoDup l.
Proof.
  induction 1 as [|y l l' H IH|y l l' H IH]; intros Hnd.
  - constructor.
  - inversion Hnd; subst. now apply IH.
  - inversion Hnd as [|? ? Hnotin Hnd']; subst. constructor; [|now apply IH].
    intros Hin. apply Hnotin. exact (Subseq_In _ _ _ H Hin).
Qed.

Lemma world7_wf : R.wf (R.audibleTabsMap world7).
Proof.
  split.
  - simpl. constructor; [simpl; tauto | constructor].
  - repeat constructor.
Qed.

Lemma mixedWorld_wf : R.wf (R.audibleTabsMap mixedWorld).
Proof.
  split.
  - simpl. repeat constructor; simpl; intuition discriminate.
  - repeat constructor.
Qed.

(** ** What eviction removes *)

(** X1.  [cleanupOldTabs] reads the clock once and removes exactly the
    records that are not audible and whose [lastActive] is at least
    [TAB_RETENTION_MS] before that value; the other records stay, in
    their order and unchanged.  In particular an audible record is never
    evicted, however old its [lastActive]. *)
Theorem cleanup_evicts_exactly_the_stale (clk : nat -> Z) (w : R.World) :
  R.wf (R.audibleTabsMap w) ->
  let now := clk (R.reads w) in
  let m := R.audibleTabsMap w in
  let m' := R.audibleTabsMap (R.exec (R.cleanupOldTabs clk) w) in
  JsMap.values m' = filter (fun r => negb (R.isStale now r)) (JsMap.values m)
  /\ (forall k,
        JsMap.get k m'
        = match JsMap.get k m with
          | Some r => if R.isStale now r then None else Some r
          | None => None
          end)
  /\ (forall k r, JsMap.get k m = Some r -> R.audible r = true ->
                  JsMap.get k m' = Some r)
  /\ R.reads (R.exec (R.cleanupOldTabs clk) w) = S (R.reads w).
Proof.
  intros Hwf now m m'. subst m'. unfold R.exec.
  rewrite cleanup_unfold by apply Hwf. simpl. fold now m.
  assert (Hget : forall k,
             JsMap.get k (evicted now m)
             = match JsMap.get k m with
               | Some r => if R.isStale now r then None else Some r
               | None => None
               end).
  { intros k. unfold evicted. destruct (JsMap.get k m) as [r|] eqn:Hg.
    - destruct (R.isStale now r) eqn:Hst.
      + apply (get_filter_removed _ k r); [apply Hwf | exact Hg |].
        simpl. now rewrite Hst.
      + apply get_filter_kept; [exact Hg |]. simpl. now rewrite Hst.
    - now apply get_filter_none. }
  split; [apply (values_filter (fun r => negb (R.isStale now r))) |].
  split; [exact Hget |]. split; [|reflexivity].
  intros k r Hg Ha. rewrite Hget, Hg.
  unfold R.isStale. now rewrite Ha.
Qed.

Lemma cleanup_evicts_exactly_the_stale_witness :
  R.wf (R.audibleTabsMap mixedWorld)
  /\ map R.id
       (JsMap.values
          (R.audibleTabsMap (R.exec (R.cleanupOldTabs lateClock) mixedWorld)))
     = [5; 7].
Proof.
  split; [exact mixedWorld_wf |].
  destruct (cleanup_evicts_exactly_the_stale lateClock mixedWorld mixedWorld_wf)
    as (Hvalues & _).
  rewrite Hvalues. reflexivity.
Defined.

Lemma stale_later (now now' : Z) (r : R.TabRecord) :
  now <= now' -> R.isStale now r = true -> R.isStale now' r = true.
Proof.
  unfold R.isStale. intros Hle H. apply andb_prop in H. destruct H as [Ha Hs].
  rewrite Ha. simpl. apply Z.leb_le in Hs. apply Z.leb_le. lia.
Qed.

Lemma evicted_twice (now now' : Z) (m : JsMap.t R.TabRecord) :
  now <= now' -> evicted now' (evicted now m) = evicted now' m.
Proof.
  intros Hle. unfold evicted. rewrite filter_filter. apply filter_ext.
  intros [k r]. simpl.
  destruct (R.isStale now r) eqn:Hst; simpl; [|reflexivity].
  now rewrite (stale_later now now' r Hle Hst).
Qed.

(** X2.  Two runs of [cleanupOldTabs] in a row leave what a single run
    at the second clock value would leave, when the clock did not go
    back in between; when both runs read the same clock value the second
    one changes nothing in the cache. *)
Theorem cleanup_twice (clk : nat -> Z) (w : R.World) :
  R.wf (R.audibleTabsMap w) ->
  let m1 := R.audibleTabsMap (R.exec (R.run clk [R.ECleanup]) w) in
  let m2 := R.audibleTabsMap (R.exec (R.run clk [R.ECleanup; R.ECleanup]) w) in
  (clk (R.reads w) <= clk (S (R.reads w)) ->
   m2 = evicted (clk (S (R.reads w))) (R.audibleTabsMap w))
  /\ (clk (R.reads w) = clk (S (R.reads w)) -> m2 = m1).
Proof.
  intros Hwf m1 m2.
  assert (H1 : R.run clk [R.ECleanup] w
               = ([R.ODone],
                  ticked w (evicted (clk (R.reads w)) (R.audibleTabsMap w)))).
  { rewrite run_cons. cbv [R.step R.bind]. rewrite cleanup_unfold by apply Hwf.
    reflexivity. }
  assert (H2 : m2 = evicted (clk (S (R.reads w)))
                      (evicted (clk (R.reads w)) (R.audibleTabsMap w))).
  { subst m2. unfold R.exec. rewrite run_cons.
    cbv [R.step R.bind]. rewrite cleanup_unfold by apply Hwf.
    cbn [fst snd R.ret].
    set (w1 := ticked w (evicted (clk (R.reads w)) (R.audibleTabsMap w))).
    assert (Hwf1 : R.wf (R.audibleTabsMap w1)) by (now apply wf_filter).
    rewrite run_cons. cbv [R.step R.bind].
    rewrite cleanup_unfold by apply Hwf1. reflexivity. }
  subst m1. unfold R.exec. rewrite H1. cbn [snd]. rewrite H2. split.
  - intros Hle. now apply evicted_twice.
  - intros Heq. rewrite <- Heq. simpl. apply evicted_twice. lia.
Qed.

Lemma cleanup_twice_witness :
  R.wf (R.audibleTabsMap mixedWorld)
  /\ lateClock (R.reads mixedWorld) <= lateClock (S (R.reads mixedWorld))
  /\ R.audibleTabsMap
       (R.exec (R.run lateClock [R.ECleanup; R.ECleanup]) mixedWorld)
     = evicted (lateClock 1) (R.audibleTabsMap mixedWorld).
Proof.
  assert (Hle : lateClock (R.reads mixedWorld)
                <= lateClock (S (R.reads mixedWorld)))
    by (vm_compute; discriminate).
  split; [exact mixedWorld_wf |]. split; [exact Hle |].
  exact (proj1 (cleanup_twice lateClock mixedWorld mixedWorld_wf) Hle).
Defined.

(** ** Listeners that mutate, refresh the icon and push *)

(** The state after [getAudibleTabs]: the evicted map, the same ports. *)
Lemma getAudibleTabs_world (clk : nat -> Z) (w : R.World) :
  R.wf (R.audibleTabsMap w) ->
  let w' := snd (R.getAudibleTabs clk w) in
  R.audibleTabsMap w' = evicted (clk (R.reads w)) (R.audibleTabsMap w)
  /\ R.popupPorts w' = R.popupPorts w
  /\ R.disconnectListeners w' = R.disconnectListeners w
  /\ (R.reads w < R.reads w')%nat.
Proof.
  intros Hwf. cbv zeta. rewrite getAudibleTabs_unfold by apply Hwf.
  pose proof (filterTabs_spec clk
                (JsMap.values (evicted (clk (R.reads w)) (R.audibleTabsMap w)))
                (ticked w (evicted (clk (R.reads w)) (R.audibleTabsMap w))))
    as H. cbv zeta in H.
  destruct (R.filterTabs clk _ _) as [l w']. simpl in *.
  destruct H as (Hm & Hp & Hd & Hle & _).
  split; [exact Hm |]. split; [exact Hp |]. split; [exact Hd | lia].
Qed.

Lemma updateIcon_world (clk : nat -> Z) (w : R.World) :
  snd (R.updateIconForMediaTabs clk w) = snd (R.getAudibleTabs clk w).
Proof.
  unfold R.updateIconForMediaTabs, R.bind, R.ret.
  destruct (R.getAudibleTabs clk w); reflexivity.
Qed.

(** What [updateIconForMediaTabs ;; pushUpdateToPopup] posts: the
    records left by the eviction, to every port. *)
Lemma icon_then_push (clk : nat -> Z) (ok : nat -> bool) (w : R.World) :
  R.wf (R.audibleTabsMap w) ->
  let c := R.bind (R.updateIconForMediaTabs clk)
                  (fun _ => R.pushUpdateToPopup ok) in
  R.audibleTabsMap (snd (c w))
  = evicted (clk (R.reads w)) (R.audibleTabsMap w)
  /\ map fst (fst (c w)) = R.popupPorts w
  /\ (forall port msg, In (port, msg) (fst (c w)) ->
        map R.pushed (R.tabs msg)
        = JsMap.values (evicted (clk (R.reads w)) (R.audibleTabsMap w))).
Proof.
  intros Hwf. cbv zeta. unfold R.bind.
  pose proof (updateIcon_world clk w) as Hw.
  pose proof (getAudibleTabs_world clk w Hwf) as Hg. cbv zeta in Hg.
  destruct (R.updateIconForMediaTabs clk w) as [icon w1]. simpl in Hw.
  rewrite <- Hw in Hg. destruct Hg as (Hm & Hp & _ & _).
  pose proof (push_targets ok w1) as Ht.
  rewrite push_unfold in *.
  destruct (List.length (R.popupPorts w1) =? 0)%nat eqn:Hlen; simpl in *.
  - split; [exact Hm |]. split; [now rewrite <- Hp |]. intros port msg [].
  - split; [exact Hm |]. split; [now rewrite <- Hp |].
    intros port msg Hin. apply in_map_iff in Hin.
    destruct Hin as [q [[= _ <-] _]]. simpl.
    rewrite map_map. simpl. rewrite map_id. now rewrite Hm.
Qed.

(** X3.  When the host reports a tab closed, the [onRemoved] listener
    drops its record at once, whatever its [audible] flag and
    [lastActive]: no record of the tab is left in the cache or in any
    message the listener posts.  It posts, to every port, only if a
    record existed; if none did, nothing happens at all. *)
Theorem close_removes_at_once
  (clk : nat -> Z) (w : R.World) (tabId : Z) (ok : nat -> bool) :
  R.wf (R.audibleTabsMap w) ->
  let w' := R.exec (L.onRemoved clk tabId ok) w in
  let posts := R.eval (L.onRemoved clk tabId ok) w in
  JsMap.get tabId (R.audibleTabsMap w') = None
  /\ (forall port msg x, In (port, msg) posts -> In x (R.tabs msg) ->
        R.id (R.pushed x) <> tabId)
  /\ (JsMap.has tabId (R.audibleTabsMap w) = true ->
      map fst posts = R.popupPorts w)
  /\ (JsMap.has tabId (R.audibleTabsMap w) = false -> posts = [] /\ w' = w).
Proof.
  intros Hwf. cbv zeta. unfold R.exec, R.eval, L.onRemoved.
  unfold R.bind at 1. unfold R.bind at 2.
  cbv [R.removeTab R.bind R.getTabs R.putTabs R.ret]. cbn [fst snd].
  set (w1 := {| R.reads := R.reads w;
                R.audibleTabsMap := JsMap.delete tabId (R.audibleTabsMap w);
                R.popupPorts := R.popupPorts w;
                R.disconnectListeners := R.disconnectListeners w |}).
  assert (Hwf1 : R.wf (R.audibleTabsMap w1)) by (now apply wf_delete).
  assert (Hgone : JsMap.get tabId (R.audibleTabsMap w1) = None)
    by (apply get_delete_same; apply Hwf).
  destruct (JsMap.has tabId (R.audibleTabsMap w)) eqn:Hhas.
  - pose proof (icon_then_push clk ok w1 Hwf1) as H. cbv zeta in H.
    unfold R.bind in H.
    destruct (R.updateIconForMediaTabs clk w1) as [icon w2].
    destruct (R.pushUpdateToPopup ok w2) as [posts w3]. simpl in *.
    destruct H as (Hm & Ht & Hmsg).
    split; [rewrite Hm; now apply get_filter_none |].
    split; [|split; [intros _; exact Ht | discriminate]].
    intros port msg x Hin Hx.
    assert (Hv : In (R.pushed x)
                   (JsMap.values (evicted (clk (R.reads w))
                                    (JsMap.delete tabId (R.audibleTabsMap w))))).
    { rewrite <- (Hmsg port msg Hin). now apply in_map. }
    apply (no_key_no_id tabId (evicted (clk (R.reads w))
                                 (JsMap.delete tabId (R.audibleTabsMap w))));
      [now apply wf_filter | now apply get_filter_none | exact Hv].
  - cbn [fst snd]. split; [exact Hgone |].
    split; [intros port msg x [] |]. split; [discriminate |].
    intros _. split; [reflexivity |].
    subst w1. rewrite delete_absent.
    + apply world_eta.
    + unfold JsMap.has in Hhas.
      destruct (JsMap.get tabId (R.audibleTabsMap w)); [discriminate | reflexivity].
Qed.

Lemma close_removes_at_once_witness :
  R.wf (R.audibleTabsMap mixedWorld)
  /\ JsMap.has 5 (R.audibleTabsMap mixedWorld) = true
  /\ JsMap.get 5
       (R.audibleTabsMap
          (R.exec (L.onRemoved lateClock 5 (fun _ => true)) mixedWorld))
     = None
  /\ map fst (R.eval (L.onRemoved lateClock 5 (fun _ => true)) mixedWorld)
     = [1%nat].
Proof.
  destruct (close_removes_at_once lateClock mixedWorld 5 (fun _ => true)
              mixedWorld_wf) as (Hgone & _ & Hposts & _).
  split; [exact mixedWorld_wf |]. split; [reflexivity |].
  split; [exact Hgone | exact (Hposts eq_refl)].
Defined.

(** ** Snapshots *)

Lemma filterTabs_subseq (clk : nat -> Z) (l : list R.TabRecord) :
  forall w, Subseq (fst (R.filterTabs clk l w)) l.
Proof.
  induction l as [|tab rest IH]; intros w; [constructor |].
  rewrite filterTabs_cons. destruct (R.audible tab); cbv zeta; cbn [fst].
  - apply Subseq_keep. apply IH.
  - destruct (_ <? _); [apply Subseq_keep | apply Subseq_skip]; apply IH.
Qed.

(** X4.  The list returned by [getAudibleTabs] is made of cached
    records, in the order in which their tabs entered the cache, and it
    never lists two records with the same id. *)
Theorem snapshot_lists_each_tab_once (clk : nat -> Z) (w : R.World) :
  R.wf (R.audibleTabsMap w) ->
  Subseq (R.eval (R.getAudibleTabs clk) w) (JsMap.values (R.audibleTabsMap w))
  /\ NoDup (map R.id (R.eval (R.getAudibleTabs clk) w)).
Proof.
  intros Hwf. unfold R.eval. rewrite getAudibleTabs_unfold by apply Hwf.
  assert (Hsub : Subseq
            (fst (R.filterTabs clk
                    (JsMap.values
                       (evicted (clk (R.reads w)) (R.audibleTabsMap w)))
                    (ticked w (evicted (clk (R.reads w)) (R.audibleTabsMap w)))))
            (JsMap.values (R.audibleTabsMap w))).
  { eapply Subseq_trans; [apply filterTabs_subseq |].
    unfold evicted.
    rewrite (values_filter (fun r => negb (R.isStale (clk (R.reads w)) r))).
    apply Subseq_filter. }
  split; [exact Hsub |].
  apply (Subseq_NoDup _ (map R.id (JsMap.values (R.audibleTabsMap w)))).
  - now apply Subseq_map.
  - destruct Hwf as [Hnd Hall]. now rewrite ids_are_keys.
Qed.

Lemma snapshot_lists_each_tab_once_witness :
  R.wf (R.audibleTabsMap mixedWorld)
  /\ NoDup (map R.id (R.eval (R.getAudibleTabs lateClock) mixedWorld))
  /\ map R.id (R.eval (R.getAudibleTabs lateClock) mixedWorld) = [5; 7].
Proof.
  split; [exact mixedWorld_wf |].
  split; [|reflexivity].
  exact (proj2 (snapshot_lists_each_tab_once lateClock mixedWorld mixedWorld_wf)).
Defined.

Lemma bind_eq {A B} (c : R.M A) (k : A -> R.M B) (w : R.World) :
  R.bind c k w = k (fst (c w)) (snd (c w)).
Proof. unfold R.bind. destruct (c w); reflexivity. Qed.

(** X5.  When the host creates a tab that is audible, the [onCreated]
    listener posts to every connected popup a list that contains the
    tab's record with the reported title, url and mute state,
    [lastActive] set to the clock value read by the upsert, and
    [isPlaying: true], whatever the clock says afterwards; and the
    record is in the cache afterwards. *)
Theorem audible_tab_is_pushed
  (clk : nat -> Z) (w : R.World) (t : HostTab) (tid : Z) (ok : nat -> bool) :
  R.wf (R.audibleTabsMap w) ->
  tab_id t = Some tid ->
  tab_audible t = true ->
  let fresh := freshRecord t tid (clk (R.reads w)) in
  let posts := R.eval (R.onCreated clk (Some t) ok) w in
  map fst posts = R.popupPorts w
  /\ (forall port msg, In (port, msg) posts ->
        In {| R.pushed := fresh; R.isPlaying := Some true |} (R.tabs msg))
  /\ JsMap.get tid
       (R.audibleTabsMap (R.exec (R.onCreated clk (Some t) ok) w))
     = Some fresh.
Proof.
  intros Hwf Hid Ha. cbv zeta. unfold R.eval, R.exec, R.onCreated.
  rewrite (bind_eq (R.upsertFromTab clk (Some t))).
  pose proof (wf_upsert clk (Some t) w Hwf) as Hwf1. unfold R.exec in Hwf1.
  rewrite (upsert_unfold clk w t tid Hid) in *. cbv zeta in *.
  rewrite Ha in *. cbn [fst snd] in *.
  assert (Htruthy : Js.truthy
            (Js.VString (if JsMap.has tid (R.audibleTabsMap w)
                         then "updated" else "added")) = true)
    by (destruct (JsMap.has tid (R.audibleTabsMap w)); reflexivity).
  rewrite Htruthy.
  set (fresh := freshRecord t tid (clk (R.reads w))) in *.
  set (w1 := ticked w (JsMap.set tid fresh (R.audibleTabsMap w))) in *.
  pose proof (icon_then_push clk ok w1 Hwf1) as H. cbv zeta in H.
  destruct H as (Hm & Ht & Hmsg).
  assert (Hkept : JsMap.get tid (evicted (clk (R.reads w1)) (R.audibleTabsMap w1))
                  = Some fresh).
  { apply get_filter_kept; [apply get_set_same | reflexivity]. }
  split; [exact Ht |]. split; [|now rewrite Hm].
  intros port msg Hin.
  pose proof (Hmsg port msg Hin) as Hpushed.
  assert (Hfresh : In fresh (map R.pushed (R.tabs msg))).
  { rewrite Hpushed. apply get_in in Hkept.
    apply in_map_iff. exists (tid, fresh). split; [reflexivity | exact Hkept]. }
  apply in_map_iff in Hfresh. destruct Hfresh as [x [Hx Hin']].
  assert (Hplay : R.isPlaying x = Some (R.audible (R.pushed x))).
  { revert Hin Hin'. rewrite bind_eq. rewrite push_unfold.
    destruct (List.length _ =? 0)%nat; cbn [fst]; [intros [] |].
    intros Hin Hin'. apply in_map_iff in Hin.
    destruct Hin as [q [[= _ <-] _]]. simpl in Hin'.
    apply in_map_iff in Hin'. destruct Hin' as [r [<- _]]. reflexivity. }
  destruct x as [px ip]. simpl in Hx, Hplay. subst px ip. exact Hin'.
Qed.

Lemma audible_tab_is_pushed_witness :
  R.wf (R.audibleTabsMap world7popup)
  /\ tab_id loudTab8 = Some 8
  /\ tab_audible loudTab8 = true
  /\ map fst (R.eval (R.onCreated sampleClock (Some loudTab8) (fun _ => true))
                world7popup)
     = [1%nat]
  /\ JsMap.get 8
       (R.audibleTabsMap
          (R.exec (R.onCreated sampleClock (Some loudTab8) (fun _ => true))
                  world7popup))
     = Some {| R.id := 8; R.title := "v"; R.url := "v"; R.audible := true;
               R.muted := true; R.lastActive := 1001 |}.
Proof.
  destruct (audible_tab_is_pushed sampleClock world7popup loudTab8 8
              (fun _ => true) world7_wf eq_refl eq_refl) as (Ht & _ & Hg).
  split; [exact world7_wf |]. split; [reflexivity |]. split; [reflexivity |].
  split; [exact Ht | exact Hg].
Defined.

(** ** Time stamps *)

Lemma Forall_set_entry {V} (P : Z * V -> Prop) (k : Z) (v : V) (m : JsMap.t V) :
  Forall P m -> P (k, v) -> Forall P (JsMap.set k v m).
Proof.
  intros Hm Hv. induction Hm as [|[k' v'] m Hp Hm IH]; simpl.
  - constructor; [exact Hv | constructor].
  - destruct (Z.eqb_spec k' k) as [->|Hne]; constructor; auto.
Qed.

Lemma stamped_weaken (clk : nat -> Z) (w w' : R.World) :
  R.audibleTabsMap w' = R.audibleTabsMap w ->
  (R.reads w <= R.reads w')%nat ->
  stamped clk w -> stamped clk w'.
Proof.
  unfold stamped. intros Hm Hr H. rewrite Hm.
  eapply Forall_impl; [|exact H].
  intros e [j [Hj He]]. exists j. split; [lia | exact He].
Qed.

Lemma stamped_filter (clk : nat -> Z) (w w' : R.World) (f : Z * R.TabRecord -> bool) :
  R.audibleTabsMap w' = filter f (R.audibleTabsMap w) ->
  (R.reads w <= R.reads w')%nat ->
  stamped clk w -> stamped clk w'.
Proof.
  unfold stamped. intros Hm Hr H. rewrite Hm. apply Forall_filter.
  eapply Forall_impl; [|exact H].
  intros e [j [Hj He]]. exists j. split; [lia | exact He].
Qed.

Lemma stamped_step (clk : nat -> Z) (e : R.Event) (w : R.World) :
  R.wf (R.audibleTabsMap w) ->
  stamped clk w -> stamped clk (snd (R.step clk e w)).
Proof.
  intros Hwf Hst.
  pose proof (port_events_frame clk e w) as Hframe.
  destruct e as [tab| | |k|port ok|p|ok].
  - rewrite step_upsert. cbn [snd].
    destruct tab as [t|]; [|exact Hst].
    destruct (tab_id t) as [tid|] eqn:Hid; [|simpl; rewrite Hid; exact Hst].
    rewrite (upsert_unfold clk w t tid Hid). cbv zeta.
    assert (Hold : Forall (fun e => exists j, (j < S (R.reads w))%nat
                                    /\ R.lastActive (snd e) = clk j)
                          (R.audibleTabsMap w)).
    { eapply Forall_impl; [|exact Hst].
      intros e [j [Hj He]]. exists j. split; [lia | exact He]. }
    destruct (tab_audible t); simpl.
    + unfold stamped. simpl. apply Forall_set_entry; [exact Hold |].
      exists (R.reads w). split; [lia | reflexivity].
    + destruct (JsMap.get tid (R.audibleTabsMap w)) as [existing|] eqn:Hget;
        simpl; [|exact Hold].
      unfold stamped. simpl. apply Forall_set_entry; [exact Hold |]. simpl.
      destruct (R.lastActive existing =? 0).
      * exists (R.reads w). split; [lia | reflexivity].
      * apply get_in in Hget. rewrite Forall_forall in Hold.
        exact (Hold _ Hget).
  - cbv [R.step R.bind]. rewrite cleanup_unfold by apply Hwf. cbn [snd R.ret].
    eapply stamped_filter; [reflexivity | simpl; lia | exact Hst].
  - cbv [R.step].
    pose proof (getAudibleTabs_world clk w Hwf) as H. cbv zeta in H.
    destruct (R.getAudibleTabs clk w) as [l w']. simpl in *.
    destruct H as (Hm & _ & _ & Hr).
    eapply stamped_filter; [exact Hm | lia | exact Hst].
  - simpl. unfold stamped. simpl. apply Forall_delete. exact Hst.
  - destruct Hframe as [Hm Hr].
    eapply stamped_weaken; [exact Hm | lia | exact Hst].
  - destruct Hframe as [Hm Hr].
    eapply stamped_weaken; [exact Hm | lia | exact Hst].
  - destruct Hframe as [Hm Hr].
    eapply stamped_weaken; [exact Hm | lia | exact Hst].
Qed.

Lemma stamped_run (clk : nat -> Z) (es : list R.Event) :
  forall w, R.wf (R.audibleTabsMap w) -> stamped clk w ->
            stamped clk (R.exec (R.run clk es) w).
Proof.
  induction es as [|e es IH]; intros w Hwf Hst; [exact Hst |].
  unfold R.exec. rewrite run_cons. cbn [snd].
  apply IH; [now apply wf_step | now apply stamped_step].
Qed.

Lemma reachable_wf (clk : nat -> Z) (es : list R.Event) :
  R.wf (R.audibleTabsMap (R.exec (R.run clk es) R.initial)).
Proof. apply wf_run. split; constructor. Qed.

Lemma reachable_stamped (clk : nat -> Z) (es : list R.Event) :
  stamped clk (R.exec (R.run clk es) R.initial).
Proof. apply stamped_run; [split; constructor | constructor]. Qed.

(** X7.  Under a clock that never goes back, no event of a run lowers
    the [lastActive] of a record that is cached before and after it. *)
Theorem lastActive_never_decreases
  (clk : nat -> Z) (es : list R.Event) (e : R.Event) :
  (forall i j, (i <= j)%nat -> clk i <= clk j) ->
  let w := R.exec (R.run clk es) R.initial in
  forall k r r',
    JsMap.get k (R.audibleTabsMap w) = Some r ->
    JsMap.get k (R.audibleTabsMap (snd (R.step clk e w))) = Some r' ->
    R.lastActive r <= R.lastActive r'.
Proof.
  intros Hmono w k r r' Hget Hget'.
  pose proof (reachable_wf clk es) as Hwf. fold w in Hwf.
  assert (Hnow : R.lastActive r <= clk (R.reads w)).
  { pose proof (reachable_stamped clk es) as Hst. fold w in Hst.
    unfold stamped in Hst. rewrite Forall_forall in Hst.
    destruct (Hst _ (get_in _ _ _ Hget)) as [j0 [Hj0 Hla]]. simpl in Hla.
    rewrite Hla. apply Hmono. lia. }
  assert (Hsame : JsMap.get k (R.audibleTabsMap (snd (R.step clk e w)))
                  = Some r -> R.lastActive r <= R.lastActive r').
  { intros H. rewrite H in Hget'. injection Hget' as <-. lia. }
  pose proof (port_events_frame clk e w) as Hframe.
  destruct e as [tab| | |k0|port ok|p|ok];
    [ | | | | apply Hsame; destruct Hframe as [Hm _]; rewrite Hm; exact Hget ..].
  - rewrite step_upsert in Hget', Hsame. cbn [snd] in Hget', Hsame.
    destruct tab as [t|]; [|now apply Hsame].
    destruct (tab_id t) as [tid|] eqn:Hid;
      [|apply Hsame; simpl; now rewrite Hid].
    rewrite (upsert_unfold clk w t tid Hid) in Hget', Hsame.
    cbv zeta in Hget', Hsame.
    destruct (Z.eq_dec tid k) as [->|Hne].
    + destruct (tab_audible t); simpl in Hget'.
      * rewrite get_set_same in Hget'. injection Hget' as <-. exact Hnow.
      * rewrite Hget in Hget'. simpl in Hget'.
        rewrite get_set_same in Hget'. injection Hget' as <-. simpl.
        destruct (R.lastActive r =? 0); [exact Hnow | lia].
    + apply Hsame. destruct (tab_audible t); simpl.
      * now rewrite get_set_other.
      * destruct (JsMap.get tid (R.audibleTabsMap w)); simpl;
          [now rewrite get_set_other | exact Hget].
  - revert Hget'. cbv [R.step R.bind]. rewrite cleanup_unfold by apply Hwf.
    cbn [snd R.ret]. simpl. intros Hget'.
    apply get_filter_some in Hget'; [|apply Hwf].
    destruct Hget' as [Hg _]. rewrite Hget in Hg. injection Hg as <-. lia.
  - revert Hget'. cbv [R.step].
    pose proof (getAudibleTabs_world clk w Hwf) as H. cbv zeta in H.
    destruct (R.getAudibleTabs clk w) as [l w']. simpl in *.
    destruct H as (Hm & _). rewrite Hm. intros Hget'.
    apply get_filter_some in Hget'; [|apply Hwf].
    destruct Hget' as [Hg _]. rewrite Hget in Hg. injection Hg as <-. lia.
  - simpl in Hget'. rewrite delete_as_filter in Hget' by apply Hwf.
    apply get_filter_some in Hget'; [|apply Hwf].
    destruct Hget' as [Hg _]. rewrite Hget in Hg. injection Hg as <-. lia.
Qed.

Lemma lastActive_never_decreases_witness :
  (forall i j, (i <= j)%nat -> slowClock i <= slowClock j)
  /\ R.lastActive (freshRecord loudTab7 7 1)
     <= R.lastActive (freshRecord retitledTab7 7 500001).
Proof.
  split; [exact slowClock_mono |].
  exact (lastActive_never_decreases slowClock [R.EUpsert (Some loudTab7)]
           (R.EUpsert (Some retitledTab7)) slowClock_mono 7
           (freshRecord loudTab7 7 1) (freshRecord retitledTab7 7 500001)
           eq_refl eq_refl).
Defined.

(** ** [tabs.onUpdated] without an [audible] change *)

Lemma sameJson_refl (a : R.TabRecord) : L.sameJson a a = true.
Proof.
  unfold L.sameJson.
  now rewrite !Z.eqb_refl, !String.eqb_refl, !Bool.eqb_reflx.
Qed.

(** The metadata block of the listener: the flag it computes and the
    state it leaves. *)
Lemma onUpdated_unfold (clk : nat -> Z) (tabId : Z) (ch : L.ChangeInfo)
      (tab : HostTab) (ok : nat -> bool) (w : R.World) :
  L.ch_audible ch = None ->
  L.onUpdated clk tabId ch tab ok w
  = match JsMap.get tabId (R.audibleTabsMap w) with
    | Some entry =>
        let after := L.applyMetadata ch tab entry in
        let w1 := {| R.reads := R.reads w;
                     R.audibleTabsMap :=
                       JsMap.set tabId after (R.audibleTabsMap w);
                     R.popupPorts := R.popupPorts w;
                     R.disconnectListeners := R.disconnectListeners w |} in
        if L.sameJson entry after then ([], w1)
        else R.bind (R.updateIconForMediaTabs clk)
                    (fun _ => R.pushUpdateToPopup ok) w1
    | None => ([], w)
    end.
Proof.
  intros Hch. unfold L.onUpdated. rewrite Hch. cbn [L.defined].
  rewrite bind_eq. rewrite (bind_eq R.getTabs). cbn [R.getTabs fst snd].
  unfold JsMap.has.
  destruct (JsMap.get tabId (R.audibleTabsMap w)) as [entry|]; [|reflexivity].
  rewrite bind_eq. cbn [R.putTabs R.ret fst snd]. cbv zeta.
  destruct (L.sameJson entry (L.applyMetadata ch tab entry)); reflexivity.
Qed.

(** X8.  An [onUpdated] event that reports no [audible] change does
    nothing at all (no clock read, no eviction, no push, the state as it
    was) when the tab is not cached, and also when it is cached but the
    reported title, url and mute state leave its entry as it is; a
    reported title or url that is missing or empty counts as no change
    of that field. *)
Theorem update_without_change_is_silent
  (clk : nat -> Z) (tabId : Z) (ch : L.ChangeInfo) (tab : HostTab)
  (ok : nat -> bool) (w : R.World) :
  L.ch_audible ch = None ->
  (JsMap.get tabId (R.audibleTabsMap w) = None
   \/ exists entry, JsMap.get tabId (R.audibleTabsMap w) = Some entry
                    /\ L.applyMetadata ch tab entry = entry) ->
  L.onUpdated clk tabId ch tab ok w = ([], w)
  /\ (forall entry,
        tab_title tab = None \/ tab_title tab = Some "" ->
        R.title (L.applyMetadata ch tab entry) = R.title entry)
  /\ (forall entry,
        tab_url tab = None \/ tab_url tab = Some "" ->
        R.url (L.applyMetadata ch tab entry) = R.url entry).
Proof.
  intros Hch Hcase. split; [|split].
  - rewrite onUpdated_unfold by exact Hch.
    destruct Hcase as [Hnone|[entry [Hget Hsame]]].
    + now rewrite Hnone.
    + rewrite Hget. cbv zeta. rewrite Hsame, sameJson_refl.
      rewrite set_same by exact Hget. now rewrite world_eta.
  - intros entry [H|H]; simpl; rewrite H;
      destruct (L.defined (L.ch_title ch)); reflexivity.
  - intros entry [H|H]; simpl; rewrite H;
      destruct (L.defined (L.ch_url ch)); reflexivity.
Qed.

Lemma update_without_change_is_silent_witness :
  L.ch_audible titleChange = None
  /\ (JsMap.get 7 (R.audibleTabsMap world7popup) = None
      \/ exists entry,
          JsMap.get 7 (R.audibleTabsMap world7popup) = Some entry
          /\ L.applyMetadata titleChange untitledTab7 entry = entry)
  /\ L.onUpdated sampleClock 7 titleChange untitledTab7 (fun _ => true)
       world7popup
     = ([], world7popup).
Proof.
  assert (H : JsMap.get 7 (R.audibleTabsMap world7popup) = None
      \/ exists entry,
          JsMap.get 7 (R.audibleTabsMap world7popup) = Some entry
          /\ L.applyMetadata titleChange untitledTab7 entry = entry).
  { right. eexists. split; reflexivity. }
  split; [reflexivity |]. split; [exact H |].
  exact (proj1 (update_without_change_is_silent sampleClock 7 titleChange
                  untitledTab7 (fun _ => true) world7popup eq_refl H)).
Defined.

(** X9.  An [onUpdated] event that reports no [audible] change never
    adds a record and never touches the [id], [audible] flag or
    [lastActive] of one: every record cached afterwards was cached
    before, unchanged if it belongs to another tab, and with only the
    reported title, url and mute state applied if it is the tab's own. *)
Theorem update_keeps_audible_state
  (clk : nat -> Z) (tabId : Z) (ch : L.ChangeInfo) (tab : HostTab)
  (ok : nat -> bool) (w : R.World) :
  R.wf (R.audibleTabsMap w) ->
  L.ch_audible ch = None ->
  forall k r',
    JsMap.get k (R.audibleTabsMap (R.exec (L.onUpdated clk tabId ch tab ok) w))
    = Some r' ->
    exists r,
      JsMap.get k (R.audibleTabsMap w) = Some r
      /\ R.id r' = R.id r
      /\ R.audible r' = R.audible r
      /\ R.lastActive r' = R.lastActive r
      /\ (k <> tabId -> r' = r)
      /\ (k = tabId -> r' = L.applyMetadata ch tab r).
Proof.
  intros Hwf Hch k r'. unfold R.exec. rewrite onUpdated_unfold by exact Hch.
  destruct (JsMap.get tabId (R.audibleTabsMap w)) as [entry|] eqn:Hget.
  - cbv zeta.
    set (after := L.applyMetadata ch tab entry).
    set (w1 := {| R.reads := R.reads w;
                  R.audibleTabsMap := JsMap.set tabId after (R.audibleTabsMap w);
                  R.popupPorts := R.popupPorts w;
                  R.disconnectListeners := R.disconnectListeners w |}).
    assert (Hwf1 : R.wf (R.audibleTabsMap w1)).
    { apply wf_set; [exact Hwf |]. simpl. exact (wf_get_id _ _ _ Hwf Hget). }
    assert (Hfrom1 : JsMap.get k (R.audibleTabsMap w1) = Some r' ->
              exists r,
                JsMap.get k (R.audibleTabsMap w) = Some r
                /\ R.id r' = R.id r /\ R.audible r' = R.audible r
                /\ R.lastActive r' = R.lastActive r
                /\ (k <> tabId -> r' = r)
                /\ (k = tabId -> r' = L.applyMetadata ch tab r)).
    { simpl. intros H1. destruct (Z.eq_dec tabId k) as [->|Hne].
      - rewrite get_set_same in H1. injection H1 as <-.
        exists entry. split; [exact Hget |].
        repeat split; try reflexivity. intros Hk. now elim Hk.
      - rewrite get_set_other in H1 by exact Hne.
        exists r'. split; [exact H1 |].
        repeat split; try reflexivity. intros Hk. now elim Hne. }
    destruct (L.sameJson entry after); [exact Hfrom1 |].
    pose proof (icon_then_push clk ok w1 Hwf1) as H. cbv zeta in H.
    destruct H as (Hm & _). rewrite Hm. intros Hk.
    apply get_filter_some in Hk; [|apply Hwf1].
    apply Hfrom1. exact (proj1 Hk).
  - cbn [snd]. intros Hk. exists r'. split; [exact Hk |].
    repeat split; try reflexivity.
    intros ->. rewrite Hget in Hk. discriminate.
Qed.

Lemma update_keeps_audible_state_witness :
  R.wf (R.audibleTabsMap world7popup)
  /\ L.ch_audible titleChange = None
  /\ JsMap.get 7
       (R.audibleTabsMap
          (R.exec (L.onUpdated sampleClock 7 titleChange retitledTab7
                     (fun _ => true)) world7popup))
     = Some {| R.id := 7; R.title := "Song B"; R.url := "u";
               R.audible := true; R.muted := false; R.lastActive := 100 |}
  /\ exists r,
      JsMap.get 7 (R.audibleTabsMap world7popup) = Some r
      /\ R.lastActive r = 100.
Proof.
  assert (Hg : JsMap.get 7
       (R.audibleTabsMap
          (R.exec (L.onUpdated sampleClock 7 titleChange retitledTab7
                     (fun _ => true)) world7popup))
     = Some {| R.id := 7; R.title := "Song B"; R.url := "u";
               R.audible := true; R.muted := false; R.lastActive := 100 |})
    by reflexivity.
  destruct (update_keeps_audible_state sampleClock 7 titleChange retitledTab7
              (fun _ => true) world7popup world7_wf eq_refl 7 _ Hg)
    as (r & Hr & _ & _ & Hla & _).
  split; [exact world7_wf |]. split; [reflexivity |]. split; [exact Hg |].
  exists r. split; [exact Hr | now rewrite <- Hla].
Defined.

(** ** More on popup ports *)

Lemma set_add_NoDup (p : nat) (s : list nat) :
  NoDup s -> NoDup (R.set_add p s).
Proof.
  intros Hnd. unfold R.set_add.
  destruct (existsb (Nat.eqb p) s) eqn:Hex; [exact Hnd |].
  apply NoDup_app; [exact Hnd | repeat constructor; simpl; tauto |].
  intros a Ha [<-|[]].
  assert (Htrue : existsb (Nat.eqb p) s = true).
  { apply existsb_exists. exists p. split; [exact Ha | apply Nat.eqb_refl]. }
  congruence.
Qed.

Lemma ports_nodup_step (clk : nat -> Z) (e : R.Event) (w : R.World) :
  NoDup (R.popupPorts w) ->
  NoDup (R.popupPorts (snd (R.step clk e w)))
  /\ NoDup (targets_of (fst (R.step clk e w))).
Proof.
  intros Hnd. pose proof (cache_events_frame clk e w) as Hframe.
  destruct e as [tab| | |k|port ok|q|ok];
    [ destruct Hframe as (Hp & _ & Ht); rewrite Hp, Ht;
      split; [exact Hnd | constructor] .. | | | ].
  - cbv [R.step R.onConnect R.bind R.getPorts R.putPorts R.getTabs R.ret
         R.addDisconnectListener].
    destruct (R.port_name port =? "popup")%string;
      [|split; [exact Hnd | constructor]].
    destruct ok; simpl;
      (split; [now apply set_add_NoDup | repeat constructor; simpl; tauto]).
  - cbv [R.step R.onDisconnect R.bind R.putPorts R.ret].
    destruct (existsb _ _); simpl; (split; [|constructor]);
      [now apply NoDup_filter | exact Hnd].
  - cbv [R.step R.bind R.ret].
    pose proof (push_targets ok w) as Ht.
    pose proof (push_ports_after ok w) as Hp.
    destruct (R.pushUpdateToPopup ok w) as [posts w1]. simpl in *.
    rewrite Ht, Hp. split; [now apply NoDup_filter | exact Hnd].
Qed.

Lemma ports_nodup_run (clk : nat -> Z) (es : list R.Event) :
  forall w,
    NoDup (R.popupPorts w) ->
    NoDup (R.popupPorts (snd (R.run clk es w)))
    /\ Forall (fun o => NoDup (targets_of o)) (fst (R.run clk es w)).
Proof.
  induction es as [|e es IH]; intros w Hnd; [split; [exact Hnd | constructor] |].
  rewrite run_cons. cbn [fst snd].
  destruct (ports_nodup_step clk e w Hnd) as [Hnd1 Ht].
  destruct (IH _ Hnd1) as [Hnd2 Hall].
  split; [exact Hnd2 | constructor; assumption].
Qed.

(** X10.  However ports connect, disconnect and fail during a run of the
    background page, [popupPorts] never holds a port twice, and no event
    posts to the same port twice: a popup receives each push once. *)
Theorem each_port_is_served_once (clk : nat -> Z) (es : list R.Event) :
  NoDup (R.popupPorts (R.exec (R.run clk es) R.initial))
  /\ (forall o, In o (R.eval (R.run clk es) R.initial) ->
                NoDup (targets_of o))
  /\ (forall ok,
        NoDup (map fst (R.eval (R.pushUpdateToPopup ok)
                          (R.exec (R.run clk es) R.initial)))).
Proof.
  destruct (ports_nodup_run clk es R.initial (NoDup_nil _)) as [Hnd Hall].
  split; [exact Hnd |]. split.
  - intros o Ho. rewrite Forall_forall in Hall. exact (Hall o Ho).
  - intros ok. unfold R.eval. rewrite push_targets. exact Hnd.
Qed.

Lemma not_popup_step (clk : nat -> Z) (p : nat) (e : R.Event) (w : R.World) :
  not_popup_connect p e = true ->
  ~ In p (R.popupPorts w) ->
  ~ In p (R.popupPorts (snd (R.step clk e w)))
  /\ ~ In p (targets_of (fst (R.step clk e w))).
Proof.
  intros Hq Hout.
  destruct (no_reconnect p e) eqn:Hno; [now apply absent_port_step |].
  destruct e as [tab| | |k|port ok|q|ok]; try discriminate.
  simpl in Hq, Hno. rewrite Hno in Hq. simpl in Hq.
  apply negb_true_iff in Hq.
  cbv [R.step R.onConnect R.bind R.getPorts R.putPorts R.getTabs R.ret
       R.addDisconnectListener].
  rewrite Hq. simpl. split; [exact Hout | tauto].
Qed.

(** X11.  A port is registered only if its [name] is ['popup']: a port
    that never connects under that name is never posted to, by the
    connection listener or by any push. *)
Theorem only_popup_ports_are_served
  (clk : nat -> Z) (p : nat) (es : list R.Event) :
  forallb (not_popup_connect p) es = true ->
  ~ In p (R.popupPorts (R.exec (R.run clk es) R.initial))
  /\ forall o, In o (R.eval (R.run clk es) R.initial) ->
               ~ In p (targets_of o).
Proof.
  intros Hq.
  assert (H : forall w, forallb (not_popup_connect p) es = true ->
                ~ In p (R.popupPorts w) ->
                ~ In p (R.popupPorts (snd (R.run clk es w)))
                /\ Forall (fun o => ~ In p (targets_of o))
                          (fst (R.run clk es w))).
  { clear Hq. induction es as [|e es IH]; intros w Hq Hout;
      [split; [exact Hout | constructor] |].
    simpl in Hq. apply andb_prop in Hq. destruct Hq as [Hqe Hqs].
    rewrite run_cons. cbn [fst snd].
    destruct (not_popup_step clk p e w Hqe Hout) as [Hout1 Ht].
    destruct (IH _ Hqs Hout1) as [Hout2 Hall].
    split; [exact Hout2 | constructor; assumption]. }
  destruct (H R.initial Hq (fun x => x)) as [Hout Hall].
  split; [exact Hout |].
  intros o Ho. rewrite Forall_forall in Hall. exact (Hall o Ho).
Qed.

Lemma only_popup_ports_are_served_witness :
  forallb (not_popup_connect 1)
          [R.EConnect devtoolsPort1 true; R.EUpsert (Some loudTab7);
           R.EConnect popupPort2 true; R.EPush (fun _ => true)] = true
  /\ ~ In 1%nat
       (R.popupPorts
          (R.exec (R.run sampleClock
                     [R.EConnect devtoolsPort1 true; R.EUpsert (Some loudTab7);
                      R.EConnect popupPort2 true; R.EPush (fun _ => true)])
                  R.initial)).
Proof.
  split; [reflexivity |].
  exact (proj1 (only_popup_ports_are_served sampleClock 1
                  [R.EConnect devtoolsPort1 true; R.EUpsert (Some loudTab7);
                   R.EConnect popupPort2 true; R.EPush (fun _ => true)]
                  eq_refl)).
Defined.

(** ** The cache follows the host's latest report *)

Lemma lastReport_cons (tid : Z) (t : option HostTab) (rest : list (option HostTab)) :
  lastReport tid (t :: rest)
  = match lastReport tid rest with
    | Some a => Some a
    | None => reportOf tid t
    end.
Proof. reflexivity. Qed.

Lemma upsertB_has (tid : Z) (t : option HostTab) (m : B.Cache) :
  B.wf m ->
  JsMap.has tid (snd (B.upsertFromTab t m))
  = match reportOf tid t with
    | Some a => a
    | None => JsMap.has tid m
    end.
Proof.
  intros [Hnd Hall]. destruct t as [tab|]; [|reflexivity].
  unfold reportOf. destruct (tab_id tab) as [k|] eqn:Hid;
    [|simpl; now rewrite Hid].
  rewrite (upsertB_unfold m tab k Hid).
  destruct (Z.eqb_spec k tid) as [->|Hne].
  - destruct (tab_audible tab); simpl.
    + unfold JsMap.has. now rewrite get_set_same.
    + destruct (JsMap.has tid m) eqn:Hhas; simpl; [|exact Hhas].
      unfold JsMap.has. now rewrite get_delete_same.
  - destruct (tab_audible tab); simpl.
    + unfold JsMap.has. now rewrite get_set_other.
    + destruct (JsMap.has k m); simpl; [|reflexivity].
      unfold JsMap.has. now rewrite get_delete_other.
Qed.

(** X12.  In src/background.js, after any sequence of tab snapshots has
    been passed to [upsertFromTab], a tab is in the cache exactly when
    the last snapshot that reported it said it was audible (and, if no
    snapshot reported it, exactly when it was there before); and every
    record of the cache built from nothing has [audible: true]. *)
Theorem legacy_cache_follows_last_report
  (tid : Z) (tabs : list (option HostTab)) (m : B.Cache) :
  B.wf m ->
  JsMap.has tid (B.upsertAll tabs m)
  = match lastReport tid tabs with
    | Some a => a
    | None => JsMap.has tid m
    end
  /\ Forall (fun r => B.audible r = true)
            (B.getAudibleTabs (B.upsertAll tabs JsMap.empty)).
Proof.
  intros Hwf. split.
  - revert m Hwf. unfold B.upsertAll.
    induction tabs as [|t rest IH]; intros m Hwf; [reflexivity |].
    simpl fold_left. rewrite lastReport_cons.
    rewrite IH by now apply wfB_upsert.
    destruct (lastReport tid rest); [reflexivity |].
    now apply upsertB_has.
  - unfold B.getAudibleTabs, JsMap.values. apply Forall_map.
    assert (H : forall m0 : B.Cache,
               Forall (fun e => B.audible (snd e) = true) m0 ->
               Forall (fun e => B.audible (snd e) = true)
                      (B.upsertAll tabs m0)).
    { unfold B.upsertAll. induction tabs as [|t rest IH]; intros m0 H0;
        [exact H0 |].
      simpl. apply IH. destruct t as [tab|]; [|exact H0].
      destruct (tab_id tab) as [k|] eqn:Hid; [|simpl; now rewrite Hid].
      rewrite (upsertB_unfold m0 tab k Hid).
      destruct (tab_audible tab); simpl.
      - now apply Forall_set_entry.
      - destruct (JsMap.has k m0); simpl; [now apply Forall_delete | exact H0]. }
    apply H. constructor.
Qed.

Lemma legacy_cache_follows_last_report_witness :
  B.wf legacyCache7
  /\ JsMap.has 7 (B.upsertAll [Some silentTab7; Some loudTab8; None]
                              legacyCache7) = false
  /\ JsMap.has 8 (B.upsertAll [Some silentTab7; Some loudTab8; None]
                              legacyCache7) = true.
Proof.
  assert (Hwf : B.wf legacyCache7).
  { split; [simpl; constructor; [simpl; tauto | constructor] |
            repeat constructor]. }
  split; [exact Hwf |].
  rewrite (proj1 (legacy_cache_follows_last_report 7
                    [Some silentTab7; Some loudTab8; None] legacyCache7 Hwf)).
  rewrite (proj1 (legacy_cache_follows_last_report 8
                    [Some silentTab7; Some loudTab8; None] legacyCache7 Hwf)).
  split; reflexivity.
Defined.

Lemma upsert_flag (clk : nat -> Z) (tid : Z) (t : option HostTab) (w : R.World) :
  match reportOf tid t with
  | Some a =>
      cachedFlag tid a (R.audibleTabsMap (snd (R.upsertFromTab clk t w)))
  | None =>
      JsMap.get tid (R.audibleTabsMap (snd (R.upsertFromTab clk t w)))
      = JsMap.get tid (R.audibleTabsMap w)
  end.
Proof.
  destruct t as [tab|]; [|reflexivity].
  unfold reportOf. destruct (tab_id tab) as [k|] eqn:Hid;
    [|simpl; now rewrite Hid].
  rewrite (upsert_unfold clk w tab k Hid). cbv zeta.
  destruct (Z.eqb_spec k tid) as [->|Hne].
  - unfold cachedFlag. destruct (tab_audible tab); simpl.
    + eexists. split; [apply get_set_same | reflexivity].
    + destruct (JsMap.get tid (R.audibleTabsMap w)) as [e|] eqn:Hg; simpl.
      * intros r. rewrite get_set_same. now intros [= <-].
      * intros r. rewrite Hg. discriminate.
  - destruct (tab_audible tab); simpl.
    + now apply get_set_other.
    + destruct (JsMap.get k (R.audibleTabsMap w)); simpl;
        [now apply get_set_other | reflexivity].
Qed.

(** The flag cached for a tab after a sequence of snapshots. *)
Lemma upsertAll_flag
  (clk : nat -> Z) (tid : Z) (tabs : list (option HostTab)) (w : R.World) :
  match lastReport tid tabs with
  | Some a =>
      cachedFlag tid a (R.audibleTabsMap (R.exec (R.upsertAll clk tabs) w))
  | None =>
      JsMap.get tid (R.audibleTabsMap (R.exec (R.upsertAll clk tabs) w))
      = JsMap.get tid (R.audibleTabsMap w)
  end.
Proof.
  revert w. induction tabs as [|t rest IH]; intros w; [reflexivity |].
  rewrite lastReport_cons. unfold R.exec.
  change (R.upsertAll clk (t :: rest))
    with (R.bind (R.upsertFromTab clk t) (fun _ => R.upsertAll clk rest)).
  rewrite bind_eq.
  specialize (IH (snd (R.upsertFromTab clk t w))). unfold R.exec in IH.
  destruct (lastReport tid rest) as [a|]; [exact IH |].
  pose proof (upsert_flag clk tid t w) as Hstep.
  destruct (reportOf tid t) as [a|]; [|now rewrite IH].
  unfold cachedFlag in *. rewrite IH. exact Hstep.
Qed.

(** X13.  In the retaining script, after any sequence of tab snapshots
    has been passed to [upsertFromTab], the [audible] flag of a cached
    record is what the last snapshot reporting that tab said: if it said
    audible the record is cached with [audible: true], if it said not
    audible then any record cached for the tab has [audible: false]; a
    tab that no snapshot reported keeps the record it had. *)
Theorem cached_flag_follows_last_report
  (clk : nat -> Z) (tid : Z) (tabs : list (option HostTab)) (w : R.World) :
  match lastReport tid tabs with
  | Some a =>
      cachedFlag tid a (R.audibleTabsMap (R.exec (R.upsertAll clk tabs) w))
  | None =>
      JsMap.get tid (R.audibleTabsMap (R.exec (R.upsertAll clk tabs) w))
      = JsMap.get tid (R.audibleTabsMap w)
  end.
Proof. exact (upsertAll_flag clk tid tabs w). Qed.

(** ** Commands that stamp the cache *)

(** X14.  When [toggle_play_pause] is answered for a cached tab, the
    record takes the reported play state as its [audible] flag and the
    clock value read by the callback as its [lastActive], whatever both
    were; its other fields and the other records stay.  So a tab paused
    from the popup is retained for [TAB_RETENTION_MS] counted from that
    moment, and one reported playing is not evicted by the next
    clean-up. *)
Theorem toggle_restamps_the_record
  (clk : nat -> Z) (w : R.World) (tabId : Z) (isPlaying : bool)
  (ok : nat -> bool) (entry : R.TabRecord) :
  R.wf (R.audibleTabsMap w) ->
  JsMap.get tabId (R.audibleTabsMap w) = Some entry ->
  let toggle := R.bind (L.stampBeforeToggle clk tabId)
                       (fun _ => L.reflectPlayState clk tabId isPlaying ok) in
  let w1 := R.exec toggle w in
  let r1 := {| R.id := R.id entry; R.title := R.title entry;
               R.url := R.url entry; R.audible := isPlaying;
               R.muted := R.muted entry;
               R.lastActive := clk (S (R.reads w)) |} in
  JsMap.get tabId (R.audibleTabsMap w1) = Some r1
  /\ (forall k, k <> tabId ->
        JsMap.get k (R.audibleTabsMap w1) = JsMap.get k (R.audibleTabsMap w))
  /\ map fst (R.eval toggle w) = R.popupPorts w
  /\ R.reads w1 = S (S (R.reads w))
  /\ JsMap.get tabId (R.audibleTabsMap (R.exec (R.cleanupOldTabs clk) w1))
     = if negb isPlaying
          && (R.TAB_RETENTION_MS <=? clk (S (S (R.reads w))) - clk (S (R.reads w)))
       then None else Some r1.
Proof.
  intros Hwf Hget toggle w1 r1. subst w1 toggle. unfold R.exec, R.eval.
  rewrite bind_eq.
  assert (Hstamp : L.stampBeforeToggle clk tabId w
                   = (tt, ticked w
                            (JsMap.set tabId
                               {| R.id := R.id entry; R.title := R.title entry;
                                  R.url := R.url entry;
                                  R.audible := R.audible entry;
                                  R.muted := R.muted entry;
                                  R.lastActive := clk (R.reads w) |}
                               (R.audibleTabsMap w)))).
  { unfold L.stampBeforeToggle. rewrite bind_eq. cbn [R.getTabs fst snd].
    rewrite Hget. reflexivity. }
  rewrite Hstamp. cbn [fst snd].
  set (e0 := {| R.id := R.id entry; R.title := R.title entry;
                R.url := R.url entry; R.audible := R.audible entry;
                R.muted := R.muted entry; R.lastActive := clk (R.reads w) |}).
  set (w0 := ticked w (JsMap.set tabId e0 (R.audibleTabsMap w))).
  assert (Hid : R.id entry = tabId) by exact (wf_get_id _ _ _ Hwf Hget).
  assert (Hwf0 : R.wf (R.audibleTabsMap w0)) by (apply wf_set; assumption).
  assert (Hrefl : L.reflectPlayState clk tabId isPlaying ok w0
                  = R.pushUpdateToPopup ok
                      (ticked w0 (JsMap.set tabId r1 (R.audibleTabsMap w0)))).
  { unfold L.reflectPlayState. rewrite bind_eq. cbn [R.getTabs fst snd].
    change (R.audibleTabsMap w0)
      with (JsMap.set tabId e0 (R.audibleTabsMap w)).
    rewrite get_set_same.
    rewrite bind_eq. rewrite bind_eq. reflexivity. }
  rewrite Hrefl.
  set (w2 := ticked w0 (JsMap.set tabId r1 (R.audibleTabsMap w0))).
  assert (Hwf2 : R.wf (R.audibleTabsMap w2)) by (apply wf_set; assumption).
  pose proof (push_targets ok w2) as Ht.
  pose proof (push_unfold ok w2) as Hpush.
  assert (Hm3 : R.audibleTabsMap (snd (R.pushUpdateToPopup ok w2))
                = R.audibleTabsMap w2
                /\ R.reads (snd (R.pushUpdateToPopup ok w2)) = R.reads w2).
  { rewrite Hpush. destruct (List.length _ =? 0)%nat; split; reflexivity. }
  destruct Hm3 as [Hm3 Hr3].
  assert (Hg2 : JsMap.get tabId (R.audibleTabsMap w2) = Some r1)
    by apply get_set_same.
  split; [now rewrite Hm3 |].
  split.
  { intros k Hk. rewrite Hm3. simpl.
    rewrite !get_set_other by (intros Heq; apply Hk; now symmetry).
    reflexivity. }
  split; [exact Ht |]. split; [now rewrite Hr3 |].
  assert (Hwf3 : R.wf (R.audibleTabsMap (snd (R.pushUpdateToPopup ok w2))))
    by now rewrite Hm3.
  rewrite cleanup_unfold by apply Hwf3. cbn [snd ticked R.audibleTabsMap].
  rewrite Hm3, Hr3. simpl R.reads. unfold evicted.
  destruct (negb isPlaying
            && (R.TAB_RETENTION_MS
                <=? clk (S (S (R.reads w))) - clk (S (R.reads w)))) eqn:Hst.
  - apply (get_filter_removed _ tabId r1); [apply Hwf2 | exact Hg2 |].
    simpl. unfold R.isStale. simpl. now rewrite Hst.
  - apply get_filter_kept; [exact Hg2 |].
    simpl. unfold R.isStale. simpl. now rewrite Hst.
Qed.

Lemma toggle_restamps_the_record_witness :
  R.wf (R.audibleTabsMap world7popup)
  /\ JsMap.get 7 (R.audibleTabsMap world7popup)
     = Some (freshRecord loudTab7 7 100)
  /\ JsMap.get 7
       (R.audibleTabsMap
          (R.exec (R.bind (L.stampBeforeToggle sampleClock 7)
                     (fun _ => L.reflectPlayState sampleClock 7 false
                                 (fun _ => true)))
                  world7popup))
     = Some (silentRecord7 1002).
Proof.
  split; [exact world7_wf |]. split; [reflexivity |].
  exact (proj1 (toggle_restamps_the_record sampleClock world7popup 7 false
                  (fun _ => true) (freshRecord loudTab7 7 100)
                  world7_wf eq_refl)).
Defined.

(** X15.  At start-up the cache is filled from the host's list of tabs
    and the icon is refreshed: if the last snapshot of some tab in the
    list says it is audible, the icon set is the sound-on icon, whatever
    the clock says. *)
Theorem startup_icon_is_on
  (clk : nat -> Z) (tabs : list (option HostTab)) (tid : Z) :
  lastReport tid tabs = Some true ->
  fst (R.eval (L.init clk tabs) R.initial) = "icons/icon-sound-on-48.png".
Proof.
  intros Hlast. unfold R.eval, L.init. rewrite bind_eq.
  pose proof (upsertAll_flag clk tid tabs R.initial) as Hflag.
  rewrite Hlast in Hflag. unfold R.exec, cachedFlag in Hflag.
  destruct Hflag as [r [Hget Ha]].
  assert (Hwf : R.wf (R.audibleTabsMap (snd (R.upsertAll clk tabs R.initial)))).
  { apply (wf_upsertAll clk tabs R.initial). split; constructor. }
  set (w1 := snd (R.upsertAll clk tabs R.initial)) in *.
  unfold R.updateIconForMediaTabs. rewrite bind_eq. cbn [R.ret fst].
  assert (Hin : In r (fst (R.getAudibleTabs clk w1))).
  { rewrite getAudibleTabs_unfold by apply Hwf.
    pose proof (filterTabs_spec clk
                  (JsMap.values (evicted (clk (R.reads w1)) (R.audibleTabsMap w1)))
                  (ticked w1 (evicted (clk (R.reads w1)) (R.audibleTabsMap w1))))
      as H. cbv zeta in H.
    destruct H as (_ & _ & _ & _ & _ & Hcomplete).
    apply Hcomplete; [|now left].
    assert (Hk : JsMap.get tid (evicted (clk (R.reads w1)) (R.audibleTabsMap w1))
                 = Some r).
    { apply get_filter_kept; [exact Hget |]. simpl. unfold R.isStale.
      now rewrite Ha. }
    apply get_in in Hk. apply in_map_iff. exists (tid, r).
    split; [reflexivity | exact Hk]. }
  destruct (fst (R.getAudibleTabs clk w1)) as [|x l]; [destruct Hin |].
  assert (Hpos : (Z.of_nat (List.length (x :: l)) >? 0) = true).
  { apply Z.gtb_lt. simpl List.length. lia. }
  now rewrite Hpos.
Qed.

Lemma startup_icon_is_on_witness :
  lastReport 8 [Some silentTab7; Some loudTab8] = Some true
  /\ fst (R.eval (L.init sampleClock [Some silentTab7; Some loudTab8])
                 R.initial)
     = "icons/icon-sound-on-48.png".
Proof.
  split; [reflexivity |].
  exact (startup_icon_is_on sampleClock [Some silentTab7; Some loudTab8] 8
           eq_refl).
Defined.

(* ================================================================= *)
(** * Further properties of the skip resolver *)

(** ** What each strategy can return and do *)

Lemma buttonClick_shape (p : Dom.Page) (selectors : list string) :
  (fst (Dom.buttonClick p selectors) = None
   /\ snd (Dom.buttonClick p selectors) = [])
  \/ exists e, Dom.buttonClick p selectors
               = (Some (Dom.Success "button-click"), [Dom.Click e]).
Proof.
  unfold Dom.buttonClick.
  destruct (Dom.firstVisibleButton p selectors) as [e|];
    [right; now exists (Dom.el_id e) | left; split; reflexivity].
Qed.

Lemma mediaSessionProbe_shape (p : Dom.Page) (isNext : bool) :
  (fst (Dom.mediaSessionProbe p isNext) = None
   \/ fst (Dom.mediaSessionProbe p isNext) = Some (Dom.Success "media-session"))
  /\ forallb (fun e => negb (isKeyDispatch e) && negb (isClick e))
             (snd (Dom.mediaSessionProbe p isNext)) = true.
Proof.
  unfold Dom.mediaSessionProbe.
  destruct (Dom.mediaSession p) as [ms|]; [|split; [now left | reflexivity]].
  destruct isNext, (Dom.ms_setActionHandler ms) as [set_ok|];
    try (split; [now left | reflexivity]);
    unfold Dom.sessionAttempt;
    destruct (set_ok _); try (split; [now left | reflexivity]);
    destruct (Dom.ms_dispatch_ok ms _); split;
      (reflexivity || (now left) || (now right)).
Qed.

Lemma tryPlayers_shape (isNext : bool) (players : list Dom.Player) :
  (fst (Dom.tryPlayers isNext players) = None
   \/ fst (Dom.tryPlayers isNext players)
      = Some (Dom.Success (if isNext then "player-api-next"
                           else "player-api-prev")))
  /\ forallb (fun e => negb (isKeyDispatch e) && negb (isClick e))
             (snd (Dom.tryPlayers isNext players)) = true.
Proof.
  induction players as [|pl rest [IHr IHt]]; [split; [now left | reflexivity] |].
  simpl. destruct isNext; simpl.
  - destruct (Dom.nextTrack pl) as [[|]|]; simpl;
      [split; [now right | reflexivity] | split; assumption | split; assumption].
  - destruct (Dom.previousTrack pl) as [[|]|]; simpl;
      [split; [now right | reflexivity] | split; assumption | split; assumption].
Qed.

Lemma playerApiProbe_shape (p : Dom.Page) (isNext : bool) :
  (fst (Dom.playerApiProbe p isNext) = None
   \/ fst (Dom.playerApiProbe p isNext)
      = Some (Dom.Success (if isNext then "player-api-next"
                           else "player-api-prev")))
  /\ forallb (fun e => negb (isKeyDispatch e) && negb (isClick e))
             (snd (Dom.playerApiProbe p isNext)) = true.
Proof.
  unfold Dom.playerApiProbe.
  destruct (Dom.videojs_getPlayers p) as [[|l]|].
  - split; [now left | reflexivity].
  - destruct (tryPlayers_shape isNext (l ++ Dom.commonPlayerObjects p))
      as [Hr Ht]. split; [exact Hr | exact Ht].
  - apply tryPlayers_shape.
Qed.

Lemma keyboardProbe_shape (p : Dom.Page) (isNext : bool) :
  (fst (Dom.keyboardProbe p isNext) = None
   \/ fst (Dom.keyboardProbe p isNext) = Some (Dom.Success "keyboard-events"))
  /\ forallb (fun e => negb (isClick e)) (snd (Dom.keyboardProbe p isNext))
     = true.
Proof.
  unfold Dom.keyboardProbe.
  destruct (Dom.keyboardEvent_ok p); [|split; [now left | reflexivity]].
  cbn [fst snd]. split; [|reflexivity].
  destruct (fold_left _ Dom.targets false); [now right | now left].
Qed.

Lemma orElse_some (a b : Dom.Attempt) (r : Dom.SkipResult) :
  fst a = Some r -> Dom.orElse a b = (Some r, snd a).
Proof.
  destruct a as [[r0|] t]; simpl; [intros [= ->]; reflexivity | discriminate].
Qed.

Lemma orElse_unit (b : Dom.Attempt) : Dom.orElse (None, []) b = b.
Proof. now destruct b. Qed.

(** The chain of the four strategies, by cases on where it stops. *)
Lemma attempts_cases (p : Dom.Page) (isNext : bool) (selectors : list string) :
  let chain := Dom.orElse (Dom.buttonClick p selectors)
                 (Dom.orElse (Dom.mediaSessionProbe p isNext)
                    (Dom.orElse (Dom.playerApiProbe p isNext)
                       (Dom.keyboardProbe p isNext))) in
  (exists e, fst (Dom.buttonClick p selectors)
             = Some (Dom.Success "button-click")
             /\ chain = (Some (Dom.Success "button-click"), [Dom.Click e]))
  \/ (fst (Dom.buttonClick p selectors) = None
      /\ ((chain = (Some (Dom.Success "media-session"),
                    snd (Dom.mediaSessionProbe p isNext)))
          \/ (fst (Dom.mediaSessionProbe p isNext) = None
              /\ ((chain = (Some (Dom.Success (if isNext then "player-api-next"
                                               else "player-api-prev")),
                            snd (Dom.mediaSessionProbe p isNext)
                            ++ snd (Dom.playerApiProbe p isNext)))
                  \/ (fst (Dom.playerApiProbe p isNext) = None
                      /\ chain = (fst (Dom.keyboardProbe p isNext),
                                  snd (Dom.mediaSessionProbe p isNext)
                                  ++ snd (Dom.playerApiProbe p isNext)
                                  ++ snd (Dom.keyboardProbe p isNext))))))).
Proof.
  cbv zeta.
  destruct (buttonClick_shape p selectors) as [[Hb Hbt]|[e Hb]].
  - right. split; [exact Hb |].
    assert (Hbc : Dom.buttonClick p selectors = (None, []))
      by (destruct (Dom.buttonClick p selectors); simpl in *; congruence).
    rewrite Hbc, orElse_unit.
    destruct (mediaSessionProbe_shape p isNext) as [[Hm|Hm] _].
    + right. split; [exact Hm |]. rewrite (orElse_none _ _ Hm).
      destruct (playerApiProbe_shape p isNext) as [[Hp|Hp] _].
      * right. split; [exact Hp |]. rewrite (orElse_none _ _ Hp). reflexivity.
      * left. rewrite (orElse_some _ _ _ Hp). reflexivity.
    + left. now rewrite (orElse_some _ _ _ Hm).
  - left. exists e. now rewrite Hb.
Qed.

Lemma injected_is_fourStrategies (p : Dom.Page) (d : string) :
  S0.skipTrack p d
  = Dom.finish (fourStrategies p (d =? "next")%string
                  (S0.buttonSelectors (d =? "next")%string)).
Proof. reflexivity. Qed.

(** The content script's second button loop adds nothing. *)
Lemma content_attempts_eq (p : Dom.Page) (isNext : bool) (selectors : list string) :
  S1.attempts p isNext selectors = fourStrategies p isNext selectors.
Proof.
  unfold S1.attempts, fourStrategies.
  destruct (fst (Dom.buttonClick p selectors)) as [r|] eqn:Hb.
  - now rewrite !(orElse_some _ _ _ Hb).
  - destruct (buttonClickAgain_none p selectors Hb) as [_ Hagain].
    now rewrite Hagain, orElse_unit.
Qed.

Lemma content_is_fourStrategies (p : Dom.Page) (now : Z) (cache : S1.MediaCache)
      (d : string) (selectors : list string) :
  selectors_for d selectors ->
  fst (S1.skipTrack p now cache d)
  = (S1.Returned
       (fst (Dom.finish (fourStrategies p (d =? "next")%string selectors))),
     snd (Dom.finish (fourStrategies p (d =? "next")%string selectors))).
Proof.
  intros Hsel. unfold S1.skipTrack.
  destruct (S1.getMediaElements p now cache) as [els cache'].
  destruct Hsel as [Hown|[Hmiss ->]].
  - now rewrite Hown, content_attempts_eq.
  - now rewrite Hmiss, content_attempts_eq.
Qed.

Lemma fourStrategies_result (p : Dom.Page) (isNext : bool) (selectors : list string) :
  In (fst (Dom.finish (fourStrategies p isNext selectors)))
     (possibleResults isNext)
  /\ (fst (Dom.finish (fourStrategies p isNext selectors)) = Dom.exhausted
      <-> fst (Dom.buttonClick p selectors) = None
          /\ fst (Dom.mediaSessionProbe p isNext) = None
          /\ fst (Dom.playerApiProbe p isNext) = None
          /\ fst (Dom.keyboardProbe p isNext) = None).
Proof.
  pose proof (attempts_cases p isNext selectors) as H. cbv zeta in H.
  fold (fourStrategies p isNext selectors) in H.
  assert (Hnone : fst (Dom.buttonClick p selectors) = None
                  /\ fst (Dom.mediaSessionProbe p isNext) = None
                  /\ fst (Dom.playerApiProbe p isNext) = None
                  /\ fst (Dom.keyboardProbe p isNext) = None ->
                  fst (fourStrategies p isNext selectors) = None).
  { intros (Hb & Hm & Hp & Hk). unfold fourStrategies.
    now rewrite (orElse_none _ _ Hb), (orElse_none _ _ Hm),
      (orElse_none _ _ Hp). }
  destruct H as [[e [Hb1 He]]|[Hb [Hm|[Hm [Hp|[Hp Hk]]]]]].
  - rewrite He. simpl. split; [now left |].
    split; [discriminate |]. intros Hc. apply Hnone in Hc.
    rewrite He in Hc. discriminate.
  - rewrite Hm. simpl. split; [right; now left |].
    split; [discriminate |]. intros Hc. apply Hnone in Hc.
    rewrite Hm in Hc. discriminate.
  - rewrite Hp. simpl. split; [right; right; now left |].
    split; [destruct isNext; discriminate |]. intros Hc. apply Hnone in Hc.
    rewrite Hp in Hc. discriminate.
  - rewrite Hk.
    destruct (keyboardProbe_shape p isNext) as [[Hkb|Hkb] _]; rewrite Hkb; simpl.
    + split; [right; right; right; right; now left |].
      split; [intros _; repeat split; assumption | reflexivity].
    + split; [right; right; right; now left |].
      split; [discriminate |]. intros (_ & _ & _ & Hk'). congruence.
Qed.

(** X16.  [skipTrack] returns one of five results: a success whose
    method is ['button-click'], ['media-session'], ['player-api-next']
    (only for ['next']) or ['player-api-prev'] (only for another
    direction), or ['keyboard-events'], or the failure that lists the
    four methods; and it returns the failure exactly when all four
    strategies fell through.  The content script does the same, with
    its own selector list, for every direction whose selector list can
    be iterated (the empty list where the table has no entry), and
    otherwise throws before touching the page. *)
Theorem skipTrack_result_shape
  (p : Dom.Page) (now : Z) (cache : S1.MediaCache) (d : string) :
  let isNext := (d =? "next")%string in
  let fell_through selectors :=
    fst (Dom.buttonClick p selectors) = None
    /\ fst (Dom.mediaSessionProbe p isNext) = None
    /\ fst (Dom.playerApiProbe p isNext) = None
    /\ fst (Dom.keyboardProbe p isNext) = None in
  let content selectors :=
    exists r, fst (fst (S1.skipTrack p now cache d)) = S1.Returned r
              /\ In r (possibleResults isNext)
              /\ (r = Dom.exhausted <-> fell_through selectors) in
  In (fst (S0.skipTrack p d)) (possibleResults isNext)
  /\ (fst (S0.skipTrack p d) = Dom.exhausted
      <-> fell_through (S0.buttonSelectors isNext))
  /\ match S1.commonButtonSelectors d with
     | S1.Own selectors => content selectors
     | S1.Missing => content []
     | S1.Inherited => fst (S1.skipTrack p now cache d) = (S1.Threw, [])
     end.
Proof.
  intros isNext fell_through content.
  rewrite injected_is_fourStrategies. fold isNext.
  split; [apply fourStrategies_result |].
  split; [apply fourStrategies_result |].
  destruct (S1.commonButtonSelectors d) as [selectors| |] eqn:Hsel.
  - unfold content.
    rewrite (content_is_fourStrategies p now cache d selectors)
      by (left; exact Hsel).
    eexists. split; [reflexivity |]. apply fourStrategies_result.
  - unfold content.
    rewrite (content_is_fourStrategies p now cache d [])
      by (right; split; [exact Hsel | reflexivity]).
    eexists. split; [reflexivity |]. apply fourStrategies_result.
  - unfold S1.skipTrack. rewrite Hsel.
    destruct (S1.getMediaElements p now cache); reflexivity.
Qed.

Lemma quiet_effects (l : list Dom.Effect) :
  forallb (fun e => negb (isKeyDispatch e) && negb (isClick e)) l = true ->
  existsb isKeyDispatch l = false /\ existsb isClick l = false.
Proof.
  induction l as [|e l IH]; simpl; [split; reflexivity |].
  intros H. apply andb_prop in H. destruct H as [He Hl].
  apply andb_prop in He. destruct He as [Hk Hc].
  apply negb_true_iff in Hk, Hc. rewrite Hk, Hc. now apply IH.
Qed.

Lemma fourStrategies_effects (p : Dom.Page) (isNext : bool) (selectors : list string) :
  let r := fourStrategies p isNext selectors in
  (existsb isKeyDispatch (snd r) = true ->
   fst (Dom.buttonClick p selectors) = None
   /\ fst (Dom.mediaSessionProbe p isNext) = None
   /\ fst (Dom.playerApiProbe p isNext) = None)
  /\ (existsb isClick (snd r) = true ->
      exists e, r = (Some (Dom.Success "button-click"), [Dom.Click e])).
Proof.
  cbv zeta.
  pose proof (attempts_cases p isNext selectors) as H. cbv zeta in H.
  fold (fourStrategies p isNext selectors) in H.
  destruct (mediaSessionProbe_shape p isNext) as [_ Hmt].
  destruct (playerApiProbe_shape p isNext) as [_ Hpt].
  destruct (keyboardProbe_shape p isNext) as [_ Hkt].
  destruct (quiet_effects _ Hmt) as [Hmk Hmc].
  destruct (quiet_effects _ Hpt) as [Hpk Hpc].
  assert (Hkc : existsb isClick (snd (Dom.keyboardProbe p isNext)) = false).
  { destruct (existsb isClick (snd (Dom.keyboardProbe p isNext))) eqn:Hex;
      [|reflexivity].
    apply existsb_exists in Hex. destruct Hex as [x [Hx Hc]].
    rewrite forallb_forall in Hkt. specialize (Hkt x Hx).
    rewrite Hc in Hkt. discriminate. }
  destruct H as [[e [Hb1 He]]|[Hb [Hm|[Hm [Hp|[Hp Hk]]]]]].
  - rewrite He. simpl. split; [discriminate | intros _; now exists e].
  - rewrite Hm. cbn [snd]. rewrite Hmk, Hmc. split; discriminate.
  - rewrite Hp. cbn [snd]. rewrite !existsb_app, Hmk, Hmc, Hpk, Hpc.
    split; discriminate.
  - rewrite Hk. cbn [snd]. rewrite !existsb_app, Hmc, Hpc, Hkc.
    split; [intros _; repeat split; assumption | discriminate].
Qed.

(** X17.  Key events are a last resort and a click excludes everything
    else: if [skipTrack] dispatched a key event then the button, the
    media-session and the player strategies had all fallen through; and
    if it clicked an element then that click is all it did and the
    result is the ['button-click'] success.  Both scripts. *)
Theorem key_events_are_the_last_resort
  (p : Dom.Page) (now : Z) (cache : S1.MediaCache) (d : string) :
  let isNext := (d =? "next")%string in
  (existsb isKeyDispatch (snd (S0.skipTrack p d)) = true ->
   fst (Dom.buttonClick p (S0.buttonSelectors isNext)) = None
   /\ fst (Dom.mediaSessionProbe p isNext) = None
   /\ fst (Dom.playerApiProbe p isNext) = None)
  /\ (existsb isClick (snd (S0.skipTrack p d)) = true ->
      exists e, S0.skipTrack p d
                = (Dom.Success "button-click", [Dom.Click e]))
  /\ (forall selectors,
        selectors_for d selectors ->
        (existsb isKeyDispatch (snd (fst (S1.skipTrack p now cache d))) = true ->
         fst (Dom.buttonClick p selectors) = None
         /\ fst (Dom.mediaSessionProbe p isNext) = None
         /\ fst (Dom.playerApiProbe p isNext) = None)
        /\ (existsb isClick (snd (fst (S1.skipTrack p now cache d))) = true ->
            exists e, fst (S1.skipTrack p now cache d)
                      = (S1.Returned (Dom.Success "button-click"),
                         [Dom.Click e]))).
Proof.
  intros isNext.
  assert (Hgen : forall selectors,
             let r := Dom.finish (fourStrategies p isNext selectors) in
             (existsb isKeyDispatch (snd r) = true ->
              fst (Dom.buttonClick p selectors) = None
              /\ fst (Dom.mediaSessionProbe p isNext) = None
              /\ fst (Dom.playerApiProbe p isNext) = None)
             /\ (existsb isClick (snd r) = true ->
                 exists e, r = (Dom.Success "button-click", [Dom.Click e]))).
  { intros selectors. cbv zeta.
    pose proof (fourStrategies_effects p isNext selectors) as H. cbv zeta in H.
    destruct (fourStrategies p isNext selectors) as [[r|] t]; simpl in *.
    - destruct H as [Hk Hc]. split; [exact Hk |].
      intros Hx. destruct (Hc Hx) as [e [= -> ->]]. now exists e.
    - destruct H as [Hk Hc]. split; [exact Hk |].
      intros Hx. destruct (Hc Hx) as [e He]. discriminate. }
  rewrite injected_is_fourStrategies. fold isNext.
  split; [apply Hgen |]. split; [apply Hgen |].
  intros selectors Hsel.
  rewrite (content_is_fourStrategies p now cache d selectors Hsel).
  fold isNext. cbn [fst snd].
  destruct (Hgen selectors) as [Hk Hc]. split; [exact Hk |].
  intros Hx. destruct (Hc Hx) as [e He]. exists e. now rewrite He.
Qed.

(** ** The player loop *)

(** X18.  The loop over the collected players succeeds exactly when
    some player's method for the direction is a function whose call
    returns: a player without the method is passed over and a player
    whose call throws does not stop the loop.  Every call it makes is a
    call of that method on a player of the list that has it. *)
Theorem player_loop_finds_the_first_that_works
  (isNext : bool) (players : list Dom.Player) :
  (fst (Dom.tryPlayers isNext players)
   = Some (Dom.Success (if isNext then "player-api-next" else "player-api-prev"))
   <-> exists pl, In pl players /\ trackMethod isNext pl = Some true)
  /\ (fst (Dom.tryPlayers isNext players) = None
      <-> forall pl, In pl players -> trackMethod isNext pl <> Some true)
  /\ (forall e, In e (snd (Dom.tryPlayers isNext players)) ->
        exists pl, In pl players
                   /\ Dom.is_function (trackMethod isNext pl) = true
                   /\ e = trackCall isNext pl).
Proof.
  assert (Hstep : forall pl rest,
             Dom.tryPlayers isNext (pl :: rest)
             = match trackMethod isNext pl with
               | Some true =>
                   (Some (Dom.Success (if isNext then "player-api-next"
                                       else "player-api-prev")),
                    [trackCall isNext pl])
               | Some false =>
                   (fst (Dom.tryPlayers isNext rest),
                    trackCall isNext pl :: snd (Dom.tryPlayers isNext rest))
               | None => Dom.tryPlayers isNext rest
               end).
  { intros pl rest. unfold trackMethod, trackCall. simpl.
    destruct isNext; simpl.
    - destruct (Dom.nextTrack pl) as [[|]|]; reflexivity.
    - destruct (Dom.previousTrack pl) as [[|]|]; reflexivity. }
  induction players as [|pl rest (IH1 & IH2 & IH3)].
  - simpl. split; [split; [discriminate | intros [pl [[] _]]] |].
    split; [split; [intros _ pl [] | reflexivity] | intros e []].
  - rewrite Hstep. destruct (trackMethod isNext pl) as [[|]|] eqn:Hm.
    + cbn [fst snd]. split; [split; [intros _; exists pl; split;
                                       [now left | exact Hm] | reflexivity] |].
      split.
      * split; [discriminate |]. intros H. elim (H pl (or_introl eq_refl) Hm).
      * intros e [<-|[]]. exists pl. split; [now left |].
        split; [now rewrite Hm | reflexivity].
    + cbn [fst snd]. split; [|split].
      * rewrite IH1. split.
        -- intros [x [Hx Hxm]]. exists x. split; [now right | exact Hxm].
        -- intros [x [[<-|Hx] Hxm]]; [congruence | now exists x].
      * rewrite IH2. split.
        -- intros H x [<-|Hx]; [congruence | now apply H].
        -- intros H x Hx. apply H. now right.
      * intros e [<-|He].
        -- exists pl. split; [now left |]. split; [now rewrite Hm | reflexivity].
        -- destruct (IH3 e He) as [x [Hx Hrest]]. exists x.
           split; [now right | exact Hrest].
    + split; [|split].
      * rewrite IH1. split.
        -- intros [x [Hx Hxm]]. exists x. split; [now right | exact Hxm].
        -- intros [x [[<-|Hx] Hxm]]; [congruence | now exists x].
      * rewrite IH2. split.
        -- intros H x [<-|Hx]; [congruence | now apply H].
        -- intros H x Hx. apply H. now right.
      * intros e He. destruct (IH3 e He) as [x [Hx Hrest]]. exists x.
        split; [now right | exact Hrest].
Qed.

(** X19.  A global player object ([window.player] and the like) is
    collected only if its [nextTrack] is a function, in both directions:
    on a page without video.js whose global players have no [nextTrack]
    function, the player strategy calls nothing and falls through, also
    for the previous direction and also when such a player has a
    [previousTrack] function. *)
Theorem global_players_need_nextTrack (p : Dom.Page) (isNext : bool) :
  Dom.videojs_getPlayers p = None ->
  (forall name pl, In name Dom.commonPlayers ->
                   Dom.window_global p name = Some pl ->
                   Dom.nextTrack pl = None) ->
  Dom.playerApiProbe p isNext = (None, []).
Proof.
  intros Hvjs Hglobals. unfold Dom.playerApiProbe. rewrite Hvjs.
  assert (Hnone : Dom.commonPlayerObjects p = []).
  { unfold Dom.commonPlayerObjects.
    assert (H : forall names, (forall n, In n names -> In n Dom.commonPlayers) ->
              flat_map
                (fun name =>
                   match Dom.window_global p name with
                   | Some pl => if Dom.is_function (Dom.nextTrack pl)
                                then [pl] else []
                   | None => []
                   end) names = []).
    { induction names as [|n names IH]; intros Hin; [reflexivity |].
      simpl. rewrite IH by (intros x Hx; apply Hin; now right).
      destruct (Dom.window_global p n) as [pl|] eqn:Hg; [|reflexivity].
      rewrite (Hglobals n pl (Hin n (or_introl eq_refl)) Hg). reflexivity. }
    apply H. auto. }
  now rewrite Hnone.
Qed.

Lemma global_players_need_nextTrack_witness :
  Dom.videojs_getPlayers backOnlyPage = None
  /\ Dom.previousTrack backOnlyPlayer = Some true
  /\ Dom.window_global backOnlyPage "player" = Some backOnlyPlayer
  /\ Dom.playerApiProbe backOnlyPage false = (None, []).
Proof.
  split; [reflexivity |]. split; [reflexivity |]. split; [reflexivity |].
  apply global_players_need_nextTrack; [reflexivity |].
  intros name pl _ Hg. unfold backOnlyPage in Hg. simpl in Hg.
  destruct (name =? "player")%string; [|discriminate].
  now injection Hg as <-.
Defined.

(** ** The content script's element cache *)

(** X20.  [getMediaElements] queries the page when its cache is empty
    or was filled more than [CACHE_DURATION] (1000 ms) ago, and
    remembers the answer with the time of the query.  A later call at
    most 1000 ms after that query returns the remembered list without
    looking at the page, whatever the page holds by then; a call more
    than 1000 ms after it queries again. *)
Theorem media_elements_are_cached_for_a_second
  (p p' : Dom.Page) (now now' : Z) (cache : S1.MediaCache) :
  S1.mediaElements cache = None
  \/ now - S1.lastUpdate cache > S1.CACHE_DURATION ->
  let first := S1.getMediaElements p now cache in
  fst first = Dom.querySelectorAll p "audio, video"
  /\ (now' - now <= 1000 ->
      S1.getMediaElements p' now' (snd first) = first)
  /\ (now' - now > 1000 ->
      S1.getMediaElements p' now' (snd first)
      = (Dom.querySelectorAll p' "audio, video",
         {| S1.mediaElements := Some (Dom.querySelectorAll p' "audio, video");
            S1.lastUpdate := now' |})).
Proof.
  intros Hmiss.
  assert (Hfirst : S1.getMediaElements p now cache
                   = (Dom.querySelectorAll p "audio, video",
                      {| S1.mediaElements :=
                           Some (Dom.querySelectorAll p "audio, video");
                         S1.lastUpdate := now |})).
  { unfold S1.getMediaElements.
    destruct Hmiss as [Hnone|Hold]; [now rewrite Hnone |].
    destruct (S1.mediaElements cache); [|reflexivity].
    assert (Hgt : (now - S1.lastUpdate cache >? S1.CACHE_DURATION) = true)
      by (apply Z.gtb_lt; lia).
    now rewrite Hgt. }
  cbv zeta. rewrite Hfirst. cbn [fst snd].
  split; [reflexivity |].
  unfold S1.getMediaElements, S1.CACHE_DURATION. cbn [S1.mediaElements S1.lastUpdate].
  split; intros Hage.
  - assert (H : (now' - now >? 1000) = false).
    { destruct (now' - now >? 1000) eqn:Hgt; [|reflexivity].
      apply Z.gtb_lt in Hgt. lia. }
    now rewrite H.
  - assert (H : (now' - now >? 1000) = true) by (apply Z.gtb_lt; lia).
    now rewrite H.
Qed.

Lemma media_elements_are_cached_for_a_second_witness :
  (S1.mediaElements S1.initialCache = None
   \/ 5000 - S1.lastUpdate S1.initialCache > S1.CACHE_DURATION)
  /\ fst (S1.getMediaElements twoAudioPage 6000
            (snd (S1.getMediaElements oneAudioPage 5000 S1.initialCache)))
     = [audioElement 1].
Proof.
  assert (H : S1.mediaElements S1.initialCache = None
              \/ 5000 - S1.lastUpdate S1.initialCache > S1.CACHE_DURATION)
    by (now left).
  split; [exact H |].
  destruct (media_elements_are_cached_for_a_second oneAudioPage twoAudioPage
              5000 6000 S1.initialCache H) as (_ & Hhit & _).
  rewrite Hhit by lia. reflexivity.
Defined.

(** ** The two scripts side by side *)

(** X21.  On a page where no selector of either script has a visible
    match, the content script and the injected script do the same thing
    for every direction whose selector list the content script can
    iterate: the same effects in the same order and the same result. *)
Theorem scripts_agree_without_buttons
  (p : Dom.Page) (now : Z) (cache : S1.MediaCache) (d : string)
  (selectors : list string) :
  selectors_for d selectors ->
  ~ has_visible_match p selectors ->
  ~ has_visible_match p (S0.buttonSelectors (d =? "next")%string) ->
  fst (S1.skipTrack p now cache d)
  = (S1.Returned (fst (S0.skipTrack p d)), snd (S0.skipTrack p d)).
Proof.
  intros Hsel Hno1 Hno0.
  rewrite (content_is_fourStrategies p now cache d selectors Hsel).
  rewrite injected_is_fourStrategies. unfold fourStrategies.
  destruct (no_visible_match_buttonClick p selectors Hno1) as [H1 _].
  destruct (no_visible_match_buttonClick p _ Hno0) as [H0 _].
  now rewrite H1, H0.
Qed.

Lemma scripts_agree_without_buttons_witness :
  selectors_for "sideways" []
  /\ ~ has_visible_match onlyActiveElementPage []
  /\ ~ has_visible_match onlyActiveElementPage
         (S0.buttonSelectors ("sideways" =? "next")%string)
  /\ fst (S1.skipTrack onlyActiveElementPage 0 S1.initialCache "sideways")
     = (S1.Returned (Dom.Success "keyboard-events"), keyDispatches false).
Proof.
  assert (Hsel : selectors_for "sideways" []) by (right; split; reflexivity).
  assert (H1 : ~ has_visible_match onlyActiveElementPage []).
  { intros (s & e & [] & _). }
  assert (H0 : ~ has_visible_match onlyActiveElementPage
                 (S0.buttonSelectors ("sideways" =? "next")%string)).
  { intros (s & e & _ & He & _). unfold onlyActiveElementPage, pageWith in He.
    simpl in He. destruct (s =? ".next")%string; destruct He. }
  split; [exact Hsel |]. split; [exact H1 |]. split; [exact H0 |].
  rewrite (scripts_agree_without_buttons onlyActiveElementPage 0
             S1.initialCache "sideways" [] Hsel H1 H0).
  reflexivity.
Defined.

(* ================================================================= *)
(** * The play/pause scripts *)

Lemma toggle_fold (l : list PP.Media) :
  forall acc,
    fold_left PP.toggleOne l acc
    = (fst acc || existsb (fun m => negb (PP.paused m) || PP.progress m) l,
       snd acc
       ++ flat_map (fun m => if negb (PP.paused m) then [PP.Pause m]
                             else if PP.progress m then [PP.Play m] else [])
                   l).
Proof.
  induction l as [|m l IH]; intros [f cs]; simpl.
  - now rewrite orb_false_r, app_nil_r.
  - rewrite IH. unfold PP.toggleOne.
    destruct (PP.paused m), (PP.progress m); simpl;
      rewrite <- ?app_assoc; simpl; try reflexivity;
      now rewrite ?orb_true_r.
Qed.

(** X22.  The play/pause script of the retaining background script
    pauses every element that is playing and resumes every paused
    element that has progressed; when no element is of either kind it
    plays the first one, and that is its only call; when some element
    is of either kind it plays no element that has not progressed.  It
    never pauses a paused element nor plays a playing one, it always
    makes a call when the page has a media element, and it always
    answers [success: true]; the [isPlaying] it answers is [true]
    exactly when the page has no media element. *)
Theorem toggle_script_acts_on_every_element (l : list PP.Media) :
  let answer := fst (PP.toggleScript l) in
  let calls := snd (PP.toggleScript l) in
  PP.success answer = true
  /\ (PP.isPlaying answer = true <-> l = [])
  /\ (forall m, In m l -> PP.paused m = false -> In (PP.Pause m) calls)
  /\ (forall m, In m l -> PP.paused m = true -> PP.progress m = true ->
                In (PP.Play m) calls)
  /\ (forall m, In (PP.Pause m) calls -> In m l /\ PP.paused m = false)
  /\ (forall m, In (PP.Play m) calls -> In m l /\ PP.paused m = true)
  /\ (l <> [] -> calls <> [])
  /\ (forall first rest,
        l = first :: rest ->
        (forall m, In m l -> PP.paused m = true /\ PP.progress m = false) ->
        calls = [PP.Play first])
  /\ ((exists m, In m l /\ (PP.paused m = false \/ PP.progress m = true)) ->
      forall m, In (PP.Play m) calls -> PP.progress m = true).
Proof.
  cbv zeta. unfold PP.toggleScript. rewrite toggle_fold. cbn [fst snd].
  set (act := fun m => if negb (PP.paused m) then [PP.Pause m]
                       else if PP.progress m then [PP.Play m] else []).
  assert (Hact_in : forall c, In c (flat_map act l) ->
            exists m, In m l /\ In c (act m))
    by (intros c Hc; now apply in_flat_map in Hc).
  assert (Hpause : forall m, In (PP.Pause m) (flat_map act l) ->
            In m l /\ PP.paused m = false).
  { intros m Hc. destruct (Hact_in _ Hc) as [x [Hx Hcx]]. unfold act in Hcx.
    destruct (PP.paused x) eqn:Hp; simpl in Hcx.
    - destruct (PP.progress x); [destruct Hcx as [[=]|[]] | destruct Hcx].
    - destruct Hcx as [[= <-]|[]]. now split. }
  assert (Hplay : forall m, In (PP.Play m) (flat_map act l) ->
            In m l /\ PP.paused m = true).
  { intros m Hc. destruct (Hact_in _ Hc) as [x [Hx Hcx]]. unfold act in Hcx.
    destruct (PP.paused x) eqn:Hp; simpl in Hcx.
    - destruct (PP.progress x); [|destruct Hcx].
      destruct Hcx as [[= <-]|[]]. now split.
    - destruct Hcx as [[=]|[]]. }
  assert (Hdo_pause : forall m, In m l -> PP.paused m = false ->
            In (PP.Pause m) (flat_map act l)).
  { intros m Hm Hp. apply in_flat_map. exists m. split; [exact Hm |].
    unfold act. rewrite Hp. now left. }
  assert (Hdo_play : forall m, In m l -> PP.paused m = true ->
            PP.progress m = true -> In (PP.Play m) (flat_map act l)).
  { intros m Hm Hp Hg. apply in_flat_map. exists m. split; [exact Hm |].
    unfold act. rewrite Hp, Hg. now left. }
  assert (Hprogressed : forall m, In (PP.Play m) (flat_map act l) ->
            PP.progress m = true).
  { intros m Hc. destruct (Hact_in _ Hc) as [x [Hx Hcx]]. unfold act in Hcx.
    destruct (PP.paused x); simpl in Hcx.
    - destruct (PP.progress x) eqn:Hg; [|destruct Hcx].
      destruct Hcx as [[= <-]|[]]. exact Hg.
    - destruct Hcx as [[=]|[]]. }
  assert (Hidle : forall l', existsb (fun m => negb (PP.paused m) || PP.progress m)
                                     l' = false ->
                             flat_map act l' = []).
  { induction l' as [|x l' IH]; [reflexivity |]. simpl. intros Hx.
    apply orb_false_elim in Hx. destruct Hx as [Hx Hl'].
    apply orb_false_elim in Hx. destruct Hx as [Hp Hg].
    unfold act at 1. rewrite Hp, Hg. simpl. now apply IH. }
  simpl orb.
  destruct (existsb (fun m => negb (PP.paused m) || PP.progress m) l) eqn:Hex.
  - cbn [fst snd PP.success PP.isPlaying]. simpl app.
    split; [reflexivity |].
    split; [split; [discriminate | intros ->; discriminate] |].
    split; [exact Hdo_pause |]. split; [exact Hdo_play |].
    split; [exact Hpause |]. split; [exact Hplay |].
    split; [|split].
    + intros _ Hnil. apply existsb_exists in Hex. destruct Hex as [m [Hm Hk]].
      destruct (PP.paused m) eqn:Hp; simpl in Hk.
      * pose proof (Hdo_play m Hm Hp Hk) as Hc. rewrite Hnil in Hc.
        destruct Hc.
      * pose proof (Hdo_pause m Hm Hp) as Hc. rewrite Hnil in Hc. destruct Hc.
    + intros first rest _ Hall. exfalso.
      apply existsb_exists in Hex. destruct Hex as [m [Hm Hk]].
      destruct (Hall m Hm) as [Hp Hg]. rewrite Hp, Hg in Hk. discriminate.
    + intros _. exact Hprogressed.
  - destruct l as [|first rest].
    + simpl. split; [reflexivity |]. split; [tauto |].
      split; [intros m [] |]. split; [intros m [] |].
      split; [intros m [] |]. split; [intros m [] |].
      split; [tauto |]. split; [discriminate |].
      intros [m [[] _]].
    + cbn [fst snd PP.success PP.isPlaying]. simpl app at 1.
      assert (Hfirst : PP.paused first = true).
      { simpl in Hex. apply orb_false_elim in Hex. destruct Hex as [Hf _].
        apply orb_false_elim in Hf. destruct Hf as [Hf _].
        now apply negb_false_iff in Hf. }
      split; [reflexivity |].
      split; [split; [discriminate | discriminate] |].
      split; [intros m Hm Hp; apply in_or_app; left; now apply Hdo_pause |].
      split; [intros m Hm Hp Hg; apply in_or_app; left; now apply Hdo_play |].
      split.
      * intros m Hc. apply in_app_or in Hc.
        destruct Hc as [Hc|[[=]|[]]]. now apply Hpause.
      * split; [|split; [|split]].
        -- intros m Hc. apply in_app_or in Hc.
           destruct Hc as [Hc|[[= <-]|[]]]; [now apply Hplay |].
           split; [now left | exact Hfirst].
        -- intros _ Hnil. apply app_eq_nil in Hnil.
           destruct Hnil as [_ Hnil]. discriminate.
        -- intros first' rest' [= <- <-] _.
           now rewrite (Hidle _ Hex).
        -- intros [m [Hm Hbusy]]. exfalso.
           assert (Hk : existsb (fun m => negb (PP.paused m) || PP.progress m)
                                (first :: rest) = true).
           { apply existsb_exists. exists m. split; [exact Hm |].
             destruct Hbusy as [Hp|Hg]; [now rewrite Hp |].
             rewrite Hg. apply orb_true_r. }
           rewrite Hex in Hk. discriminate.
Qed.

Lemma toggle_fold_old (l : list PP.Media) :
  forall acc,
    fold_left PP.toggleOneOld l acc
    = (fst acc || existsb (fun m => negb (PP.paused m)) l,
       snd acc
       ++ flat_map (fun m => if negb (PP.paused m) then [PP.Pause m]
                             else if PP.progress m then [PP.Play m] else [])
                   l).
Proof.
  induction l as [|m l IH]; intros [f cs]; simpl.
  - now rewrite orb_false_r, app_nil_r.
  - rewrite IH. unfold PP.toggleOneOld.
    destruct (PP.paused m), (PP.progress m); simpl;
      rewrite <- ?app_assoc; simpl; try reflexivity;
      now rewrite ?orb_true_r.
Qed.

(** X23.  The older play/pause script (src/background.js) pauses every
    playing element and resumes every paused element that has
    progressed, and returns ['paused'] exactly when it paused something.
    The command handler therefore answers [isPlaying: true] exactly when
    no element was playing before the call: also when the page has no
    media element, and when nothing could be resumed. *)
Theorem old_toggle_reports_what_it_paused (l : list PP.Media) :
  let state := fst (PP.toggleScriptOld l) in
  let calls := snd (PP.toggleScriptOld l) in
  (state = "paused" <-> exists m, In m l /\ PP.paused m = false)
  /\ PP.answerOld (Some [state])
     = inl {| PP.success := true; PP.isPlaying := forallb PP.paused l |}
  /\ (forall m, In (PP.Pause m) calls <-> In m l /\ PP.paused m = false)
  /\ (forall m, In (PP.Play m) calls
                <-> In m l /\ PP.paused m = true /\ PP.progress m = true).
Proof.
  cbv zeta. unfold PP.toggleScriptOld. rewrite toggle_fold_old.
  cbn [fst snd]. simpl orb. simpl app.
  assert (Hex : existsb (fun m => negb (PP.paused m)) l
                = negb (forallb PP.paused l)).
  { induction l as [|m l IH]; [reflexivity |]. simpl.
    rewrite IH. now destruct (PP.paused m). }
  split; [|split; [|split]].
  - destruct (existsb (fun m => negb (PP.paused m)) l) eqn:He.
    + split; [intros _ | reflexivity].
      apply existsb_exists in He. destruct He as [m [Hm Hp]].
      exists m. split; [exact Hm | now apply negb_true_iff in Hp].
    + split; [discriminate |]. intros [m [Hm Hp]].
      assert (Ht : existsb (fun m => negb (PP.paused m)) l = true).
      { apply existsb_exists. exists m. split; [exact Hm | now rewrite Hp]. }
      congruence.
  - rewrite Hex. destruct (forallb PP.paused l); reflexivity.
  - intros m. rewrite in_flat_map. split.
    + intros [x [Hx Hc]]. destruct (PP.paused x) eqn:Hp; simpl in Hc.
      * destruct (PP.progress x); [destruct Hc as [[=]|[]] | destruct Hc].
      * destruct Hc as [[= <-]|[]]. now split.
    + intros [Hm Hp]. exists m. split; [exact Hm |]. rewrite Hp. now left.
  - intros m. rewrite in_flat_map. split.
    + intros [x [Hx Hc]]. destruct (PP.paused x) eqn:Hp; simpl in Hc.
      * destruct (PP.progress x) eqn:Hg; [|destruct Hc].
        destruct Hc as [[= <-]|[]]. now repeat split.
      * destruct Hc as [[=]|[]].
    + intros (Hm & Hp & Hg). exists m. split; [exact Hm |].
      rewrite Hp, Hg. now left.
Qed.

(* ================================================================= *)
(** * The scanning background script *)

Lemma scanFrom_all (probe : HostTab -> Sc.Probe) (webTabs : list HostTab) :
  forall fuel i acc,
    (List.length webTabs - i <= fuel)%nat ->
    Sc.scanFrom fuel probe webTabs i acc
    = acc ++ Sc.validResults probe (skipn i webTabs).
Proof.
  induction fuel as [|fuel IH]; intros i acc Hfuel; simpl.
  - rewrite skipn_all2 by lia. simpl. now rewrite app_nil_r.
  - destruct (Nat.ltb_spec i (List.length webTabs)) as [Hlt|Hge].
    + rewrite IH by (unfold Sc.batchSize; lia).
      rewrite <- app_assoc. f_equal.
      replace (skipn (i + Sc.batchSize) webTabs)
        with (skipn Sc.batchSize (skipn i webTabs))
        by (rewrite skipn_skipn; f_equal; lia).
      unfold Sc.validResults. rewrite <- flat_map_app. f_equal.
      exact (firstn_skipn Sc.batchSize (skipn i webTabs)).
    + rewrite skipn_all2 by lia. simpl. now rewrite app_nil_r.
Qed.

Lemma validResults_tabs (probe : HostTab -> Sc.Probe) (l : list HostTab) :
  Subseq (map Sc.tab (Sc.validResults probe l)) l
  /\ (forall t, In t l -> tab_audible t = true ->
        In {| Sc.tab := t; Sc.mediaInfo := Sc.audibleFallback |}
           (Sc.validResults probe l)).
Proof.
  unfold Sc.validResults. induction l as [|t l [IHs IHa]].
  - split; [constructor | intros t []].
  - simpl. unfold Sc.checkTab at 1 3.
    destruct (tab_audible t) eqn:Ha.
    + split; [simpl; now apply Subseq_keep |].
      intros x [<-|Hx] Hxa; [now left | right; now apply IHa].
    + assert (Hrest : forall x, In x (t :: l) -> tab_audible x = true ->
                In {| Sc.tab := x; Sc.mediaInfo := Sc.audibleFallback |}
                   (flat_map (fun t0 => match Sc.checkTab probe t0 with
                                        | Some v => [v]
                                        | None => []
                                        end) l)).
      { intros x [<-|Hx] Hxa; [congruence | now apply IHa]. }
      destruct (probe t) as [|[[|first rest]|]]; simpl;
        try (split; [now apply Subseq_skip | exact Hrest]).
      destruct (Sc.hasMedia first); simpl.
      * split; [now apply Subseq_keep |].
        intros x Hx Hxa. right. now apply Hrest.
      * split; [now apply Subseq_skip | exact Hrest].
Qed.

Lemma getAllMediaTabs_scan
  (now later : Z) (allTabs : list HostTab) (probe : HostTab -> Sc.Probe)
  (st : Sc.ScanState) :
  Sc.globalMediaTabs st = []
  \/ Sc.SCAN_COOLDOWN <= now - Sc.lastScanTime st ->
  Sc.getAllMediaTabs now later (Some allTabs) probe st
  = (Sc.validResults probe (filter Sc.isWebTab allTabs),
     {| Sc.globalMediaTabs :=
          Sc.validResults probe (filter Sc.isWebTab allTabs);
        Sc.lastScanTime := later |}).
Proof.
  intros Hmiss. unfold Sc.getAllMediaTabs.
  assert (Hcond : (0 <? List.length (Sc.globalMediaTabs st))%nat
                  && (now - Sc.lastScanTime st <? Sc.SCAN_COOLDOWN) = false).
  { destruct Hmiss as [Hnil|Hold].
    - now rewrite Hnil.
    - apply andb_false_iff. right. apply Z.ltb_ge. exact Hold. }
  rewrite Hcond. rewrite scanFrom_all by lia. reflexivity.
Qed.

(** X24.  When [getAllMediaTabs] scans (its cache is empty or older
    than the cool-down, and [tabs.query] answers), the batches of five
    lose, repeat and reorder nothing: the result is the outcome of the
    check of every http or https tab, in the host's order.  So every
    audible http(s) tab is reported, marked playing, whatever its probe
    answers; a tab whose url is not http(s) is never reported, audible
    or not; and the result and the second clock value become the
    cache. *)
Theorem scan_checks_every_web_tab_once
  (now later : Z) (allTabs : list HostTab) (probe : HostTab -> Sc.Probe)
  (st : Sc.ScanState) :
  Sc.globalMediaTabs st = []
  \/ Sc.SCAN_COOLDOWN <= now - Sc.lastScanTime st ->
  let r := Sc.getAllMediaTabs now later (Some allTabs) probe st in
  fst r = Sc.validResults probe (filter Sc.isWebTab allTabs)
  /\ snd r = {| Sc.globalMediaTabs := fst r; Sc.lastScanTime := later |}
  /\ Subseq (map Sc.tab (fst r)) allTabs
  /\ (forall t, In t allTabs -> Sc.isWebTab t = true -> tab_audible t = true ->
        In {| Sc.tab := t; Sc.mediaInfo := Sc.audibleFallback |} (fst r))
  /\ (forall x, In x (fst r) -> Sc.isWebTab (Sc.tab x) = true).
Proof.
  intros Hmiss. cbv zeta. rewrite (getAllMediaTabs_scan _ _ _ _ _ Hmiss).
  cbn [fst snd].
  destruct (validResults_tabs probe (filter Sc.isWebTab allTabs)) as [Hsub Haud].
  split; [reflexivity |]. split; [reflexivity |].
  split; [eapply Subseq_trans; [exact Hsub | apply Subseq_filter] |].
  split.
  - intros t Ht Hweb Ha. apply Haud; [|exact Ha].
    apply filter_In. now split.
  - intros x Hx.
    assert (Hin : In (Sc.tab x) (filter Sc.isWebTab allTabs)).
    { apply (Subseq_In _ _ _ Hsub). now apply in_map. }
    apply filter_In in Hin. exact (proj2 Hin).
Qed.

Lemma scan_checks_every_web_tab_once_witness :
  (Sc.globalMediaTabs Sc.initialState = []
   \/ Sc.SCAN_COOLDOWN <= 50 - Sc.lastScanTime Sc.initialState)
  /\ map Sc.tab
       (fst (Sc.getAllMediaTabs 50 60 (Some sevenTabs) deadProbe
               Sc.initialState))
     = [webTab 7 true].
Proof.
  assert (H : Sc.globalMediaTabs Sc.initialState = []
              \/ Sc.SCAN_COOLDOWN <= 50 - Sc.lastScanTime Sc.initialState)
    by (now left).
  split; [exact H |].
  destruct (scan_checks_every_web_tab_once 50 60 sevenTabs deadProbe
              Sc.initialState H) as (Hr & _).
  rewrite Hr. reflexivity.
Defined.

(** X25.  [getAllMediaTabs] answers from its cache, without querying the
    host or probing any tab and without changing its state, exactly
    when the cached list is not empty and was stored less than
    [SCAN_COOLDOWN] (10 s) ago.  An empty result is never served from
    the cache: the next call scans again, however soon it comes; and
    when [tabs.query] rejects, the answer is the empty list and the
    cache stays as it was. *)
Theorem scan_cache_is_used_only_when_not_empty
  (now later : Z) (query : option (list HostTab)) (probe : HostTab -> Sc.Probe)
  (st : Sc.ScanState) :
  (Sc.globalMediaTabs st <> [] ->
   now - Sc.lastScanTime st < Sc.SCAN_COOLDOWN ->
   Sc.getAllMediaTabs now later query probe st = (Sc.globalMediaTabs st, st))
  /\ (Sc.globalMediaTabs st = [] ->
      forall allTabs,
        Sc.getAllMediaTabs now later (Some allTabs) probe st
        = (Sc.validResults probe (filter Sc.isWebTab allTabs),
           {| Sc.globalMediaTabs :=
                Sc.validResults probe (filter Sc.isWebTab allTabs);
              Sc.lastScanTime := later |}))
  /\ ((Sc.globalMediaTabs st = []
       \/ Sc.SCAN_COOLDOWN <= now - Sc.lastScanTime st) ->
      Sc.getAllMediaTabs now later None probe st = ([], st)).
Proof.
  split; [|split].
  - intros Hne Hfresh. unfold Sc.getAllMediaTabs.
    destruct (Sc.globalMediaTabs st) as [|x l] eqn:Hg; [now elim Hne |].
    simpl List.length. cbn [Nat.ltb Nat.leb andb].
    apply Z.ltb_lt in Hfresh. now rewrite Hfresh.
  - intros Hnil allTabs. apply getAllMediaTabs_scan. now left.
  - intros Hmiss. unfold Sc.getAllMediaTabs.
    assert (Hcond : (0 <? List.length (Sc.globalMediaTabs st))%nat
                    && (now - Sc.lastScanTime st <? Sc.SCAN_COOLDOWN) = false).
    { destruct Hmiss as [Hnil|Hold].
      - now rewrite Hnil.
      - apply andb_false_iff. right. apply Z.ltb_ge. exact Hold. }
    now rewrite Hcond.
Qed.

Lemma scan_cache_is_used_only_when_not_empty_witness :
  let cached := {| Sc.globalMediaTabs :=
                     [{| Sc.tab := webTab 7 true;
                         Sc.mediaInfo := Sc.audibleFallback |}];
                   Sc.lastScanTime := 60 |} in
  Sc.getAllMediaTabs 9000 9100 (Some sevenTabs) deadProbe cached
  = (Sc.globalMediaTabs cached, cached)
  /\ fst (Sc.getAllMediaTabs 61 62 (Some [webTab 7 true]) deadProbe
            {| Sc.globalMediaTabs := []; Sc.lastScanTime := 60 |})
     = Sc.globalMediaTabs cached.
Proof.
  cbv zeta. split.
  - apply (scan_cache_is_used_only_when_not_empty 9000 9100 (Some sevenTabs)
             deadProbe); [discriminate | reflexivity].
  - rewrite (proj1 (proj2 (scan_cache_is_used_only_when_not_empty 61 62 None
                             deadProbe
                             {| Sc.globalMediaTabs := [];
                                Sc.lastScanTime := 60 |})) eq_refl).
    reflexivity.
Defined.

(* ================================================================= *)
(** * What the popup is told about a paused tab *)

(** A record that is audible, or inside its window at every clock read
    to come, is in the list of [getAudibleTabs]. *)
Lemma snapshot_keeps (clk : nat -> Z) (w : R.World) (k : Z) (r : R.TabRecord) :
  R.wf (R.audibleTabsMap w) ->
  JsMap.get k (R.audibleTabsMap w) = Some r ->
  R.audible r = true
  \/ (forall j, (R.reads w <= j)%nat -> within clk r j) ->
  In r (fst (R.getAudibleTabs clk w)).
Proof.
  intros Hwf Hget Hkeep.
  rewrite getAudibleTabs_unfold by apply Hwf.
  pose proof (filterTabs_spec clk
                (JsMap.values (evicted (clk (R.reads w)) (R.audibleTabsMap w)))
                (ticked w (evicted (clk (R.reads w)) (R.audibleTabsMap w))))
    as H. cbv zeta in H.
  destruct H as (_ & _ & _ & _ & _ & Hcomplete).
  apply Hcomplete.
  - assert (Hk : JsMap.get k (evicted (clk (R.reads w)) (R.audibleTabsMap w))
                 = Some r).
    { apply get_filter_kept; [exact Hget |]. simpl. unfold R.isStale.
      destruct Hkeep as [Ha|Hin]; [now rewrite Ha |].
      apply negb_true_iff, andb_false_iff. right. apply Z.leb_gt.
      exact (Hin (R.reads w) (le_n _)). }
    apply get_in in Hk. apply in_map_iff. exists (k, r).
    split; [reflexivity | exact Hk].
  - destruct Hkeep as [Ha|Hin]; [now left | right].
    intros j Hj. apply Hin. simpl in Hj. lia.
Qed.

(** X26.  The answer to [get_media_tabs] and the pushed message
    disagree about a tab that went silent and is still retained: the
    answer lists it with [audible: true], [isPlaying: true] and
    [isPaused: false], as it does for every tab it lists, while a push
    made from the same state carries the cached record with
    [isPlaying: false]. *)
Theorem pull_and_push_disagree_on_paused_tab
  (clk : nat -> Z) (w : R.World) (tid : Z) (r : R.TabRecord)
  (ok : nat -> bool) :
  R.wf (R.audibleTabsMap w) ->
  JsMap.get tid (R.audibleTabsMap w) = Some r ->
  R.audible r = false ->
  (forall j, (R.reads w <= j)%nat -> within clk r j) ->
  R.popupPorts w <> [] ->
  (forall d, In d (R.eval (R.get_media_tabs clk) w) ->
     R.d_audible d = true /\ R.d_isPlaying d = true
     /\ R.d_isPaused d = false /\ R.d_mediaCount d = 1)
  /\ (exists d, In d (R.eval (R.get_media_tabs clk) w)
                /\ R.d_id d = tid /\ R.d_title d = R.title r
                /\ R.d_isPlaying d = true)
  /\ R.eval (R.pushUpdateToPopup ok) w <> []
  /\ (forall port msg,
        In (port, msg) (R.eval (R.pushUpdateToPopup ok) w) ->
        In {| R.pushed := r; R.isPlaying := Some false |} (R.tabs msg)).
Proof.
  intros Hwf Hget Ha Hin Hports.
  unfold R.eval, R.get_media_tabs. rewrite bind_eq. cbn [R.ret fst].
  split; [|split; [|split]].
  - intros d Hd. apply in_map_iff in Hd. destruct Hd as [x [<- _]].
    simpl. now repeat split.
  - eexists. split.
    + apply in_map. apply (snapshot_keeps clk w tid r Hwf Hget). now right.
    + simpl. split; [apply (wf_get_id _ _ _ Hwf Hget) | now split].
  - rewrite push_unfold.
    destruct (R.popupPorts w) as [|p ps]; [now elim Hports |].
    simpl. discriminate.
  - intros port msg. rewrite push_unfold.
    destruct (R.popupPorts w) as [|p ps] eqn:Hps; [now elim Hports |].
    cbn [List.length Nat.eqb fst]. intros Hpm.
    apply in_map_iff in Hpm. destruct Hpm as [q [[= _ <-] _]].
    cbn [R.tabs]. apply in_map_iff. exists r. split; [now rewrite Ha |].
    apply get_in in Hget. apply in_map_iff. exists (tid, r).
    split; [reflexivity | exact Hget].
Qed.

Lemma pull_and_push_disagree_on_paused_tab_witness :
  R.audible (silentRecord7 1500000) = false
  /\ (exists d, In d (R.eval (R.get_media_tabs stillClock) mixedWorld)
                /\ R.d_id d = 7 /\ R.d_title d = "Song A"
                /\ R.d_isPlaying d = true)
  /\ R.eval (R.pushUpdateToPopup (fun _ => true)) mixedWorld <> [].
Proof.
  assert (Hin : forall j, (R.reads mixedWorld <= j)%nat ->
                          within stillClock (silentRecord7 1500000) j)
    by (intros j _; reflexivity).
  destruct (pull_and_push_disagree_on_paused_tab stillClock mixedWorld 7
              (silentRecord7 1500000) (fun _ => true) mixedWorld_wf
              eq_refl eq_refl Hin ltac:(discriminate))
    as (_ & Hd & Hne & _).
  split; [reflexivity |]. split; [exact Hd | exact Hne].
Defined.

(* ================================================================= *)
(** * The [toggle_mute] command *)

(** X27.  The [then] callback of [toggle_mute] changes nothing but the
    [muted] flag of the tab's cached record: it reads no clock and
    evicts nothing, every record keeps its id, title, url, [audible]
    flag and [lastActive] (muting does not restart the retention
    window), and the other records are untouched.  It posts to every
    port if the tab is cached and does nothing at all if it is not.
    The mute state requested from the host is the negation of the
    tab's current one, a tab without [mutedInfo] counting as not
    muted. *)
Theorem mute_changes_only_the_muted_flag
  (w : R.World) (tabId : Z) (isMuted : bool) (ok : nat -> bool) :
  let w' := R.exec (R.reflectMute tabId isMuted ok) w in
  let posts := R.eval (R.reflectMute tabId isMuted ok) w in
  R.reads w' = R.reads w
  /\ (forall k r',
        JsMap.get k (R.audibleTabsMap w') = Some r' ->
        exists r, JsMap.get k (R.audibleTabsMap w) = Some r
                  /\ R.id r' = R.id r /\ R.title r' = R.title r
                  /\ R.url r' = R.url r /\ R.audible r' = R.audible r
                  /\ R.lastActive r' = R.lastActive r
                  /\ (k <> tabId -> r' = r)
                  /\ (k = tabId -> R.muted r' = isMuted))
  /\ (forall k, JsMap.has k (R.audibleTabsMap w')
                = JsMap.has k (R.audibleTabsMap w))
  /\ (JsMap.has tabId (R.audibleTabsMap w) = true ->
      map fst posts = R.popupPorts w)
  /\ (JsMap.has tabId (R.audibleTabsMap w) = false -> posts = [] /\ w' = w)
  /\ (forall t, newMuteState t = true
                <-> tab_mutedInfo t = None
                    \/ exists mi, tab_mutedInfo t = Some mi
                                  /\ mi_muted mi = false).
Proof.
  cbv zeta. unfold R.eval, R.exec, R.reflectMute.
  rewrite bind_eq. cbn [R.getTabs fst snd]. unfold JsMap.has.
  destruct (JsMap.get tabId (R.audibleTabsMap w)) as [entry|] eqn:Hget.
  - rewrite bind_eq. cbn [R.putTabs fst snd].
    set (after := {| R.id := R.id entry; R.title := R.title entry;
                     R.url := R.url entry; R.audible := R.audible entry;
                     R.muted := isMuted;
                     R.lastActive := R.lastActive entry |}).
    set (w1 := {| R.reads := R.reads w;
                  R.audibleTabsMap :=
                    JsMap.set tabId after (R.audibleTabsMap w);
                  R.popupPorts := R.popupPorts w;
                  R.disconnectListeners := R.disconnectListeners w |}).
    assert (Hpush : R.audibleTabsMap (snd (R.pushUpdateToPopup ok w1))
                    = R.audibleTabsMap w1
                    /\ R.reads (snd (R.pushUpdateToPopup ok w1)) = R.reads w1).
    { rewrite push_unfold.
      destruct (List.length (R.popupPorts w1) =? 0)%nat; now split. }
    destruct Hpush as [Hm Hr]. rewrite Hm.
    split; [exact Hr |]. split; [|split; [|split; [|split]]].
    + intros k r' Hk. simpl in Hk.
      destruct (Z.eq_dec k tabId) as [Heq|Hne].
      * rewrite Heq in *. rewrite get_set_same in Hk. injection Hk as <-.
        exists entry. split; [exact Hget |]. simpl.
        repeat (split; [reflexivity |]).
        split; [intros Hc; now elim Hc | reflexivity].
      * rewrite get_set_other in Hk by congruence.
        exists r'. split; [exact Hk |].
        repeat (split; [reflexivity |]). intros Hc; contradiction.
    + intros k. simpl.
      destruct (Z.eq_dec k tabId) as [Heq|Hne].
      * rewrite Heq. rewrite get_set_same. now rewrite Hget.
      * now rewrite get_set_other by congruence.
    + intros _. apply (push_targets ok w1).
    + discriminate.
    + intros t. unfold newMuteState, muted_of.
      destruct (tab_mutedInfo t) as [mi|].
      * rewrite negb_true_iff. split.
        -- intros H. right. now exists mi.
        -- intros [H|[mi' [[= <-] H]]]; [discriminate | exact H].
      * split; [now left | reflexivity].
  - cbn [R.ret fst snd].
    split; [reflexivity |]. split; [|split; [|split; [|split]]].
    + intros k r' Hk. exists r'. split; [exact Hk |].
      repeat (split; [reflexivity |]).
      intros Heq. rewrite Heq in Hk. congruence.
    + reflexivity.
    + discriminate.
    + now split.
    + intros t. unfold newMuteState, muted_of.
      destruct (tab_mutedInfo t) as [mi|].
      * rewrite negb_true_iff. split.
        -- intros H. right. now exists mi.
        -- intros [H|[mi' [[= <-] H]]]; [discriminate | exact H].
      * split; [now left | reflexivity].
Qed.

(* ================================================================= *)
(** * The icon of the scanning script *)

(** X28.  The scanning script's [updateIconForMediaTabs] sets the
    sound-on icon exactly when a tab of the list it got from
    [getAllMediaTabs] is marked playing.  After a scan that icon is on
    whenever the host reports an audible http(s) tab.  But while a
    non-empty cache is younger than [SCAN_COOLDOWN] the icon follows
    the cache, not the host: if no cached tab is playing the icon stays
    off and the title counts the cached tabs as paused, whatever tabs
    the host reports by then. *)
Theorem scanner_icon_follows_the_cache
  (now later : Z) (query : option (list HostTab)) (probe : HostTab -> Sc.Probe)
  (st : Sc.ScanState) :
  let icon := fst (fst (Sc.updateIconForMediaTabs now later query probe st)) in
  (icon = "icons/icon-sound-on-48.png"
   <-> exists t, In t (fst (Sc.getAllMediaTabs now later query probe st))
                 /\ Sc.isPlaying (Sc.mediaInfo t) = true)
  /\ (Sc.globalMediaTabs st = []
      \/ Sc.SCAN_COOLDOWN <= now - Sc.lastScanTime st ->
      forall allTabs t,
        query = Some allTabs -> In t allTabs ->
        Sc.isWebTab t = true -> tab_audible t = true ->
        icon = "icons/icon-sound-on-48.png")
  /\ (Sc.globalMediaTabs st <> [] ->
      now - Sc.lastScanTime st < Sc.SCAN_COOLDOWN ->
      Forall (fun t => Sc.isPlaying (Sc.mediaInfo t) = false)
             (Sc.globalMediaTabs st) ->
      Sc.updateIconForMediaTabs now later query probe st
      = ("icons/icon-sound-off-48.png",
         (Js.string_of_Z (Z.of_nat (List.length (Sc.globalMediaTabs st)))
          ++ " tab(s) with media (paused)")%string, st)).
Proof.
  cbv zeta.
  assert (Hiff : forall l : list Sc.MediaTab,
            (0 <? List.length
                    (filter (fun t => Sc.isPlaying (Sc.mediaInfo t)) l))%nat
            = true
            <-> exists t, In t l /\ Sc.isPlaying (Sc.mediaInfo t) = true).
  { intros l. rewrite Nat.ltb_lt. split.
    - destruct (filter _ l) as [|x f] eqn:Hf; [simpl; lia |]. intros _.
      assert (Hx : In x (filter (fun t => Sc.isPlaying (Sc.mediaInfo t)) l))
        by (rewrite Hf; now left).
      apply filter_In in Hx. now exists x.
    - intros [t [Ht Hp]].
      assert (Hx : In t (filter (fun t => Sc.isPlaying (Sc.mediaInfo t)) l))
        by (apply filter_In; now split).
      destruct (filter _ l); [destruct Hx | simpl; lia]. }
  assert (Hicon :
            fst (fst (Sc.updateIconForMediaTabs now later query probe st))
            = "icons/icon-sound-on-48.png"
            <-> exists t,
                In t (fst (Sc.getAllMediaTabs now later query probe st))
                /\ Sc.isPlaying (Sc.mediaInfo t) = true).
  { rewrite <- Hiff. unfold Sc.updateIconForMediaTabs. cbn [fst].
    destruct (0 <? List.length (filter _ _))%nat.
    - split; reflexivity.
    - destruct (0 <? List.length _)%nat; split; discriminate. }
  split; [exact Hicon |]. split.
  - intros Hmiss allTabs t -> Ht Hweb Ha. apply Hicon.
    exists {| Sc.tab := t; Sc.mediaInfo := Sc.audibleFallback |}.
    split; [|reflexivity].
    rewrite (getAllMediaTabs_scan _ _ _ _ _ Hmiss). cbn [fst].
    apply (proj2 (validResults_tabs probe (filter Sc.isWebTab allTabs)));
      [|exact Ha].
    apply filter_In. now split.
  - intros Hne Hfresh Hquiet. unfold Sc.updateIconForMediaTabs.
    assert (Hhit : Sc.getAllMediaTabs now later query probe st
                   = (Sc.globalMediaTabs st, st)).
    { unfold Sc.getAllMediaTabs.
      destruct (Sc.globalMediaTabs st) as [|x l]; [now elim Hne |].
      simpl List.length. cbn [Nat.ltb Nat.leb andb].
      apply Z.ltb_lt in Hfresh. now rewrite Hfresh. }
    rewrite Hhit. cbn [fst snd].
    assert (Hnone : filter (fun t => Sc.isPlaying (Sc.mediaInfo t))
                           (Sc.globalMediaTabs st) = []).
    { clear Hne Hhit. revert Hquiet.
      induction (Sc.globalMediaTabs st) as [|x l IH]; [reflexivity |].
      intros Hq. inversion Hq as [|? ? Hx Hl]. subst.
      simpl. rewrite Hx. now apply IH. }
    rewrite Hnone.
    destruct (Sc.globalMediaTabs st) as [|x l]; [now elim Hne | reflexivity].
Qed.

Lemma scanner_icon_follows_the_cache_witness :
  Sc.globalMediaTabs pausedCache <> []
  /\ 5000 - Sc.lastScanTime pausedCache < Sc.SCAN_COOLDOWN
  /\ In (webTab 7 true) sevenTabs
  /\ fst (Sc.updateIconForMediaTabs 5000 5100 (Some sevenTabs) deadProbe
            pausedCache)
     = ("icons/icon-sound-off-48.png", "1 tab(s) with media (paused)")
  /\ fst (fst (Sc.updateIconForMediaTabs 20000 20100 (Some sevenTabs)
                 deadProbe pausedCache))
     = "icons/icon-sound-on-48.png".
Proof.
  assert (Hne : Sc.globalMediaTabs pausedCache <> []) by discriminate.
  assert (Hfresh : 5000 - Sc.lastScanTime pausedCache < Sc.SCAN_COOLDOWN)
    by reflexivity.
  assert (Hin : In (webTab 7 true) sevenTabs) by (simpl; tauto).
  split; [exact Hne |]. split; [exact Hfresh |]. split; [exact Hin |]. split.
  - rewrite (proj2 (proj2 (scanner_icon_follows_the_cache 5000 5100
                             (Some sevenTabs) deadProbe pausedCache))
               Hne Hfresh ltac:(repeat constructor)).
    reflexivity.
  - apply (proj1 (proj2 (scanner_icon_follows_the_cache 20000 20100
                           (Some sevenTabs) deadProbe pausedCache))
             ltac:(right; vm_compute; discriminate)
             sevenTabs (webTab 7 true) eq_refl Hin eq_refl eq_refl).
Defined.

(* ================================================================= *)
(** * The background page as a whole *)

(** ** The loop that deletes while it iterates *)

Section DeleteLoop.

Context {V : Type}.
Variable stale : V -> bool.

Lemma delete_loop (l : list (Z * V)) :
  forall acc : JsMap.t V,
    NoDup (JsMap.keys acc) ->
    fold_left
      (fun acc e => if stale (snd e) then JsMap.delete (fst e) acc else acc)
      l acc
    = filter
        (fun e => negb (existsb (fun e' => stale (snd e') && (fst e' =? fst e))
                                l))
        acc.
Proof.
  induction l as [|e' l IH]; intros acc Hnd; simpl.
  - symmetry. apply forallb_filter_id. now apply forallb_forall.
  - destruct (stale (snd e')) eqn:Hst; simpl; [|now apply IH].
    rewrite IH by now apply NoDup_keys_delete.
    rewrite delete_as_filter by exact Hnd.
    rewrite filter_filter. apply filter_ext. intros e.
    rewrite negb_orb. f_equal. now rewrite Z.eqb_sym.
Qed.

Lemma delete_loop_entries (m : JsMap.t V) :
  NoDup (JsMap.keys m) ->
  fold_left
    (fun acc e => if stale (snd e) then JsMap.delete (fst e) acc else acc)
    (JsMap.entries m) m
  = filter (fun e => negb (stale (snd e))) m.
Proof.
  intros Hnd. unfold JsMap.entries. rewrite delete_loop by exact Hnd.
  apply filter_ext_in. intros e He. f_equal.
  destruct (stale (snd e)) eqn:Hst.
  - apply existsb_exists. exists e. split; [exact He |].
    now rewrite Hst, Z.eqb_refl.
  - destruct (existsb _ m) eqn:Hex; [|reflexivity].
    apply existsb_exists in Hex. destruct Hex as [e' [He' Hc]].
    apply andb_prop in Hc. destruct Hc as [Hst' Hk].
    apply Z.eqb_eq in Hk.
    rewrite (same_key_same_entry m e' e Hnd He' He Hk) in Hst'. congruence.
Qed.

End DeleteLoop.

(** ** What the cache functions do to the state *)

Section WholeCache.

Variable clk : nat -> Z.

Lemma whole_cleanup (w : W.World) :
  NoDup (JsMap.keys (W.audibleTabsMap w)) ->
  W.cleanupOldTabs clk w
  = (tt, W.ticked w (W.evicted (clk (W.reads w)) (W.audibleTabsMap w)), []).
Proof.
  intros Hnd.
  unfold W.cleanupOldTabs, W.bind, W.Date_now, W.getTabs, W.putTabs,
    W.value, W.state, W.trace.
  simpl. unfold W.ticked, W.evicted.
  now rewrite (delete_loop_entries (W.isStale (clk (W.reads w)))).
Qed.

Lemma whole_filterTabs_cons (tab : W.Entry) (rest : list W.Entry) w :
  W.filterTabs clk (tab :: rest) w =
  if W.truthy (W.audible tab) then
    (tab :: W.value (W.filterTabs clk rest w),
     W.state (W.filterTabs clk rest w),
     W.trace (W.filterTabs clk rest w))
  else
    let r := W.filterTabs clk rest (W.ticked w (W.audibleTabsMap w)) in
    (if match W.lastActive tab with
        | Some t => clk (W.reads w) - t <? R.TAB_RETENTION_MS
        | None => false
        end
     then tab :: W.value r else W.value r, W.state r, W.trace r).
Proof.
  simpl. unfold W.bind, W.keepTab.
  destruct (W.truthy (W.audible tab));
    unfold W.bind, W.ret, W.Date_now, W.ticked, W.value, W.state, W.trace;
    simpl; now rewrite app_nil_r.
Qed.

(** The [filter] of [getAudibleTabs] changes nothing but the number of
    clock reads and observes nothing; it keeps the objects whose
    [audible] is [true], and an object whose [lastActive] is inside the
    window at a clock value read during the call. *)
Lemma whole_filterTabs (l : list W.Entry) :
  forall w,
    let r := W.filterTabs clk l w in
    W.audibleTabsMap (W.state r) = W.audibleTabsMap w
    /\ W.popupPorts (W.state r) = W.popupPorts w
    /\ W.disconnectListeners (W.state r) = W.disconnectListeners w
    /\ (W.reads w <= W.reads (W.state r))%nat
    /\ W.trace r = []
    /\ (forall tab, In tab (W.value r) ->
          In tab l
          /\ (W.audible tab = Some true
              \/ exists j t, (W.reads w <= j < W.reads (W.state r))%nat
                             /\ W.lastActive tab = Some t
                             /\ clk j - t < R.TAB_RETENTION_MS))
    /\ (forall tab, In tab l ->
          (W.audible tab = Some true
           \/ exists t, W.lastActive tab = Some t
                /\ forall j, (W.reads w <= j < W.reads (W.state r))%nat ->
                             clk j - t < R.TAB_RETENTION_MS) ->
          In tab (W.value r)).
Proof.
  assert (Htruthy : forall b, W.truthy b = true <-> b = Some true).
  { intros [[|]|]; simpl; split; congruence. }
  induction l as [|tab rest IH]; intros w.
  - cbv zeta. unfold W.value, W.state, W.trace. simpl.
    split; [reflexivity |]. split; [reflexivity |]. split; [reflexivity |].
    split; [lia |]. split; [reflexivity |].
    split; [intros x [] | intros x []].
  - cbv zeta. rewrite whole_filterTabs_cons.
    destruct (W.truthy (W.audible tab)) eqn:Ha.
    + apply Htruthy in Ha.
      specialize (IH w). cbv zeta in IH.
      destruct (W.filterTabs clk rest w) as [[rest' w1] t1].
      unfold W.value, W.state, W.trace in *. simpl in *.
      destruct IH as (Hm & Hp & Hd & Hle & Ht & Hsound & Hcomplete).
      split; [exact Hm |]. split; [exact Hp |]. split; [exact Hd |].
      split; [exact Hle |]. split; [exact Ht |]. split.
      * intros x [<-|Hx].
        -- split; [now left | now left].
        -- destruct (Hsound x Hx) as [Hin Hc]. split; [now right | exact Hc].
      * intros x [<-|Hx] Hc; [now left | right; now apply Hcomplete].
    + assert (Hna : W.audible tab <> Some true)
        by (intros Hc; apply Htruthy in Hc; congruence).
      specialize (IH (W.ticked w (W.audibleTabsMap w))). cbv zeta in IH.
      cbv zeta.
      destruct (W.filterTabs clk rest (W.ticked w (W.audibleTabsMap w)))
        as [[rest' w1] t1].
      unfold W.value, W.state, W.trace in *. simpl in *.
      destruct IH as (Hm & Hp & Hd & Hle & Ht & Hsound & Hcomplete).
      split; [exact Hm |]. split; [exact Hp |]. split; [exact Hd |].
      split; [lia |]. split; [exact Ht |]. split.
      * assert (Hrest : forall x, In x rest' ->
                  In x (tab :: rest)
                  /\ (W.audible x = Some true
                      \/ exists j t, (W.reads w <= j < W.reads w1)%nat
                           /\ W.lastActive x = Some t
                           /\ clk j - t < R.TAB_RETENTION_MS)).
        { intros x Hx. destruct (Hsound x Hx) as [Hin [Hax|(j & t & Hj & Hl & Hw)]].
          - split; [now right | now left].
          - split; [now right |]. right. exists j, t.
            split; [lia |]. now split. }
        intros x Hx.
        destruct (W.lastActive tab) as [t|] eqn:Hla; [|now apply Hrest].
        destruct (clk (W.reads w) - t <? R.TAB_RETENTION_MS) eqn:Hk;
          [|now apply Hrest].
        destruct Hx as [<-|Hx]; [|now apply Hrest].
        split; [now left |]. right. exists (W.reads w), t.
        split; [lia |]. split; [exact Hla |]. now apply Z.ltb_lt.
      * intros x [<-|Hx] Hc.
        -- destruct Hc as [Hc|(t & Hla & Hc)]; [congruence |].
           rewrite Hla.
           assert (Hw : clk (W.reads w) - t < R.TAB_RETENTION_MS)
             by (apply Hc; lia).
           apply Z.ltb_lt in Hw. rewrite Hw. now left.
        -- assert (Hin : In x rest').
           { apply Hcomplete; [exact Hx |].
             destruct Hc as [Hc|(t & Hla & Hc)]; [now left |].
             right. exists t. split; [exact Hla |].
             intros j Hj. apply Hc. lia. }
           destruct (match W.lastActive tab with
                     | Some t => clk (W.reads w) - t <? R.TAB_RETENTION_MS
                     | None => false
                     end); [now right | exact Hin].
Qed.

(** [getAudibleTabs]: one eviction at the first clock value read, then
    the filter; the call is observed once. *)
Lemma whole_getAudibleTabs (w : W.World) :
  NoDup (JsMap.keys (W.audibleTabsMap w)) ->
  let m1 := W.evicted (clk (W.reads w)) (W.audibleTabsMap w) in
  let r := W.filterTabs clk (JsMap.values m1) (W.ticked w m1) in
  W.getAudibleTabs clk w
  = (W.value r, W.state r,
     [W.Snapshot (W.reads w) (W.reads (W.state r)) (W.value r)]).
Proof.
  intros Hnd. cbv zeta.
  pose proof (whole_filterTabs
                (JsMap.values (W.evicted (clk (W.reads w)) (W.audibleTabsMap w)))
                (W.ticked w (W.evicted (clk (W.reads w)) (W.audibleTabsMap w))))
    as H. cbv zeta in H. destruct H as (_ & _ & _ & _ & Ht & _).
  unfold W.getAudibleTabs, W.bind, W.getReads.
  cbn [W.value W.state W.trace fst snd]. rewrite (whole_cleanup w Hnd).
  unfold W.getTabs, W.emit, W.ret.
  cbn [W.value W.state W.trace fst snd].
  change (W.audibleTabsMap
            (W.ticked w (W.evicted (clk (W.reads w)) (W.audibleTabsMap w))))
    with (W.evicted (clk (W.reads w)) (W.audibleTabsMap w)).
  rewrite Ht. reflexivity.
Qed.

Lemma whole_upsert (w : W.World) (t : HostTab) (tid : Z) :
  tab_id t = Some tid ->
  W.upsertFromTab clk (Some t) w
  = let now := clk (W.reads w) in
    let m := W.audibleTabsMap w in
    if tab_audible t then
      (Js.VString (if JsMap.has tid m then "updated" else "added"),
       W.ticked w
         (JsMap.set tid (W.freshEntry t tid now) m), [])
    else
      match JsMap.get tid m with
      | Some existingTab =>
          (Js.VString "updated",
           W.ticked w (JsMap.set tid (W.markInactive now existingTab) m), [])
      | None => (Js.VFalse, W.ticked w m, [])
      end.
Proof.
  intros Hid. unfold W.upsertFromTab. rewrite Hid.
  unfold W.bind, W.Date_now, W.getTabs, W.putTabs, W.ret, W.ticked,
    W.value, W.state, W.trace, JsMap.has.
  simpl. destruct (tab_audible t); simpl; [reflexivity |].
  destruct (JsMap.get tid (W.audibleTabsMap w)); reflexivity.
Qed.

End WholeCache.

(** ** Invariants of the handlers *)

Section Handlers.

Variable clk : nat -> Z.
Variable Qs : nat -> nat -> list W.Entry -> Prop.

Lemma triple_ret {A} (P : W.World -> Prop) (a : A) :
  W.triple Qs P (W.ret a) P.
Proof. intros w Hw. split; [exact Hw | constructor]. Qed.

Lemma triple_bind {A B} (P P1 P2 : W.World -> Prop)
      (c : W.M A) (k : A -> W.M B) :
  W.triple Qs P c P1 ->
  (forall a, W.triple Qs P1 (k a) P2) ->
  W.triple Qs P (W.bind c k) P2.
Proof.
  intros Hc Hk w Hw. destruct (Hc w Hw) as [H1 Ht1].
  destruct (Hk (W.value (c w)) (W.state (c w)) H1) as [H2 Ht2].
  unfold W.bind. cbn [W.value W.state W.trace fst snd].
  split; [exact H2 |]. apply Forall_app. now split.
Qed.

Lemma triple_emit (P : W.World -> Prop) (o : W.Obs) :
  W.snapshots Qs o -> W.triple Qs P (W.emit o) P.
Proof. intros Ho w Hw. split; [exact Hw | now constructor]. Qed.

Variable Inv : nat -> JsMap.t W.Entry -> Prop.

(** A computation that leaves the clock and the cache alone and makes
    no call of [getAudibleTabs] keeps every invariant. *)
Lemma triple_frame {A} (c : W.M A) :
  (forall w, W.reads (W.state (c w)) = W.reads w
             /\ W.audibleTabsMap (W.state (c w)) = W.audibleTabsMap w
             /\ Forall (W.snapshots Qs) (W.trace (c w))) ->
  W.triple Qs (W.holds Inv) c (W.holds Inv).
Proof.
  intros Hc w Hw. destruct (Hc w) as (Hr & Hm & Ht).
  split; [|exact Ht]. unfold W.holds in *. now rewrite Hr, Hm.
Qed.

Lemma posts_are_no_snapshots (ps : list nat) (msg : W.Message) :
  Forall (W.snapshots Qs) (map (fun port => W.Posted port msg) ps).
Proof. induction ps; simpl; constructor; [exact I | assumption]. Qed.

Lemma push_safe (ok : nat -> bool) :
  W.triple Qs (W.holds Inv) (W.pushUpdateToPopup ok) (W.holds Inv).
Proof.
  apply triple_frame. intros w.
  unfold W.pushUpdateToPopup, W.bind, W.getPorts.
  cbn [W.value W.state W.trace fst snd].
  destruct (List.length (W.popupPorts w) =? 0)%nat.
  - split; [reflexivity |]. split; [reflexivity | constructor].
  - unfold W.getTabs, W.emitAll, W.putPorts.
    cbn [W.value W.state W.trace fst snd W.reads W.audibleTabsMap].
    split; [reflexivity |]. split; [reflexivity |].
    rewrite app_nil_r. apply posts_are_no_snapshots.
Qed.

Lemma connect_safe (port : R.Port) (ok : bool) :
  W.triple Qs (W.holds Inv) (W.onConnect port ok) (W.holds Inv).
Proof.
  apply triple_frame. intros w. unfold W.onConnect.
  destruct (R.port_name port =? "popup")%string.
  - unfold W.bind, W.getPorts, W.putPorts, W.getTabs, W.emit.
    cbn [W.value W.state W.trace fst snd].
    destruct ok; unfold W.addDisconnectListener, W.ret;
      cbn [W.value W.state W.trace fst snd W.reads W.audibleTabsMap];
      (split; [reflexivity |]); (split; [reflexivity |]);
      simpl; constructor; [exact I | constructor | exact I | constructor].
  - split; [reflexivity |]. split; [reflexivity | constructor].
Qed.

Lemma disconnect_safe (p : nat) :
  W.triple Qs (W.holds Inv) (W.onDisconnect p) (W.holds Inv).
Proof.
  apply triple_frame. intros w. unfold W.onDisconnect.
  destruct (existsb (Nat.eqb p) (W.disconnectListeners w)).
  - unfold W.putPorts. cbn. split; [reflexivity |].
    split; [reflexivity | constructor].
  - split; [reflexivity |]. split; [reflexivity | constructor].
Qed.

(** What the invariant has to stand: a clock read, each write of the
    handlers, and the two functions that evict. *)
Variable okTab : option HostTab -> bool.
Variable okKey : Z -> bool.

Hypothesis Inv_tick : forall n m, Inv n m -> Inv (S n) m.

Hypothesis Inv_fresh : forall n m t tid,
  okTab (Some t) = true -> tab_id t = Some tid -> tab_audible t = true ->
  Inv n m -> Inv (S n) (JsMap.set tid (W.freshEntry t tid (clk n)) m).

Hypothesis Inv_inactive : forall n m t tid e,
  okTab (Some t) = true -> tab_id t = Some tid -> tab_audible t = false ->
  JsMap.get tid m = Some e ->
  Inv n m -> Inv (S n) (JsMap.set tid (W.markInactive (clk n) e) m).

Hypothesis Inv_delete : forall n m k,
  okKey k = true -> Inv n m -> Inv n (JsMap.delete k m).

Hypothesis Inv_stamp : forall n m k e,
  okKey k = true -> JsMap.get k m = Some e ->
  Inv n m -> Inv (S n) (JsMap.set k (W.setLastActive (clk n) e) m).

Hypothesis Inv_play : forall n m k e b,
  okKey k = true -> JsMap.get k m = Some e ->
  Inv n m ->
  Inv (S n) (JsMap.set k (W.setLastActive (clk n) (W.setAudible b e)) m).

Hypothesis Inv_metadata : forall n m k e changeInfo tab,
  JsMap.get k m = Some e ->
  Inv n m -> Inv n (JsMap.set k (W.applyMetadata changeInfo tab e) m).

Hypothesis Inv_mute : forall n m k e b,
  JsMap.get k m = Some e ->
  Inv n m -> Inv n (JsMap.set k (W.setMuted b e) m).

Hypothesis Inv_title : forall n m k newTitle newUrl,
  Inv n m ->
  Inv n (JsMap.set k (W.withTitle (JsMap.get k m) newTitle newUrl) m).

Hypothesis cleanup_safe :
  W.triple Qs (W.holds Inv) (W.cleanupOldTabs clk) (W.holds Inv).

Hypothesis snapshot_safe :
  W.triple Qs (W.holds Inv) (W.getAudibleTabs clk) (W.holds Inv).

Lemma upsert_safe (tab : option HostTab) :
  okTab tab = true ->
  W.triple Qs (W.holds Inv) (W.upsertFromTab clk tab) (W.holds Inv).
Proof.
  intros Hok w Hw. destruct tab as [t|]; [|now apply triple_ret].
  destruct (tab_id t) as [tid|] eqn:Hid.
  - rewrite (whole_upsert clk w t tid Hid). cbv zeta.
    destruct (tab_audible t) eqn:Ha.
    + split; [|constructor]. now apply Inv_fresh.
    + destruct (JsMap.get tid (W.audibleTabsMap w)) as [e|] eqn:Hget;
        (split; [|constructor]).
      * now apply (Inv_inactive _ _ t).
      * now apply Inv_tick.
  - unfold W.upsertFromTab. rewrite Hid. now apply triple_ret.
Qed.

Lemma upsertAll_safe (tabs : list (option HostTab)) :
  forallb okTab tabs = true ->
  W.triple Qs (W.holds Inv) (W.upsertAll clk tabs) (W.holds Inv).
Proof.
  induction tabs as [|t rest IH]; simpl; intros Hok; [apply triple_ret |].
  apply andb_prop in Hok. destruct Hok as [Ht Hrest].
  eapply triple_bind; [now apply upsert_safe | intros _; now apply IH].
Qed.

Lemma icon_safe :
  W.triple Qs (W.holds Inv) (W.updateIconForMediaTabs clk) (W.holds Inv).
Proof.
  unfold W.updateIconForMediaTabs.
  eapply triple_bind; [exact snapshot_safe |]. intros l. cbv zeta.
  destruct (Z.of_nat (List.length l) >? 0); now apply triple_emit.
Qed.

Lemma icon_and_push_safe (ok : nat -> bool) :
  W.triple Qs (W.holds Inv)
    (W.bind (W.updateIconForMediaTabs clk)
            (fun _ => W.pushUpdateToPopup ok))
    (W.holds Inv).
Proof.
  eapply triple_bind; [exact icon_safe | intros _; apply push_safe].
Qed.

Lemma metadata_safe (k : Z) (changeInfo : L.ChangeInfo) (tab : HostTab) :
  W.triple Qs (W.holds Inv) (W.reflectMetadata k changeInfo tab) (W.holds Inv).
Proof.
  intros w Hw. unfold W.reflectMetadata, W.bind, W.getTabs.
  cbn [W.value W.state W.trace fst snd].
  destruct (JsMap.get k (W.audibleTabsMap w)) as [e|] eqn:Hget.
  - unfold W.putTabs, W.ret. cbn [W.value W.state W.trace fst snd].
    split; [|constructor]. unfold W.holds. simpl. now apply Inv_metadata.
  - split; [exact Hw | constructor].
Qed.

Lemma remove_safe (k : Z) :
  okKey k = true ->
  W.triple Qs (W.holds Inv) (W.removeTab k) (W.holds Inv).
Proof.
  intros Hk w Hw. unfold W.removeTab, W.bind, W.getTabs, W.putTabs, W.ret.
  cbn [W.value W.state W.trace fst snd].
  split; [|constructor]. unfold W.holds. simpl. now apply Inv_delete.
Qed.

Lemma stamp_safe (k : Z) :
  okKey k = true ->
  W.triple Qs (W.holds Inv) (W.stampBeforeToggle clk k) (W.holds Inv).
Proof.
  intros Hk w Hw. unfold W.stampBeforeToggle, W.bind, W.getTabs.
  cbn [W.value W.state W.trace fst snd].
  destruct (JsMap.get k (W.audibleTabsMap w)) as [e|] eqn:Hget.
  - unfold W.Date_now, W.putTabs. cbn [W.value W.state W.trace fst snd].
    split; [|constructor]. unfold W.holds. simpl. now apply Inv_stamp.
  - split; [exact Hw | constructor].
Qed.

Lemma play_safe (k : Z) (b : bool) (ok : nat -> bool) :
  okKey k = true ->
  W.triple Qs (W.holds Inv) (W.reflectPlayState clk k b ok) (W.holds Inv).
Proof.
  intros Hk w Hw. unfold W.reflectPlayState, W.bind, W.getTabs.
  cbn [W.value W.state W.trace fst snd].
  destruct (JsMap.get k (W.audibleTabsMap w)) as [e|] eqn:Hget;
    [|split; [exact Hw | constructor]].
  unfold W.Date_now, W.putTabs. cbn [W.value W.state W.trace fst snd app].
  apply push_safe. unfold W.holds. simpl. now apply Inv_play.
Qed.

Lemma mute_safe (k : Z) (b : bool) (ok : nat -> bool) :
  W.triple Qs (W.holds Inv) (W.reflectMute k b ok) (W.holds Inv).
Proof.
  intros w Hw. unfold W.reflectMute, W.bind, W.getTabs.
  cbn [W.value W.state W.trace fst snd].
  destruct (JsMap.get k (W.audibleTabsMap w)) as [e|] eqn:Hget;
    [|split; [exact Hw | constructor]].
  unfold W.putTabs. cbn [W.value W.state W.trace fst snd app].
  apply push_safe. unfold W.holds. simpl. now apply Inv_mute.
Qed.

Lemma title_safe (k : Z) (newTitle newUrl : option string) (ok : nat -> bool) :
  W.triple Qs (W.holds Inv) (W.storeTitleAfterSkip k newTitle newUrl ok)
           (W.holds Inv).
Proof.
  intros w Hw. unfold W.storeTitleAfterSkip, W.bind, W.getTabs, W.putTabs.
  cbn [W.value W.state W.trace fst snd app].
  apply push_safe. unfold W.holds. simpl. now apply Inv_title.
Qed.

(** Every handler keeps the invariant. *)
Lemma step_safe (e : W.Event) :
  W.allowed okTab okKey e = true ->
  W.triple Qs (W.holds Inv) (W.step clk e) (W.holds Inv).
Proof.
  destruct e as [port ok|p| |tabs| |tab ok|k changeInfo tab ok|k ok|k|k b ok
                 |tab|k newTitle newUrl ok| |k b ok];
    simpl; intros Hok.
  - apply connect_safe.
  - apply disconnect_safe.
  - exact cleanup_safe.
  - unfold W.onStartup.
    eapply triple_bind; [now apply upsertAll_safe | intros _; exact icon_safe].
  - exact icon_safe.
  - unfold W.onCreated.
    eapply triple_bind; [now apply upsert_safe |]. intros changed.
    destruct (Js.truthy changed); [apply icon_and_push_safe | apply triple_ret].
  - unfold W.onUpdated.
    eapply triple_bind with (P1 := W.holds Inv).
    + destruct (L.defined (L.ch_audible changeInfo)); simpl in Hok.
      * eapply triple_bind; [now apply upsert_safe |].
        intros v. apply triple_ret.
      * apply metadata_safe.
    + intros changed.
      destruct changed; [apply icon_and_push_safe | apply triple_ret].
  - unfold W.onRemoved.
    eapply triple_bind; [now apply remove_safe |]. intros existed.
    destruct existed; [apply icon_and_push_safe | apply triple_ret].
  - now apply stamp_safe.
  - now apply play_safe.
  - unfold W.upsertAfterSkip. destruct tab as [t|]; [|apply triple_ret].
    eapply triple_bind; [now apply upsert_safe | intros _; apply triple_ret].
  - apply title_safe.
  - unfold W.get_media_tabs.
    eapply triple_bind; [exact snapshot_safe |]. intros l.
    now apply triple_emit.
  - apply mute_safe.
Qed.

Lemma run_safe (es : list W.Event) :
  forallb (W.allowed okTab okKey) es = true ->
  W.triple Qs (W.holds Inv) (W.run clk es) (W.holds Inv).
Proof.
  induction es as [|e es IH]; simpl; intros Hok; [apply triple_ret |].
  apply andb_prop in Hok. destruct Hok as [He Hes].
  eapply triple_bind; [now apply step_safe | intros _; now apply IH].
Qed.

End Handlers.

(** ** The cache is well formed and stamped after any run *)

Lemma Forall_get {V} (P : Z * V -> Prop) (m : JsMap.t V) k v :
  Forall P m -> JsMap.get k m = Some v -> P (k, v).
Proof.
  intros Hall Hget. rewrite Forall_forall in Hall.
  apply Hall. now apply get_in.
Qed.

Section Sound.

Variable clk : nat -> Z.

Lemma sound_tick n m : W.sound clk n m -> W.sound clk (S n) m.
Proof.
  intros [Hwf Hst]. split; [exact Hwf |].
  unfold W.stamped in *. eapply Forall_impl; [|exact Hst].
  intros e He t Ht. destruct (He t Ht) as [j [Hj Hc]].
  exists j. split; [lia | exact Hc].
Qed.

(** Storing, under [k], an object that has no other [id] than [k] and
    no other [lastActive] than a clock value already read. *)
Lemma sound_set n m k v :
  (forall k', W.id v = Some k' -> k' = k) ->
  (forall t, W.lastActive v = Some t -> exists j, (j < n)%nat /\ t = clk j) ->
  W.sound clk n m -> W.sound clk n (JsMap.set k v m).
Proof.
  intros Hid Hla [[Hnd Hids] Hst]. split; [split |].
  - now apply NoDup_keys_set.
  - now apply Forall_set_entry.
  - unfold W.stamped. now apply Forall_set_entry.
Qed.

(** The same for an object derived from the cached one. *)
Lemma sound_update n m k e v :
  JsMap.get k m = Some e ->
  W.id v = W.id e ->
  (forall t, W.lastActive v = Some t ->
             W.lastActive e = Some t \/ exists j, (j < n)%nat /\ t = clk j) ->
  W.sound clk n m -> W.sound clk n (JsMap.set k v m).
Proof.
  intros Hget Hid Hla Hs. pose proof Hs as [[Hnd Hids] Hst].
  apply sound_set; [| |exact Hs].
  - rewrite Hid. exact (Forall_get _ _ _ _ Hids Hget).
  - intros t Ht. destruct (Hla t Ht) as [He|Hj]; [|exact Hj].
    exact (Forall_get _ _ _ _ Hst Hget t He).
Qed.

Lemma sound_filter n m (f : Z * W.Entry -> bool) :
  W.sound clk n m -> W.sound clk n (filter f m).
Proof.
  intros [[Hnd Hids] Hst]. split; [split |].
  - now apply NoDup_keys_filter.
  - now apply Forall_filter.
  - unfold W.stamped. now apply Forall_filter.
Qed.

Lemma sound_delete n m k : W.sound clk n m -> W.sound clk n (JsMap.delete k m).
Proof.
  intros [[Hnd Hids] Hst]. split; [split |].
  - now apply NoDup_keys_delete.
  - now apply Forall_delete.
  - unfold W.stamped. now apply Forall_delete.
Qed.

Lemma sound_le n n' m : (n <= n')%nat -> W.sound clk n m -> W.sound clk n' m.
Proof.
  induction 1 as [|n' Hle IH]; [auto |]. intros Hs. now apply sound_tick, IH.
Qed.

Lemma sound_cleanup (Qs : nat -> nat -> list W.Entry -> Prop) :
  W.triple Qs (W.holds (W.sound clk)) (W.cleanupOldTabs clk)
           (W.holds (W.sound clk)).
Proof.
  intros w Hw. rewrite whole_cleanup by apply Hw.
  split; [|constructor]. unfold W.holds. simpl.
  now apply sound_tick, sound_filter.
Qed.

Lemma sound_snapshot :
  W.triple (fun _ _ _ => True) (W.holds (W.sound clk)) (W.getAudibleTabs clk)
           (W.holds (W.sound clk)).
Proof.
  intros w Hw. rewrite whole_getAudibleTabs by apply Hw.
  pose proof (whole_filterTabs clk
                (JsMap.values (W.evicted (clk (W.reads w)) (W.audibleTabsMap w)))
                (W.ticked w (W.evicted (clk (W.reads w)) (W.audibleTabsMap w))))
    as H. cbv zeta in H. destruct H as (Hm & _ & _ & Hle & _).
  cbn [W.value W.state W.trace fst snd].
  split; [|repeat constructor]. unfold W.holds. rewrite Hm.
  apply (sound_le (S (W.reads w))); [exact Hle |].
  now apply sound_tick, sound_filter.
Qed.

Lemma sound_upsert (Qs : nat -> nat -> list W.Entry -> Prop)
      (tab : option HostTab) :
  W.triple Qs (W.holds (W.sound clk)) (W.upsertFromTab clk tab)
           (W.holds (W.sound clk)).
Proof.
  apply (upsert_safe clk Qs (W.sound clk) (fun _ => true));
    [exact sound_tick | | |reflexivity].
  - intros n m t tid _ _ _ Hs. apply sound_tick in Hs.
    apply sound_set; [| |exact Hs].
    + now intros k' [= <-].
    + intros x [= <-]. exists n. split; [lia | reflexivity].
  - intros n m t tid e _ _ _ Hget Hs. apply sound_tick in Hs.
    apply (sound_update _ _ _ e); [exact Hget | reflexivity | |exact Hs].
    intros x. unfold W.markInactive. simpl.
    destruct (W.lastActive e) as [la|].
    + destruct (la =? 0); intros [= <-];
        [right; exists n; split; [lia | reflexivity] | now left].
    + intros [= <-]. right. exists n. split; [lia | reflexivity].
Qed.

(** Every handler keeps the cache sound. *)
Lemma sound_step (ev : W.Event) :
  W.triple (fun _ _ _ => True) (W.holds (W.sound clk)) (W.step clk ev)
           (W.holds (W.sound clk)).
Proof.
  apply (step_safe clk (fun _ _ _ => True) (W.sound clk)
           (fun _ => true) (fun _ => true)).
  - exact sound_tick.
  - intros n m t tid _ _ _ Hs. apply sound_tick in Hs.
    apply sound_set; [| |exact Hs].
    + now intros k' [= <-].
    + intros x [= <-]. exists n. split; [lia | reflexivity].
  - intros n m t tid e _ _ _ Hget Hs. apply sound_tick in Hs.
    apply (sound_update _ _ _ e); [exact Hget | reflexivity | |exact Hs].
    intros x. unfold W.markInactive. simpl.
    destruct (W.lastActive e) as [la|].
    + destruct (la =? 0); intros [= <-];
        [right; exists n; split; [lia | reflexivity] | now left].
    + intros [= <-]. right. exists n. split; [lia | reflexivity].
  - intros n m k _. apply sound_delete.
  - intros n m k e _ Hget Hs. apply sound_tick in Hs.
    apply (sound_update _ _ _ e); [exact Hget | reflexivity | |exact Hs].
    intros x [= <-]. right. exists n. split; [lia | reflexivity].
  - intros n m k e b _ Hget Hs. apply sound_tick in Hs.
    apply (sound_update _ _ _ e); [exact Hget | reflexivity | |exact Hs].
    intros x [= <-]. right. exists n. split; [lia | reflexivity].
  - intros n m k e changeInfo tab Hget Hs.
    apply (sound_update _ _ _ e); [exact Hget | reflexivity | |exact Hs].
    intros x Hx. now left.
  - intros n m k e b Hget Hs.
    apply (sound_update _ _ _ e); [exact Hget | reflexivity | |exact Hs].
    intros x Hx. now left.
  - intros n m k newTitle newUrl Hs.
    destruct (JsMap.get k m) as [e|] eqn:Hget.
    + apply (sound_update _ _ _ e); [exact Hget | reflexivity | |exact Hs].
      intros x Hx. now left.
    + apply sound_set; [discriminate | discriminate | exact Hs].
  - apply sound_cleanup.
  - exact sound_snapshot.
  - destruct ev; simpl; try reflexivity.
    + now apply forallb_forall.
    + apply orb_true_r.
Qed.

Lemma sound_run (es : list W.Event) :
  W.triple (fun _ _ _ => True) (W.holds (W.sound clk)) (W.run clk es)
           (W.holds (W.sound clk)).
Proof.
  induction es as [|e es IH]; simpl; [apply triple_ret |].
  eapply triple_bind; [apply sound_step | intros _; exact IH].
Qed.

Lemma sound_reachable (es : list W.Event) :
  W.holds (W.sound clk) (W.state (W.run clk es W.initial)).
Proof.
  apply sound_run. split; [split |]; constructor.
Qed.

End Sound.

(** ** A tab that went silent *)

Section Retained.

Variable clk : nat -> Z.
Hypothesis clk_mono : forall i j, (i <= j)%nat -> clk i <= clk j.

Variable tid la : Z.
Hypothesis la_set : la <> 0.

Lemma retained_tick n m :
  W.retained clk tid la n m -> W.retained clk tid la (S n) m.
Proof.
  intros [HA|[[j [Hj Hs]] HB]]; [now left | right].
  split; [|exact HB]. exists j. split; [lia | exact Hs].
Qed.

(** A write under another key. *)
Lemma retained_other n m k v :
  k <> tid ->
  W.retained clk tid la n m -> W.retained clk tid la n (JsMap.set k v m).
Proof.
  intros Hne H. unfold W.retained. now rewrite get_set_other.
Qed.

(** A write under the key of the tab that keeps what is tracked. *)
Lemma retained_same n m v :
  (forall e, JsMap.get tid m = Some e ->
             W.id v = W.id e /\ W.audible v = W.audible e
             /\ W.lastActive v = W.lastActive e) ->
  (JsMap.get tid m = None -> W.id v = None) ->
  W.retained clk tid la n m -> W.retained clk tid la n (JsMap.set tid v m).
Proof.
  intros Hsome Hnone H. unfold W.retained. rewrite get_set_same.
  destruct H as [(e & Hget & Hid & Ha & Hl)|[Hj HB]].
  - left. exists v. destruct (Hsome e Hget) as (Hid' & Ha' & Hl').
    split; [reflexivity |]. split; [congruence |]. split; congruence.
  - right. split; [exact Hj |]. intros e [= <-].
    destruct (JsMap.get tid m) as [e0|] eqn:Hget.
    + destruct (Hsome e0 eq_refl) as (Hid' & _). rewrite Hid'.
      now apply HB.
    + now apply Hnone.
Qed.

Lemma retained_write n m k v :
  (k = tid ->
   (forall e, JsMap.get tid m = Some e ->
              W.id v = W.id e /\ W.audible v = W.audible e
              /\ W.lastActive v = W.lastActive e)
   /\ (JsMap.get tid m = None -> W.id v = None)) ->
  W.retained clk tid la n m -> W.retained clk tid la n (JsMap.set k v m).
Proof.
  intros Hk H. destruct (Z.eq_dec k tid) as [Heq|Hne].
  - destruct (Hk Heq) as [Hsome Hnone]. rewrite Heq.
    now apply retained_same.
  - now apply retained_other.
Qed.

(** The eviction at the clock value of the [n]-th read. *)
Lemma retained_evict n m :
  NoDup (JsMap.keys m) ->
  W.retained clk tid la n m ->
  W.retained clk tid la (S n) (W.evicted (clk n) m)
  /\ ((exists e, JsMap.get tid (W.evicted (clk n) m) = Some e
                 /\ W.id e = Some tid /\ W.audible e = Some false
                 /\ W.lastActive e = Some la)
      /\ clk n - la < R.TAB_RETENTION_MS
      \/ (exists j, (j <= n)%nat /\ R.TAB_RETENTION_MS <= clk j - la)
         /\ forall e, JsMap.get tid (W.evicted (clk n) m) = Some e ->
                      W.id e = None).
Proof.
  intros Hnd [(e & Hget & Hid & Ha & Hl)|[[j [Hj Hs]] HB]].
  - destruct (W.isStale (clk n) e) eqn:Hst.
    + assert (Hgone : JsMap.get tid (W.evicted (clk n) m) = None).
      { apply (get_filter_removed _ tid e); [exact Hnd | exact Hget |].
        simpl. now rewrite Hst. }
      unfold W.isStale in Hst. rewrite Ha, Hl in Hst. simpl in Hst.
      apply Z.leb_le in Hst.
      assert (Hpast : forall x, JsMap.get tid (W.evicted (clk n) m) = Some x ->
                                W.id x = None)
        by (intros x Hx; rewrite Hgone in Hx; discriminate).
      split; right.
      * split; [|exact Hpast]. exists n. split; [lia | exact Hst].
      * split; [|exact Hpast]. exists n. split; [lia | exact Hst].
    + assert (Hkept : JsMap.get tid (W.evicted (clk n) m) = Some e).
      { apply get_filter_kept; [exact Hget |]. simpl. now rewrite Hst. }
      unfold W.isStale in Hst. rewrite Ha, Hl in Hst. simpl in Hst.
      apply Z.leb_gt in Hst.
      split; left.
      * exists e. tauto.
      * split; [exists e; tauto | exact Hst].
  - assert (Hpast : forall x, JsMap.get tid (W.evicted (clk n) m) = Some x ->
                              W.id x = None).
    { intros x Hx. apply get_filter_some in Hx; [|exact Hnd].
      apply HB. tauto. }
    split; right.
    + split; [|exact Hpast]. exists j. split; [lia | exact Hs].
    + split; [|exact Hpast]. exists j. split; [lia | exact Hs].
Qed.

(** No object listed from a well-formed cache has the id of a tab
    under whose key there is nothing, or an object without [id]. *)
Lemma no_id_under_other_keys (m : JsMap.t W.Entry) x :
  W.wf m ->
  (forall e, JsMap.get tid m = Some e -> W.id e = None) ->
  In x (JsMap.values m) -> W.id x <> Some tid.
Proof.
  intros [Hnd Hids] Hnone Hin Hid.
  apply in_map_iff in Hin. destruct Hin as [[k v] [Hv Hin]]. simpl in Hv.
  subst v. rewrite Forall_forall in Hids.
  pose proof (Hids _ Hin tid Hid) as Hk. simpl in Hk. subst k.
  rewrite (Hnone x (in_get tid x m Hnd Hin)) in Hid. discriminate.
Qed.

Lemma retained_cleanup :
  W.triple (W.listed clk tid la)
    (W.holds (fun n m => W.sound clk n m /\ W.retained clk tid la n m))
    (W.cleanupOldTabs clk)
    (W.holds (fun n m => W.sound clk n m /\ W.retained clk tid la n m)).
Proof.
  intros w [Hs Hr].
  destruct (sound_cleanup clk (W.listed clk tid la) w Hs) as [Hs' Ht].
  split; [|exact Ht]. split; [exact Hs' |].
  rewrite whole_cleanup by apply Hs. simpl.
  apply retained_evict; [apply Hs | exact Hr].
Qed.

Lemma retained_snapshot :
  W.triple (W.listed clk tid la)
    (W.holds (fun n m => W.sound clk n m /\ W.retained clk tid la n m))
    (W.getAudibleTabs clk)
    (W.holds (fun n m => W.sound clk n m /\ W.retained clk tid la n m)).
Proof.
  intros w [Hs Hr]. unfold W.holds in Hs, Hr.
  destruct (sound_snapshot clk w Hs) as [Hs' _].
  rewrite whole_getAudibleTabs in * by apply Hs.
  destruct (retained_evict _ _ (proj1 (proj1 Hs)) Hr) as [Hr1 Hcase].
  assert (Hwf1 : W.wf (W.evicted (clk (W.reads w)) (W.audibleTabsMap w))).
  { apply (sound_filter clk (W.reads w)). exact Hs. }
  set (m1 := W.evicted (clk (W.reads w)) (W.audibleTabsMap w)) in *.
  pose proof (whole_filterTabs clk (JsMap.values m1) (W.ticked w m1)) as H.
  cbv zeta in H.
  destruct (W.filterTabs clk (JsMap.values m1) (W.ticked w m1))
    as [[l w'] t].
  unfold W.value, W.state, W.trace in *. simpl in *.
  destruct H as (Hm & _ & _ & Hle & _ & Hsound & Hcomplete).
  assert (Hafter : (W.reads w <= pred (W.reads w'))%nat) by lia.
  split.
  - split; [exact Hs' |]. unfold W.holds. rewrite Hm.
    destruct Hr1 as [HA|[[j [Hj Hpast]] HB]]; [now left | right].
    split; [|exact HB]. exists j. split; [lia | exact Hpast].
  - constructor; [|constructor]. simpl. split.
    + intros Hlast.
      destruct Hcase as [[(e & Hkept & Hid & Ha & Hl) Hnow]
                        |[[j [Hj Hpast]] HB]].
      * exists e. split; [|tauto]. apply Hcomplete.
        -- apply get_in in Hkept. apply in_map_iff.
           exists (tid, e). split; [reflexivity | exact Hkept].
        -- right. exists la. split; [exact Hl |]. intros i Hi.
           assert (clk i <= clk (pred (W.reads w'))) by (apply clk_mono; lia).
           lia.
      * exfalso.
        assert (clk j <= clk (pred (W.reads w'))) by (apply clk_mono; lia).
        lia.
    + intros Hfirst x Hx.
      destruct Hcase as [[_ Hnow]|[_ HB]]; [lia |].
      apply (no_id_under_other_keys m1); [exact Hwf1 | exact HB |].
      now apply Hsound.
Qed.

(** A clock read, and the two writes of [upsertFromTab]. *)
Lemma kept_tick n m :
  W.sound clk n m /\ W.retained clk tid la n m ->
  W.sound clk (S n) m /\ W.retained clk tid la (S n) m.
Proof.
  intros [Hs Hr]. split; [now apply sound_tick | now apply retained_tick].
Qed.

Lemma kept_fresh n m t k :
  negb (W.reports_audible tid (Some t)) = true ->
  tab_id t = Some k -> tab_audible t = true ->
  W.sound clk n m /\ W.retained clk tid la n m ->
  W.sound clk (S n) (JsMap.set k (W.freshEntry t k (clk n)) m)
  /\ W.retained clk tid la (S n) (JsMap.set k (W.freshEntry t k (clk n)) m).
Proof.
  intros Hok Hid Ha [Hs Hr].
  assert (Hne : k <> tid).
  { simpl in Hok. rewrite Hid, Ha, andb_true_r in Hok.
    apply negb_true_iff in Hok. now apply Z.eqb_neq. }
  split.
  - apply sound_tick in Hs. apply sound_set; [| |exact Hs].
    + now intros k' [= <-].
    + intros x [= <-]. exists n. split; [lia | reflexivity].
  - apply retained_tick. now apply retained_other.
Qed.

Lemma kept_inactive n m t k e :
  negb (W.reports_audible tid (Some t)) = true ->
  tab_id t = Some k -> tab_audible t = false ->
  JsMap.get k m = Some e ->
  W.sound clk n m /\ W.retained clk tid la n m ->
  W.sound clk (S n) (JsMap.set k (W.markInactive (clk n) e) m)
  /\ W.retained clk tid la (S n) (JsMap.set k (W.markInactive (clk n) e) m).
Proof.
  intros _ Hid Ha Hget [Hs Hr]. split.
  - apply sound_tick in Hs.
    apply (sound_update clk _ _ _ e); [exact Hget | reflexivity | |exact Hs].
    intros x. unfold W.markInactive. simpl.
    destruct (W.lastActive e) as [t0|].
    + destruct (t0 =? 0); intros [= <-];
        [right; exists n; split; [lia | reflexivity] | now left].
    + intros [= <-]. right. exists n. split; [lia | reflexivity].
  - apply retained_tick.
    destruct (Z.eq_dec k tid) as [Heq|Hne]; [|now apply retained_other].
    rewrite Heq in *. unfold W.retained. rewrite get_set_same.
    destruct Hr as [(e0 & Hget0 & Hid0 & Ha0 & Hl0)|[Hj HB]].
    + left. exists (W.markInactive (clk n) e).
      rewrite Hget in Hget0. injection Hget0 as <-.
      split; [reflexivity |]. split; [exact Hid0 |].
      split; [reflexivity |]. unfold W.markInactive. simpl. rewrite Hl0.
      destruct (Z.eqb_spec la 0); [contradiction | reflexivity].
    + right. split; [exact Hj |]. intros x [= <-]. simpl.
      now apply HB.
Qed.

(** The start-up loop over snapshots none of which reports the tab
    audible. *)
Lemma retained_upsertAll (tabs : list (option HostTab)) :
  forallb (fun t => negb (W.reports_audible tid t)) tabs = true ->
  W.triple (W.listed clk tid la)
    (W.holds (fun n m => W.sound clk n m /\ W.retained clk tid la n m))
    (W.upsertAll clk tabs)
    (W.holds (fun n m => W.sound clk n m /\ W.retained clk tid la n m)).
Proof.
  apply (upsertAll_safe clk (W.listed clk tid la)
           (fun n m => W.sound clk n m /\ W.retained clk tid la n m)
           (fun tab => negb (W.reports_audible tid tab))).
  - exact kept_tick.
  - exact kept_fresh.
  - exact kept_inactive.
Qed.

(** Every quiet handler keeps the tab retained and lists it as it
    should. *)
Lemma retained_step (ev : W.Event) :
  W.quiet tid ev = true ->
  W.triple (W.listed clk tid la)
    (W.holds (fun n m => W.sound clk n m /\ W.retained clk tid la n m))
    (W.step clk ev)
    (W.holds (fun n m => W.sound clk n m /\ W.retained clk tid la n m)).
Proof.
  intros Hq.
  apply (step_safe clk (W.listed clk tid la)
           (fun n m => W.sound clk n m /\ W.retained clk tid la n m)
           (fun tab => negb (W.reports_audible tid tab))
           (fun k => negb (k =? tid))); [..|exact Hq].
  - exact kept_tick.
  - exact kept_fresh.
  - exact kept_inactive.
  - intros n m k Hk [Hs Hr]. split; [now apply sound_delete |].
    apply negb_true_iff, Z.eqb_neq in Hk.
    unfold W.retained. now rewrite get_delete_other.
  - intros n m k e Hk Hget [Hs Hr].
    apply negb_true_iff, Z.eqb_neq in Hk. split.
    + apply sound_tick in Hs.
      apply (sound_update clk _ _ _ e); [exact Hget | reflexivity | |exact Hs].
      intros x [= <-]. right. exists n. split; [lia | reflexivity].
    + apply retained_tick. now apply retained_other.
  - intros n m k e b Hk Hget [Hs Hr].
    apply negb_true_iff, Z.eqb_neq in Hk. split.
    + apply sound_tick in Hs.
      apply (sound_update clk _ _ _ e); [exact Hget | reflexivity | |exact Hs].
      intros x [= <-]. right. exists n. split; [lia | reflexivity].
    + apply retained_tick. now apply retained_other.
  - intros n m k e changeInfo tab Hget [Hs Hr]. split.
    + apply (sound_update clk _ _ _ e); [exact Hget | reflexivity | |exact Hs].
      intros x Hx. now left.
    + apply retained_write; [|exact Hr]. intros Heq. rewrite Heq in Hget.
      split; [|congruence]. intros e0 He0. rewrite Hget in He0.
      injection He0 as <-. now repeat split.
  - intros n m k e b Hget [Hs Hr]. split.
    + apply (sound_update clk _ _ _ e); [exact Hget | reflexivity | |exact Hs].
      intros x Hx. now left.
    + apply retained_write; [|exact Hr]. intros Heq. rewrite Heq in Hget.
      split; [|congruence]. intros e0 He0. rewrite Hget in He0.
      injection He0 as <-. now repeat split.
  - intros n m k newTitle newUrl [Hs Hr]. split.
    + destruct (JsMap.get k m) as [e|] eqn:Hget.
      * apply (sound_update clk _ _ _ e);
          [exact Hget | reflexivity | |exact Hs].
        intros x Hx. now left.
      * apply sound_set; [discriminate | discriminate | exact Hs].
    + apply retained_write; [|exact Hr]. intros Heq. rewrite Heq.
      split.
      * intros e0 He0. rewrite He0. now repeat split.
      * intros Hnone. now rewrite Hnone.
  - exact retained_cleanup.
  - exact retained_snapshot.
Qed.

Lemma retained_run (es : list W.Event) :
  forallb (W.quiet tid) es = true ->
  W.triple (W.listed clk tid la)
    (W.holds (fun n m => W.sound clk n m /\ W.retained clk tid la n m))
    (W.run clk es)
    (W.holds (fun n m => W.sound clk n m /\ W.retained clk tid la n m)).
Proof.
  induction es as [|e es IH]; simpl; intros Hq; [apply triple_ret |].
  apply andb_prop in Hq. destruct Hq as [He Hes].
  eapply triple_bind; [now apply retained_step | intros _; now apply IH].
Qed.

End Retained.

(** ** Retention of a tab that went silent *)

Section Silenced.

Variable clk : nat -> Z.
Hypothesis clk_mono : forall i j, (i <= j)%nat -> clk i <= clk j.

Variable tid la : Z.
Hypothesis la_set : la <> 0.

(** The upsert of a snapshot of the tab that is not audible, while its
    object is cached with [lastActive = la]. *)
Lemma silence_upsert (t : HostTab) :
  tab_id t = Some tid -> tab_audible t = false ->
  W.triple (W.listed clk tid la)
    (fun w => W.holds (W.sound clk) w
              /\ exists r, JsMap.get tid (W.audibleTabsMap w) = Some r
                           /\ W.id r = Some tid /\ W.lastActive r = Some la)
    (W.upsertFromTab clk (Some t))
    (W.holds (fun n m => W.sound clk n m /\ W.retained clk tid la n m)).
Proof.
  intros Hid Ha w [Hs (r & Hget & Hrid & Hrla)].
  rewrite (whole_upsert clk w t tid Hid). cbv zeta. rewrite Ha, Hget.
  split; [|constructor]. unfold W.holds. simpl. split.
  - apply sound_tick in Hs.
    apply (sound_update clk _ _ _ r); [exact Hget | reflexivity | |exact Hs].
    intros x. unfold W.markInactive. simpl. rewrite Hrla.
    destruct (la =? 0); intros [= <-];
      [right; exists (W.reads w); split; [lia | reflexivity] | now left].
  - left. exists (W.markInactive (clk (W.reads w)) r).
    split; [apply get_set_same |]. split; [exact Hrid |].
    split; [reflexivity |]. unfold W.markInactive. simpl. rewrite Hrla.
    destruct (Z.eqb_spec la 0); [contradiction | reflexivity].
Qed.

Lemma reports_silent_inv (tab : option HostTab) :
  W.reports_silent tid tab = true ->
  exists t, tab = Some t /\ tab_id t = Some tid /\ tab_audible t = false.
Proof.
  destruct tab as [t|]; simpl; [|discriminate].
  destruct (tab_id t) as [k|] eqn:Hid; [|discriminate]. intros H.
  apply andb_prop in H. destruct H as [Hk Ha].
  apply Z.eqb_eq in Hk. apply negb_true_iff in Ha.
  exists t. rewrite Hid, Hk. now repeat split.
Qed.

(** The upsert of a snapshot that is not of the tab leaves its
    object where it is. *)
Lemma other_upsert (tab : option HostTab) :
  W.reports_audible tid tab = false ->
  W.reports_silent tid tab = false ->
  W.triple (W.listed clk tid la)
    (fun w => W.holds (W.sound clk) w
              /\ exists r, JsMap.get tid (W.audibleTabsMap w) = Some r
                           /\ W.id r = Some tid /\ W.lastActive r = Some la)
    (W.upsertFromTab clk tab)
    (fun w => W.holds (W.sound clk) w
              /\ exists r, JsMap.get tid (W.audibleTabsMap w) = Some r
                           /\ W.id r = Some tid /\ W.lastActive r = Some la).
Proof.
  intros Hna Hns w [Hs Hr].
  destruct (sound_upsert clk (W.listed clk tid la) tab w Hs) as [Hs' Ht].
  split; [|exact Ht]. split; [exact Hs' |].
  destruct tab as [t|]; [|exact Hr].
  destruct (tab_id t) as [k|] eqn:Hid;
    [|unfold W.upsertFromTab; rewrite Hid; exact Hr].
  simpl in Hna, Hns. rewrite Hid in Hna, Hns.
  assert (Hne : k <> tid).
  { intros Heq. apply Z.eqb_eq in Heq. rewrite Heq in Hna, Hns.
    simpl in Hna, Hns. rewrite Hna in Hns. discriminate. }
  rewrite (whole_upsert clk w t k Hid). cbv zeta.
  destruct (tab_audible t); simpl.
  - now rewrite get_set_other.
  - destruct (JsMap.get k (W.audibleTabsMap w)); simpl;
      [now rewrite get_set_other | exact Hr].
Qed.

(** The start-up loop, when some snapshot of its list reports the tab
    silent and none reports it audible. *)
Lemma silence_upsertAll (tabs : list (option HostTab)) :
  forallb (fun t => negb (W.reports_audible tid t)) tabs = true ->
  existsb (W.reports_silent tid) tabs = true ->
  W.triple (W.listed clk tid la)
    (fun w => W.holds (W.sound clk) w
              /\ exists r, JsMap.get tid (W.audibleTabsMap w) = Some r
                           /\ W.id r = Some tid /\ W.lastActive r = Some la)
    (W.upsertAll clk tabs)
    (W.holds (fun n m => W.sound clk n m /\ W.retained clk tid la n m)).
Proof.
  induction tabs as [|t rest IH]; simpl; [discriminate |].
  intros Hq Hex. apply andb_prop in Hq. destruct Hq as [Ht Hrest].
  apply negb_true_iff in Ht.
  destruct (W.reports_silent tid t) eqn:Hsil.
  - destruct (reports_silent_inv t Hsil) as (t0 & -> & Hid & Ha).
    eapply triple_bind; [now apply silence_upsert |]. intros _.
    now apply retained_upsertAll.
  - simpl in Hex.
    eapply triple_bind; [now apply other_upsert |]. intros _.
    now apply IH.
Qed.

(** The handler that reports the tab silent. *)
Lemma silence_step (ev : W.Event) :
  W.silences tid ev = true ->
  W.triple (W.listed clk tid la)
    (fun w => W.holds (W.sound clk) w
              /\ exists r, JsMap.get tid (W.audibleTabsMap w) = Some r
                           /\ W.id r = Some tid /\ W.lastActive r = Some la)
    (W.step clk ev)
    (W.holds (fun n m => W.sound clk n m /\ W.retained clk tid la n m)).
Proof.
  assert (Hrest : forall ok,
            W.triple (W.listed clk tid la)
              (W.holds (fun n m => W.sound clk n m
                                   /\ W.retained clk tid la n m))
              (W.bind (W.updateIconForMediaTabs clk)
                      (fun _ => W.pushUpdateToPopup ok))
              (W.holds (fun n m => W.sound clk n m
                                   /\ W.retained clk tid la n m))).
  { intros ok. apply icon_and_push_safe.
    now apply retained_snapshot. }
  destruct ev as [port ok|p| |tabs| |tab ok|k changeInfo tab ok|k ok|k|k b ok
                  |tab|k newTitle newUrl ok| |k b ok];
    simpl; try discriminate; intros Hsil.
  - apply andb_prop in Hsil. destruct Hsil as [Hq Hex].
    unfold W.onStartup.
    eapply triple_bind; [now apply silence_upsertAll |]. intros _.
    apply icon_safe. now apply retained_snapshot.
  - destruct (reports_silent_inv tab Hsil) as (t & -> & Hid & Ha).
    unfold W.onCreated.
    eapply triple_bind; [now apply silence_upsert |]. intros changed.
    destruct (Js.truthy changed); [apply Hrest | apply triple_ret].
  - apply andb_prop in Hsil. destruct Hsil as [Hdef Hsil].
    destruct (reports_silent_inv (Some tab) Hsil) as (t & [= <-] & Hid & Ha).
    unfold W.onUpdated. rewrite Hdef.
    eapply triple_bind
      with (P1 := W.holds (fun n m => W.sound clk n m
                                      /\ W.retained clk tid la n m)).
    + eapply triple_bind; [now apply silence_upsert |].
      intros v. apply triple_ret.
    + intros changed. destruct changed; [apply Hrest | apply triple_ret].
  - destruct (reports_silent_inv tab Hsil) as (t & -> & Hid & Ha).
    unfold W.upsertAfterSkip.
    eapply triple_bind; [now apply silence_upsert |].
    intros _. apply triple_ret.
Qed.

End Silenced.

(** C3, as the claim states it, evaluated where it fails.  Tab 7 plays
    at 100 and is reported silent at 200: its object is cached with
    [audible: false] and [lastActive: 100].  No later event passes an
    audible snapshot of it to [upsertFromTab].  A [toggle_play_pause]
    command for it is received at 1000000 and answered, not playing, at
    1000500: both stamp [lastActive].  The call of [getAudibleTabs]
    that starts at 1900000, [TAB_RETENTION_MS] and more after 100,
    still lists the tab.  And if instead the tab is closed at 1000000,
    inside its window, the calls made then and later list nothing. *)
Lemma toggle_restarts_the_window :
  JsMap.get 7
    (W.audibleTabsMap
       (W.state (W.run toggleClock (firstn 2 toggleRun) W.initial)))
  = Some (silentEntry7 100)
  /\ forallb (W.allowed (fun tab => negb (W.reports_audible 7 tab))
                        (fun _ => true))
             (skipn 2 toggleRun) = true
  /\ R.TAB_RETENTION_MS <= toggleClock 7 - 100
  /\ In (W.Snapshot 7 9 [silentEntry7 1000500])
        (W.trace (W.run toggleClock toggleRun W.initial))
  /\ firstn 2 closeRun = firstn 2 toggleRun
  /\ toggleClock 5 - 100 < R.TAB_RETENTION_MS
  /\ In (W.Snapshot 5 6 [])
        (W.trace (W.run toggleClock closeRun W.initial)).
Proof.
  split; [reflexivity |]. split; [reflexivity |].
  split; [vm_compute; discriminate |].
  split; [vm_compute; do 4 right; left; reflexivity |].
  split; [reflexivity |]. split; [reflexivity |].
  vm_compute. do 4 right. left. reflexivity.
Qed.

(** C3, amended.  Take any state the background page can reach, by
    its listeners, its timer and its command handlers in any order, in
    which tab [tid] is cached with an object that carries its id and a
    non-zero [lastActive]; let a handler report the tab not audible,
    and let any events follow that neither report it audible again,
    nor close it, nor belong to a [toggle_play_pause] command for it,
    under a clock that never goes back.  Then every later result of
    [getAudibleTabs] lists the tab's object, with [audible] cleared and
    that [lastActive], if the last clock value the call read is less
    than [TAB_RETENTION_MS] after [lastActive]; and it lists no object
    with the tab's id if the first clock value the call read is at least
    [TAB_RETENTION_MS] after [lastActive]. *)
Theorem retained_until_window_elapses
  (clk : nat -> Z) (es0 : list W.Event) (ev : W.Event) (es : list W.Event)
  (tid la : Z) (r : W.Entry) :
  (forall i j, (i <= j)%nat -> clk i <= clk j) ->
  JsMap.get tid (W.audibleTabsMap (W.state (W.run clk es0 W.initial)))
  = Some r ->
  W.id r = Some tid ->
  W.lastActive r = Some la ->
  la <> 0 ->
  W.silences tid ev = true ->
  forallb (W.quiet tid) es = true ->
  forall before after l,
    In (W.Snapshot before after l)
       (W.trace (W.run clk (ev :: es) (W.state (W.run clk es0 W.initial)))) ->
    (clk (pred after) - la < R.TAB_RETENTION_MS ->
     exists x, In x l /\ W.id x = Some tid /\ W.audible x = Some false
               /\ W.lastActive x = Some la)
    /\ (R.TAB_RETENTION_MS <= clk before - la ->
        forall x, In x l -> W.id x <> Some tid).
Proof.
  intros Hmono Hget Hid Hla Hnz Hsil Hq before after l Hin.
  assert (Hrun : W.triple (W.listed clk tid la)
            (fun w => W.holds (W.sound clk) w
                      /\ exists r, JsMap.get tid (W.audibleTabsMap w) = Some r
                                   /\ W.id r = Some tid
                                   /\ W.lastActive r = Some la)
            (W.run clk (ev :: es))
            (W.holds (fun n m => W.sound clk n m
                                 /\ W.retained clk tid la n m))).
  { simpl. eapply triple_bind; [now apply silence_step |].
    intros _. now apply retained_run. }
  destruct (Hrun (W.state (W.run clk es0 W.initial))) as [_ Hall].
  { split; [apply sound_reachable |]. exists r. tauto. }
  rewrite Forall_forall in Hall. exact (Hall _ Hin).
Qed.

Lemma stepClock_mono : forall i j, (i <= j)%nat -> stepClock i <= stepClock j.
Proof. intros i j Hij. unfold stepClock. lia. Defined.

Lemma retained_until_window_elapses_witness :
  (forall i j, (i <= j)%nat -> stepClock i <= stepClock j)
  /\ W.silences 7 (W.EUpdated 7 wentSilent silentTab7 (fun _ => true)) = true
  /\ forallb (W.quiet 7) silentRun = true
  /\ W.trace (W.run stepClock
                (W.EUpdated 7 wentSilent silentTab7 (fun _ => true) :: silentRun)
                (W.state (W.run stepClock playingRun W.initial)))
     = [W.Snapshot 3 5 [silentEntry7 1];
        W.Icon "icons/icon-sound-on-48.png" "1 tab(s) playing sound";
        W.Snapshot 5 7 [];
        W.Answered []]
  /\ stepClock 4 - 1 < R.TAB_RETENTION_MS
  /\ (exists x, In x [silentEntry7 1] /\ W.id x = Some 7
                /\ W.audible x = Some false /\ W.lastActive x = Some 1)
  /\ R.TAB_RETENTION_MS <= stepClock 5 - 1
  /\ (forall x : W.Entry, In x [] -> W.id x <> Some 7).
Proof.
  assert (Htrace :
    W.trace (W.run stepClock
               (W.EUpdated 7 wentSilent silentTab7 (fun _ => true) :: silentRun)
               (W.state (W.run stepClock playingRun W.initial)))
    = [W.Snapshot 3 5 [silentEntry7 1];
       W.Icon "icons/icon-sound-on-48.png" "1 tab(s) playing sound";
       W.Snapshot 5 7 [];
       W.Answered []]) by (vm_compute; reflexivity).
  pose proof (retained_until_window_elapses stepClock playingRun
                (W.EUpdated 7 wentSilent silentTab7 (fun _ => true))
                silentRun 7 1
                (W.freshEntry loudTab7 7 1)
                stepClock_mono eq_refl eq_refl eq_refl
                ltac:(discriminate) eq_refl eq_refl) as H.
  split; [exact stepClock_mono |]. split; [reflexivity |].
  split; [reflexivity |]. split; [exact Htrace |].
  split; [reflexivity |]. split.
  - apply (H 3%nat 5%nat [silentEntry7 1]); [|reflexivity].
    rewrite Htrace. now left.
  - split; [vm_compute; discriminate |].
    apply (H 5%nat 7%nat []); [|vm_compute; discriminate].
    rewrite Htrace. right. right. now left.
Defined.

(** ** Ages *)

(** X6.  After any run of the background page from its initial state
    (its listeners, its timer and its command handlers, in any order),
    every cached object that has a [lastActive] carries a value that an
    earlier [Date.now()] returned; so, under a clock that never goes
    back, the age [now - lastActive] computed from any later clock
    value is never negative.  (The object that [skip_track] stores for
    a tab that is not cached has no [lastActive].) *)
Theorem ages_are_never_negative (clk : nat -> Z) (es : list W.Event) :
  (forall i j, (i <= j)%nat -> clk i <= clk j) ->
  let w := W.state (W.run clk es W.initial) in
  forall k e t,
    JsMap.get k (W.audibleTabsMap w) = Some e ->
    W.lastActive e = Some t ->
    (exists j, (j < W.reads w)%nat /\ t = clk j)
    /\ forall j, (W.reads w <= j)%nat -> 0 <= clk j - t.
Proof.
  intros Hmono w k e t Hget Ht.
  destruct (sound_reachable clk es) as [_ Hst]. fold w in Hst.
  destruct (Forall_get _ _ _ _ Hst Hget t Ht) as [j0 [Hj0 Hla]].
  split; [now exists j0 |].
  intros j Hj. rewrite Hla.
  assert (clk j0 <= clk j) by (apply Hmono; lia). lia.
Qed.

Lemma ages_are_never_negative_witness :
  (forall i j, (i <= j)%nat -> stepClock i <= stepClock j)
  /\ JsMap.get 7
       (W.audibleTabsMap
          (W.state (W.run stepClock
                      [W.ECreated (Some loudTab7) (fun _ => true);
                       W.ESkippedTitle 9 (Some "Other") (Some "o")
                                       (fun _ => true);
                       W.ETogglePlayPause 7;
                       W.EToggled 7 false (fun _ => true)]
                      W.initial)))
     = Some (silentEntry7 1200001)
  /\ 0 <= stepClock 9 - 1200001.
Proof.
  split; [exact stepClock_mono |]. split; [reflexivity |].
  destruct (ages_are_never_negative stepClock
              [W.ECreated (Some loudTab7) (fun _ => true);
               W.ESkippedTitle 9 (Some "Other") (Some "o") (fun _ => true);
               W.ETogglePlayPause 7;
               W.EToggled 7 false (fun _ => true)]
              stepClock_mono 7 (silentEntry7 1200001) 1200001
              eq_refl eq_refl) as [_ H].
  exact (H 9%nat ltac:(vm_compute; lia)).
Defined.

(** ** [Whole] extends [Retaining]

    On a cache that holds only records built by [upsertFromTab], the
    cache functions of [Whole] do what those of [Retaining] do. *)

Lemma fullCache_get (k : Z) (m : JsMap.t R.TabRecord) :
  JsMap.get k (fullCache m) = option_map fullEntry (JsMap.get k m).
Proof.
  induction m as [|[k' v] m IH]; simpl; [reflexivity |].
  destruct (k' =? k); [reflexivity | exact IH].
Qed.

Lemma fullCache_set (k : Z) (r : R.TabRecord) (m : JsMap.t R.TabRecord) :
  JsMap.set k (fullEntry r) (fullCache m) = fullCache (JsMap.set k r m).
Proof.
  induction m as [|[k' v] m IH]; simpl; [reflexivity |].
  destruct (k' =? k); simpl; [reflexivity | now rewrite IH].
Qed.

Lemma fullCache_delete (k : Z) (m : JsMap.t R.TabRecord) :
  JsMap.delete k (fullCache m) = fullCache (JsMap.delete k m).
Proof.
  induction m as [|[k' v] m IH]; simpl; [reflexivity |].
  destruct (k' =? k); simpl; [reflexivity | now rewrite IH].
Qed.

Lemma fullEntry_stale (now : Z) (r : R.TabRecord) :
  W.isStale now (fullEntry r) = R.isStale now r.
Proof. unfold W.isStale, R.isStale. simpl. now destruct (R.audible r). Qed.

Section Extends.

Variable clk : nat -> Z.

Lemma whole_upsert_full (tab : option HostTab) (w : R.World) :
  W.upsertFromTab clk tab (fullWorld w)
  = (fst (R.upsertFromTab clk tab w),
     fullWorld (snd (R.upsertFromTab clk tab w)), []).
Proof.
  destruct tab as [t|]; [|reflexivity].
  destruct (tab_id t) as [tid|] eqn:Hid;
    [|unfold W.upsertFromTab, R.upsertFromTab; rewrite Hid; reflexivity].
  rewrite (whole_upsert clk _ t tid Hid), (upsert_unfold clk w t tid Hid).
  cbv zeta. unfold JsMap.has. simpl W.audibleTabsMap. simpl W.reads.
  rewrite fullCache_get.
  destruct (tab_audible t).
  - cbn [fst snd]. unfold fullWorld, W.ticked, ticked. simpl.
    destruct (JsMap.get tid (R.audibleTabsMap w)); simpl;
      now rewrite <- fullCache_set.
  - destruct (JsMap.get tid (R.audibleTabsMap w)) as [e|]; simpl.
    + unfold fullWorld, W.ticked. simpl. rewrite <- fullCache_set.
      do 3 f_equal. unfold W.markInactive, R.markInactive, fullEntry. simpl.
      now destruct (R.lastActive e =? 0).
    + reflexivity.
Qed.

Lemma fullCache_loop (now : Z) (l : list (Z * R.TabRecord)) :
  forall acc,
    fold_left
      (fun acc e => if W.isStale now (snd e) then JsMap.delete (fst e) acc
                    else acc)
      (fullCache l) (fullCache acc)
    = fullCache
        (fold_left
           (fun acc e => if R.isStale now (snd e) then JsMap.delete (fst e) acc
                         else acc)
           l acc).
Proof.
  induction l as [|[k v] l IH]; intros acc; simpl; [reflexivity |].
  rewrite fullEntry_stale.
  destruct (R.isStale now v); [rewrite fullCache_delete |]; apply IH.
Qed.

Lemma whole_cleanup_full (w : R.World) :
  W.cleanupOldTabs clk (fullWorld w)
  = (tt, fullWorld (snd (R.cleanupOldTabs clk w)), []).
Proof.
  unfold W.cleanupOldTabs, W.bind, W.Date_now, W.getTabs, W.putTabs,
    R.cleanupOldTabs, R.bind, R.Date_now, R.getTabs, R.putTabs, JsMap.entries.
  cbn [W.value W.state W.trace fst snd]. simpl.
  unfold fullWorld. simpl. now rewrite fullCache_loop.
Qed.

Lemma whole_filterTabs_full (l : list R.TabRecord) :
  forall w,
    W.filterTabs clk (map fullEntry l) (fullWorld w)
    = (map fullEntry (fst (R.filterTabs clk l w)),
       fullWorld (snd (R.filterTabs clk l w)), []).
Proof.
  induction l as [|r l IH]; intros w; [reflexivity |].
  change (map fullEntry (r :: l)) with (fullEntry r :: map fullEntry l).
  rewrite whole_filterTabs_cons, filterTabs_cons.
  change (W.audible (fullEntry r)) with (Some (R.audible r)).
  change (W.lastActive (fullEntry r)) with (Some (R.lastActive r)).
  destruct (R.audible r); cbn [W.truthy].
  - rewrite IH. reflexivity.
  - cbv zeta.
    change (W.ticked (fullWorld w) (W.audibleTabsMap (fullWorld w)))
      with (fullWorld (ticked w (R.audibleTabsMap w))).
    rewrite IH. cbn [W.value W.state W.trace fst snd].
    change (W.reads (fullWorld w)) with (R.reads w).
    now destruct (clk (R.reads w) - R.lastActive r <? R.TAB_RETENTION_MS).
Qed.

(** [getAudibleTabs] lists the same records, and is observed once. *)
Lemma whole_getAudibleTabs_full (w : R.World) :
  W.getAudibleTabs clk (fullWorld w)
  = (map fullEntry (fst (R.getAudibleTabs clk w)),
     fullWorld (snd (R.getAudibleTabs clk w)),
     [W.Snapshot (R.reads w) (R.reads (snd (R.getAudibleTabs clk w)))
                 (map fullEntry (fst (R.getAudibleTabs clk w)))]).
Proof.
  unfold W.getAudibleTabs, W.bind, W.getReads.
  cbn [W.value W.state W.trace fst snd]. rewrite whole_cleanup_full.
  unfold R.getAudibleTabs, R.bind, R.getTabs.
  destruct (R.cleanupOldTabs clk w) as [[] w1].
  unfold W.getTabs, W.emit, W.ret.
  cbn [W.value W.state W.trace fst snd].
  change (JsMap.values (W.audibleTabsMap (fullWorld w1)))
    with (JsMap.values (fullCache (R.audibleTabsMap w1))).
  assert (Hv : JsMap.values (fullCache (R.audibleTabsMap w1))
               = map fullEntry (JsMap.values (R.audibleTabsMap w1))).
  { unfold JsMap.values, fullCache. rewrite !map_map. reflexivity. }
  rewrite Hv, whole_filterTabs_full.
  cbn [W.value W.state W.trace fst snd].
  destruct (R.filterTabs clk (JsMap.values (R.audibleTabsMap w1)) w1).
  reflexivity.
Qed.

End Extends.
